(** * Verification model of the obsidian-book-clipper plugin (src/main.ts)

    JavaScript strings are modelled as lists of UTF-16 code units ([jstr]);
    JavaScript regular expressions used by the plugin are written as terms of
    a small backtracking matcher ([re]) with ECMAScript priority order
    (left alternative first, greedy repetition longest first, leftmost match). *)

From Stdlib Require Import ZArith List String Ascii Bool Lia.
Import ListNotations.
Open Scope Z_scope.

(* ------------------------------------------------------------------ *)
(** ** JavaScript strings *)

Abbreviation jstr := (list Z).

(** An ASCII literal as a list of code units. *)
Definition js (s : string) : jstr :=
  map (fun a => Z.of_nat (nat_of_ascii a)) (list_ascii_of_string s).

Definition jstr_eqb (a b : jstr) : bool :=
  if list_eq_dec Z.eq_dec a b then true else false.

(** WhiteSpace and LineTerminator code points: the set of [\s] and of
    [String.prototype.trim]. *)
Definition is_ws (c : Z) : bool :=
  ((9 <=? c) && (c <=? 13)) || (c =? 32) || (c =? 160) || (c =? 5760)
  || ((8192 <=? c) && (c <=? 8202)) || (c =? 8232) || (c =? 8233)
  || (c =? 8239) || (c =? 8287) || (c =? 12288) || (c =? 65279).

Fixpoint trim_start (s : jstr) : jstr :=
  match s with
  | c :: s' => if is_ws c then trim_start s' else s
  | [] => []
  end.

(** [s.trim()] *)
Definition trim (s : jstr) : jstr := rev (trim_start (rev (trim_start s))).

(** [s.replace(/\s+/g, ' ')]: every maximal run of white space becomes one
    space. The flag says whether the previous code unit was in a run. *)
Fixpoint collapse_ws_aux (inrun : bool) (s : jstr) : jstr :=
  match s with
  | [] => []
  | c :: s' =>
      if is_ws c then
        if inrun then collapse_ws_aux true s' else 32 :: collapse_ws_aux true s'
      else c :: collapse_ws_aux false s'
  end.

Definition collapse_ws (s : jstr) : jstr := collapse_ws_aux false s.

(** ASCII case folding, as done by the [i] flag (ECMAScript Canonicalize never
    maps a code unit >= 128 onto one < 128). *)
Definition to_lower (c : Z) : Z := if (65 <=? c) && (c <=? 90) then c + 32 else c.
Definition to_upper (c : Z) : Z := if (97 <=? c) && (c <=? 122) then c - 32 else c.

(* ------------------------------------------------------------------ *)
(** ** Regular expressions *)

Inductive re : Type :=
| REps                                       (* empty *)
| RCls (p : Z -> bool)                       (* one code unit of a class *)
| RSeq (r1 r2 : re)
| RAlt (r1 r2 : re)                          (* r1|r2, r1 tried first *)
| RRep (lo : nat) (hi : option nat) (p : Z -> bool)
                                             (* class{lo,hi}, greedy *)
| RCap (r : re)                              (* capturing group 1 *)
| REnd.                                      (* $ *)

(** Number of leading code units in class [p], at most [hi]. *)
Fixpoint run_len (p : Z -> bool) (hi : option nat) (s : jstr) : nat :=
  match hi, s with
  | Some O, _ => O
  | _, [] => O
  | _, c :: s' =>
      if p c then S (run_len p (match hi with Some (S h) => Some h | _ => None end) s')
      else O
  end.

(** Try [f i], [f (i-1)], ..., [f (i-cnt)]: greedy backtracking. *)
Fixpoint try_down {A} (i cnt : nat) (f : nat -> option A) : option A :=
  match cnt with
  | O => f i
  | S c => match f i with Some x => Some x | None => try_down (pred i) c f end
  end.

(** Continuation-passing backtracking matcher: the continuation receives the
    rest of the input and the current capture of group 1. *)
Fixpoint mt {A} (r : re) (s : jstr) (cap : option jstr)
    (k : jstr -> option jstr -> option A) : option A :=
  match r with
  | REps => k s cap
  | RCls p => match s with c :: s' => if p c then k s' cap else None | [] => None end
  | RSeq r1 r2 => mt r1 s cap (fun s' cap' => mt r2 s' cap' k)
  | RAlt r1 r2 => match mt r1 s cap k with Some x => Some x | None => mt r2 s cap k end
  | RRep lo hi p =>
      let n := run_len p hi s in
      if Nat.ltb n lo then None else try_down n (n - lo)%nat (fun i => k (skipn i s) cap)
  | RCap r1 => mt r1 s cap (fun s' _ => k s' (Some (firstn (List.length s - List.length s')%nat s)))
  | REnd => match s with [] => k s cap | _ => None end
  end.

(** [RegExp.prototype.exec] from position [i] on: the start index of the
    leftmost match, the input after it, and group 1. *)
Fixpoint exec_from (r : re) (s : jstr) (i : nat) : option (nat * jstr * option jstr) :=
  match mt r s None (fun rest cap => Some (rest, cap)) with
  | Some (rest, cap) => Some (i, rest, cap)
  | None => match s with [] => None | _ :: s' => exec_from r s' (S i) end
  end.

Definition exec (r : re) (s : jstr) := exec_from r s 0%nat.

(** [r.test(s)] *)
Definition re_test (r : re) (s : jstr) : bool :=
  match exec r s with Some _ => true | None => false end.

(** [s.replace(r, repl)] for a non-global [r] and a replacement without [$]. *)
Definition re_replace_first (r : re) (s : jstr) (repl : jstr) : jstr :=
  match exec r s with
  | Some (i, rest, _) => firstn i s ++ repl ++ rest
  | None => s
  end.

(** The [i] flag. *)
Fixpoint icase (r : re) : re :=
  match r with
  | REps => REps
  | RCls p => RCls (fun c => p c || p (to_lower c) || p (to_upper c))
  | RSeq r1 r2 => RSeq (icase r1) (icase r2)
  | RAlt r1 r2 => RAlt (icase r1) (icase r2)
  | RRep lo hi p => RRep lo hi (fun c => p c || p (to_lower c) || p (to_upper c))
  | RCap r1 => RCap (icase r1)
  | REnd => REnd
  end.

(** Building blocks. *)
Definition in_range (a b : Z) (c : Z) : bool := (a <=? c) && (c <=? b).
Definition ch (c : Z) : re := RCls (Z.eqb c).
Fixpoint seqs (rs : list re) : re :=
  match rs with [] => REps | [r] => r | r :: rs' => RSeq r (seqs rs') end.
Fixpoint alts (rs : list re) : re :=
  match rs with [] => RCls (fun _ => false) | [r] => r | r :: rs' => RAlt r (alts rs') end.
Definition lit (s : string) : re := seqs (map ch (js s)).
Definition star (p : Z -> bool) : re := RRep 0%nat None p.
Definition plus (p : Z -> bool) : re := RRep 1%nat None p.
Definition exactly (n : nat) (p : Z -> bool) : re := RRep n (Some n) p.

Definition c_az : Z -> bool := in_range 97 122.
Definition c_AZ09 (c : Z) : bool := in_range 65 90 c || in_range 48 57 c.
Definition c_alnum (c : Z) : bool := in_range 97 122 c || in_range 65 90 c || in_range 48 57 c.
(** [.]: anything but a line terminator. *)
Definition c_dot (c : Z) : bool :=
  negb ((c =? 10) || (c =? 13) || (c =? 8232) || (c =? 8233)).

(* ------------------------------------------------------------------ *)
(** ** detectSource *)

(** [(com|co\.[a-z]{2}|[a-z]{2})] *)
Definition amazon_tld : re :=
  alts [lit "com"; seqs [lit "co."; exactly 2%nat c_az]; exactly 2%nat c_az].

Definition amazonPatterns : list re := map icase [
  (* /amazon\.(com|co\.[a-z]{2}|[a-z]{2})\/(gp\/product|exec\/obidos\/asin|dp|asin|o\/ASIN)\/([A-Z0-9]{10})/i *)
  seqs [lit "amazon."; amazon_tld; lit "/";
        alts [lit "gp/product"; lit "exec/obidos/asin"; lit "dp"; lit "asin"; lit "o/ASIN"];
        lit "/"; exactly 10%nat c_AZ09];
  (* /amzn\.to\//i *)
  lit "amzn.to/";
  (* /a\.co\/[a-zA-Z0-9]+/i *)
  seqs [lit "a.co/"; plus c_alnum];
  (* /amazon\.(com|co\.[a-z]{2}|[a-z]{2})\/.*[&?]asin=([A-Z0-9]{10})/i *)
  seqs [lit "amazon."; amazon_tld; lit "/"; star c_dot;
        RCls (fun c => (c =? 38) || (c =? 63)); lit "asin="; exactly 10%nat c_AZ09]
].

(** The [patterns] object, in its property order. *)
Definition site_patterns : list (jstr * re) := [
  (js "taaghche", icase (lit "taaghche.com/book/"));
  (js "fidibo", icase (seqs [lit "fidibo.com/"; alts [lit "books"; lit "book"]; lit "/"]));
  (js "goodreads", icase (lit "goodreads.com/book/show/"))
].

Definition detectSource (url : jstr) : option jstr :=
  if existsb (fun p => re_test p url) amazonPatterns then Some (js "amazon")
  else match find (fun kp => re_test (snd kp) url) site_patterns with
       | Some (k, _) => Some k
       | None => None
       end.


(* ------------------------------------------------------------------ *)
(** ** The parsed document

    [DOMParser] and the CSS selector engine are the host's; a parsed page is
    given by the answers of the queries the plugin makes. Elements are
    identified by numbers. *)

Record Dom : Type := {
  qs : jstr -> option nat;           (* doc.querySelector(sel) *)
  qsa : jstr -> list nat;            (* doc.querySelectorAll(sel) *)
  eqs : nat -> jstr -> option nat;   (* el.querySelector(sel) *)
  eqsa : nat -> jstr -> list nat;    (* el.querySelectorAll(sel) *)
  text : nat -> jstr;                (* el.textContent *)
  attr : nat -> jstr -> option jstr; (* el.getAttribute(name) *)
  page_text : jstr                   (* doc.documentElement.textContent *)
}.

Definition nonempty (s : jstr) : bool := match s with [] => false | _ => true end.

(** The selector fallback loop used for descriptions and titles:
<<
    for (const selector of selectors) {
      const el = doc.querySelector(selector);
      if (el) {
        value = norm(el.textContent);
        if (value) break;
      }
    }
>>
    [cur] is the value of the variable before the loop. *)
Fixpoint select_chain (norm : jstr -> jstr) (d : Dom) (sels : list jstr) (cur : jstr) : jstr :=
  match sels with
  | [] => cur
  | sel :: rest =>
      match qs d sel with
      | Some el =>
          let v := norm (text d el) in
          if nonempty v then v else select_chain norm d rest v
      | None => select_chain norm d rest cur
      end
  end.

(** [el.textContent?.trim() || ''] *)
Definition norm_trim (s : jstr) : jstr := trim s.
(** [el.textContent?.trim().replace(/\s+/g, ' ') || ''] *)
Definition norm_trim_collapse (s : jstr) : jstr := collapse_ws (trim s).

Definition goodreads_descriptionSelectors : list jstr := [
  js "[data-testid=" ++ [34] ++ js "description" ++ [34] ++ js "]"; js ".BookPageMetadataSection__description";
  js "div[data-automation-id=" ++ [34] ++ js "bookDescription" ++ [34] ++ js "]"; js "div#bookDescription"; js ".read-more-content";
  js ".truncatedText"; js "div#descriptionContainer"; js "div.descriptionContainer";
  js ".BookPageDescriptionSection"; js ".BookDescriptionSection"; js ".Description";
  js "[class*=" ++ [34] ++ js "description" ++ [34] ++ js "]"; js "[class*=" ++ [34] ++ js "Description" ++ [34] ++ js "]"].

Definition amazon_titleSelectors : list jstr := [
  js "#productTitle"; js "span#productTitle"; js "h1#title"; js ".product-title"; js ".a-size-medium";
  js "h1.a-size-large"].

(** A sample product page: [#productTitle] is present but blank, and
    [span#productTitle] holds the title. *)
Definition sample_amazon_dom : Dom := {|
  qs := fun sel => if jstr_eqb sel (js "#productTitle") then Some 1%nat
                   else if jstr_eqb sel (js "span#productTitle") then Some 2%nat else None;
  qsa := fun _ => [];
  eqs := fun _ _ => None;
  eqsa := fun _ _ => [];
  text := fun el => match el with
                    | 1%nat => js "   "
                    | _ => js " Some   Book" ++ [10] ++ js "(Gift Books) "
                    end;
  attr := fun _ _ => None;
  page_text := []
|}.

(* ------------------------------------------------------------------ *)
(** ** Template substitution (addBook) *)

(** [GetSubstitution] for a pattern without capturing groups: [$$], [$&],
    [$`] and [$'] are expanded, every other [$] is kept. *)
Fixpoint expand (repl matched before after : jstr) : jstr :=
  match repl with
  | [] => []
  | c :: r =>
      if c =? 36 then
        match r with
        | d :: r' =>
            if d =? 36 then 36 :: expand r' matched before after
            else if d =? 38 then matched ++ expand r' matched before after
            else if d =? 96 then before ++ expand r' matched before after
            else if d =? 39 then after ++ expand r' matched before after
            else c :: expand r matched before after
        | [] => [c]
        end
      else c :: expand r matched before after
  end.

Fixpoint is_prefix (p s : jstr) : bool :=
  match p, s with
  | [], _ => true
  | a :: p', b :: s' => (a =? b) && is_prefix p' s'
  | _ :: _, [] => false
  end.

(** [whole.replace(/pat/g, repl)] for a literal, non-empty [pat]: scan left to
    right; after a match the next [length pat - 1] code units are skipped.
    [pos] is the index of [s] in [whole]. *)
Fixpoint replace_all_go (pat repl whole : jstr) (pos : nat) (s : jstr) (skip : nat) : jstr :=
  match s with
  | [] => []
  | c :: s' =>
      match skip with
      | S k => replace_all_go pat repl whole (S pos) s' k
      | O =>
          if is_prefix pat s then
            expand repl pat (firstn pos whole) (skipn (pos + List.length pat) whole)
              ++ replace_all_go pat repl whole (S pos) s' (pred (List.length pat))
          else c :: replace_all_go pat repl whole (S pos) s' O
      end
  end.

Definition replace_all (pat repl s : jstr) : jstr := replace_all_go pat repl s O s O.

(** [escapeYamlString] *)
Definition escapeYamlString (str : jstr) : jstr :=
  if negb (nonempty str) then []
  else replace_all [13] [32] (replace_all [10] [32]
         (replace_all [34] [92; 34] (replace_all [92] [92; 92] str))).

Record BookData : Type := {
  title : jstr; author : jstr; pages : jstr; cover : jstr;
  publisher : option jstr; translator : option jstr; datepublished : option jstr;
  language : option jstr; isbn : option jstr; url : option jstr;
  description : option jstr; summary : option jstr }.

(** [x || ''] for an optional string field. *)
Definition or_empty (o : option jstr) : jstr := match o with Some s => s | None => [] end.

Definition brace (s : string) : jstr := [123; 123] ++ js s ++ [125; 125].

(** The chain of [.replace(/{{...}}/g, ...)] calls building [noteContent]. *)
Definition noteContent (templateContent : jstr) (b : BookData) : jstr :=
  let t := templateContent in
  let t := replace_all (brace "title") (escapeYamlString (title b)) t in
  let t := replace_all (brace "author") (escapeYamlString (author b)) t in
  let t := replace_all (brace "pages") (pages b) t in
  let t := replace_all (brace "cover") (escapeYamlString (cover b)) t in
  let t := replace_all (brace "publisher") (escapeYamlString (or_empty (publisher b))) t in
  let t := replace_all (brace "translator") (escapeYamlString (or_empty (translator b))) t in
  let t := replace_all (brace "datepublished") (escapeYamlString (or_empty (datepublished b))) t in
  let t := replace_all (brace "ISBN") (escapeYamlString (or_empty (isbn b))) t in
  let t := replace_all (brace "url") (escapeYamlString (or_empty (url b))) t in
  let t := replace_all (brace "language") (escapeYamlString (or_empty (language b))) t in
  let t := replace_all (brace "description") (escapeYamlString (or_empty (description b))) t in
  replace_all (brace "summary") (escapeYamlString (or_empty (summary b))) t.

(** The template's placeholders, and templates as text and placeholders. *)
Inductive token : Type :=
| TTitle | TAuthor | TTranslator | TPages | TCover | TPublisher | TDatepublished
| TISBN | TUrl | TLanguage | TDescription | TSummary.

Definition token_name (t : token) : string :=
  match t with
  | TTitle => "title" | TAuthor => "author" | TTranslator => "translator"
  | TPages => "pages" | TCover => "cover" | TPublisher => "publisher"
  | TDatepublished => "datepublished" | TISBN => "ISBN" | TUrl => "url"
  | TLanguage => "language" | TDescription => "description" | TSummary => "summary"
  end.

Inductive seg : Type := Lit (s : jstr) | Tok (t : token).

Fixpoint render (segs : list seg) : jstr :=
  match segs with
  | [] => []
  | Lit s :: r => s ++ render r
  | Tok t :: r => brace (token_name t) ++ render r
  end.

Definition nl : jstr := [10].
Definition dq : jstr := [34].

(** The built-in template of [addBook]. *)
Definition default_template_segs : list seg := [
  Lit (js "---" ++ nl ++ js "title: " ++ dq); Tok TTitle;
  Lit (dq ++ nl ++ js "author: " ++ dq); Tok TAuthor;
  Lit (dq ++ nl ++ js "translator: " ++ dq); Tok TTranslator;
  Lit (dq ++ nl ++ js "pages: "); Tok TPages;
  Lit (nl ++ js "cover: " ++ dq); Tok TCover;
  Lit (dq ++ nl ++ js "publisher: " ++ dq); Tok TPublisher;
  Lit (dq ++ nl ++ js "datepublished: " ++ dq); Tok TDatepublished;
  Lit (dq ++ nl ++ js "ISBN: " ++ dq); Tok TISBN;
  Lit (dq ++ nl ++ js "url: " ++ dq); Tok TUrl;
  Lit (dq ++ nl ++ js "language: " ++ dq); Tok TLanguage;
  Lit (dq ++ nl ++ js "description: " ++ dq); Tok TDescription;
  Lit (dq ++ nl ++ js "summary: " ++ dq); Tok TSummary;
  Lit (dq ++ nl ++ js "---" ++ nl ++ nl)].

Definition default_template : jstr := render default_template_segs.

(* ------------------------------------------------------------------ *)
(** ** Numbers and dates *)

(** Decimal digits of [n >= 0] in front of [acc]. *)
Fixpoint digits_of (fuel : nat) (n : Z) (acc : jstr) : jstr :=
  match fuel with
  | O => acc
  | S f => let acc' := (48 + n mod 10) :: acc in
           if n <? 10 then acc' else digits_of f (n / 10) acc'
  end.

(** [String(n)] for an integral number [n]; the exponent notation JavaScript
    uses from 1e21 on is not modelled. *)
Definition number_to_string (n : Z) : jstr :=
  if n <? 0 then 45 :: digits_of 80 (- n) [] else digits_of 80 n [].

(** [s.padStart(2, '0')] *)
Definition padStart2 (s : jstr) : jstr :=
  match s with
  | [] => [48; 48]
  | [c] => [48; c]
  | _ => s
  end.

Definition msPerDay : Z := 86400000.

(** Year, month (1..12) and day of the proleptic Gregorian calendar for a day
    number counted from 1970-01-01 (the calendar of ECMAScript's
    YearFromTime, MonthFromTime and DateFromTime, computed by eras of 400
    years). *)
Definition civil_from_days (days : Z) : Z * Z * Z :=
  let z := days + 719468 in
  let era := z / 146097 in
  let doe := z - era * 146097 in
  let yoe := (doe - doe / 1460 + doe / 36524 - doe / 146096) / 365 in
  let y := yoe + era * 400 in
  let doy := doe - (365 * yoe + yoe / 4 - yoe / 100) in
  let mp := (5 * doy + 2) / 153 in
  let d := doy - (153 * mp + 2) / 5 + 1 in
  let m := if mp <? 10 then mp + 3 else mp - 9 in
  (if m <=? 2 then y + 1 else y, m, d).

(** [getFullYear()], [getMonth() + 1] and [getDate()] of [new Date(t)]:
    the calendar date of LocalTime(t) = t + offset, where [tz t] is the
    host's offset from UTC (in milliseconds) at the instant [t]. *)
Definition local_ymd (tz : Z -> Z) (t : Z) : Z * Z * Z :=
  civil_from_days ((t + tz t) / msPerDay).

(** [formatDateFromTimestamp] for a numeric timestamp (integral milliseconds;
    [isNaN] never holds for one). Outside the [Date] range [new Date] is
    invalid and every component prints as [NaN]. *)
Definition formatDateFromTimestamp (tz : Z -> Z) (timestamp : Z) : jstr :=
  if timestamp =? 0 then []
  else if 8640000000000000 <? Z.abs timestamp then js "NaN-NaN-NaN"
  else
    let '(year, month, day) := local_ymd tz timestamp in
    number_to_string year ++ [45] ++ padStart2 (number_to_string month)
      ++ [45] ++ padStart2 (number_to_string day).

(* ------------------------------------------------------------------ *)
(** ** Amazon title cleanup (fetchBookData, amazon branch) *)

(** [[^)]] *)
Definition not_rparen (c : Z) : bool := negb (c =? 41).

Definition title_keywords : list string :=
  ["Bird Books"; "Books for"; "Humor Books"; "Gift Books"; "Children's Books";
   "Teen & Young Adult"; "Education & Reference"]%string.

(** [/\s*\([^)]*(?:Bird Books|Books for|...|Education & Reference)[^)]*\)\s*/i] *)
Definition category_paren_re : re :=
  icase (seqs [star is_ws; ch 40; star not_rparen; alts (map lit title_keywords);
               star not_rparen; ch 41; star is_ws]).

(** [/\s*\([^)]{30,}\)\s*$/i] *)
Definition long_paren_re : re :=
  icase (seqs [star is_ws; ch 40; RRep 30 None not_rparen; ch 41; star is_ws; REnd]).

(** The cleanup applied to the Amazon title:
<<
    if (title) {
      title = title.replace(category_paren_re, '').trim();
      title = title.replace(long_paren_re, '').trim();
    }
>> *)
Definition cleanAmazonTitle (title : jstr) : jstr :=
  if nonempty title then
    let title1 := trim (re_replace_first category_paren_re title []) in
    trim (re_replace_first long_paren_re title1 [])
  else title.

(* ------------------------------------------------------------------ *)
(** ** JSON values and the effects of the network code *)

Local Set Warnings "-register-all".

(** Values produced by [JSON.parse] (numbers as a fraction [n / d]). *)
Inductive jsval : Type :=
| JUndef
| JNull
| JBool (b : bool)
| JNum (n : Z) (d : positive)
| JStr (s : jstr)
| JArr (l : list jsval)
| JObj (kvs : list (jstr * jsval)).

(** ToBoolean *)
Definition truthy (v : jsval) : bool :=
  match v with
  | JUndef | JNull => false
  | JBool b => b
  | JNum n _ => negb (n =? 0)
  | JStr s => nonempty s
  | JArr _ | JObj _ => true
  end.

Definition nullish (v : jsval) : bool :=
  match v with JUndef | JNull => true | _ => false end.

Definition is_str (v : jsval) : bool := match v with JStr _ => true | _ => false end.

(** [a || b] *)
Definition or_ (a b : jsval) : jsval := if truthy a then a else b.

(** An own property of a parsed object ([JSON.parse] keeps the last of
    repeated keys). *)
Definition obj_get (kvs : list (jstr * jsval)) (k : jstr) : jsval :=
  match find (fun kv => jstr_eqb (fst kv) k) (rev kvs) with
  | Some (_, v) => v
  | None => JUndef
  end.

(** Exceptions a statement can raise. *)
Inductive exn : Type := TypeError | SyntaxError | URIError | RequestError.

(** Computations that may throw and that record the URLs requested. *)
Definition M (A : Type) : Type := list jstr -> (exn + A) * list jstr.

Definition ret {A} (a : A) : M A := fun tr => (inr a, tr).
Definition bind {A B} (m : M A) (k : A -> M B) : M B :=
  fun tr => match m tr with
            | (inr a, tr') => k a tr'
            | (inl e, tr') => (inl e, tr')
            end.
Definition throw {A} (e : exn) : M A := fun tr => (inl e, tr).
(** [try { m } catch { h }] *)
Definition try_ {A} (m : M A) (h : M A) : M A :=
  fun tr => match m tr with
            | (inl _, tr') => h tr'
            | r => r
            end.
Definition lift {A} (o : exn + A) : M A := fun tr => (o, tr).

Notation "x <- m ;; k" := (bind m (fun x => k)) (at level 61, m at next level, right associativity).

(** [v.k] for a name [k] that is no property of the built-in prototypes;
    [length] of arrays and strings. *)
Definition get (v : jsval) (k : string) : M jsval :=
  match v with
  | JUndef | JNull => throw TypeError
  | JObj kvs => ret (obj_get kvs (js k))
  | JArr l => ret (if String.eqb k "length" then JNum (Z.of_nat (List.length l)) 1 else JUndef)
  | JStr s => ret (if String.eqb k "length" then JNum (Z.of_nat (List.length s)) 1 else JUndef)
  | _ => ret JUndef
  end.

(** [v.replace(...)] and the like: a method of strings only. *)
Definition as_string (v : jsval) : M jstr :=
  match v with JStr s => ret s | _ => throw TypeError end.

(** [v.slice(0, 3)] followed by [for (const x of ...)]: arrays give their
    first three elements; strings give strings (of which every property read
    in the loops below is undefined); other values have no [slice]. *)
Definition slice3 (v : jsval) : M (list jsval) :=
  match v with
  | JArr l => ret (firstn 3 l)
  | JStr s => ret (map (fun c => JStr [c]) (firstn 3 s))
  | _ => throw TypeError
  end.

(** A [requestUrl] response: its status and its [json] getter ([None]: the
    body is no JSON and the getter throws). *)
Record response : Type := { status : Z; json : option jsval }.

Inductive net_result : Type := NetThrow | NetResp (r : response).

(** The host: the network, [encodeURIComponent] (None: URIError), [String(v)]
    in a template literal (None: it throws) and the comparison [v > 0]. *)
Record host : Type := {
  net : jstr -> net_result;
  encodeURIComponent : jstr -> option jstr;
  template_str : jsval -> option jstr;
  gt0 : jsval -> bool
}.

Definition opt_exn {A} (e : exn) (o : option A) : M A :=
  match o with Some a => ret a | None => throw e end.

(** [await requestUrl({ url: u, ... })] *)
Definition request (h : host) (u : jstr) : M response :=
  fun tr => (match net h u with NetThrow => inl RequestError | NetResp r => inr r end, tr ++ [u]).

(** [response.json] *)
Definition json_of (r : response) : M jsval := opt_exn SyntaxError (json r).

(* ------------------------------------------------------------------ *)
(** ** fetchSummary *)

(** [s.replace(/<[^>]*>/g, ' ')]: a [<] followed later by a [>] starts a
    tag that ends at the first [>]; the tag becomes a space. *)
Fixpoint strip_tags_aux (intag : bool) (s : jstr) : jstr :=
  match s with
  | [] => []
  | c :: s' =>
      if intag then (if c =? 62 then strip_tags_aux false s' else strip_tags_aux true s')
      else if (c =? 60) && existsb (Z.eqb 62) s' then 32 :: strip_tags_aux true s'
      else c :: strip_tags_aux false s'
  end.

Definition strip_tags (s : jstr) : jstr := strip_tags_aux false s.

(** [description.replace(/<[^>]*>/g, ' ').replace(/\s+/g, ' ').trim()] *)
Definition clean (s : jstr) : jstr := trim (collapse_ws (strip_tags s)).

(** [if (description) { const cleanDesc = ...; if (cleanDesc.length > 20)
    return cleanDesc.substring(0, 500).trim(); }] *)
Definition accept (description : jsval) : M (option jstr) :=
  if truthy description then
    s <- as_string description ;;
    let cleanDesc := clean s in
    ret (if Nat.ltb 20 (List.length cleanDesc) then Some (trim (firstn 500 cleanDesc)) else None)
  else ret None.

(** [isbn && isbn.length > 5] *)
Definition isbn_ok (isbn : option jstr) : option jstr :=
  match isbn with
  | Some s => if nonempty s && Nat.ltb 5 (List.length s) then Some s else None
  | None => None
  end.

(** [/[:–—-].*$/] *)
Definition title_cut_re : re :=
  seqs [RCls (fun c => (c =? 58) || (c =? 8211) || (c =? 8212) || (c =? 45)); star c_dot; REnd].

(** [title.replace(/[:–—-].*$/, '').trim()] *)
Definition cleanTitle (title : jstr) : jstr := trim (re_replace_first title_cut_re title []).

(** [s.split(sep)[0]] for a one-character separator. *)
Fixpoint split_first (sep : Z) (s : jstr) : jstr :=
  match s with
  | [] => []
  | c :: s' => if c =? sep then [] else c :: split_first sep s'
  end.

(** [author.split(',')[0].trim()] *)
Definition cleanAuthor (author : jstr) : jstr := trim (split_first 44 author).

Definition isbn_url (isbn : jstr) : jstr := js "https://openlibrary.org/isbn/" ++ isbn ++ js ".json".

Definition search_url (t a : jstr) : jstr :=
  js "https://openlibrary.org/search.json?title=" ++ t ++ js "&author=" ++ a ++ js "&limit=3".

Definition google_url (q : jstr) : jstr :=
  js "https://www.googleapis.com/books/v1/volumes?q=" ++ q ++ js "&maxResults=5".

Section FetchSummary.
Variable h : host.

(** Stage 1: Open Library by ISBN. *)
Definition isbn_stage (isbn : jstr) : M (option jstr) :=
  try_ (
    response <- request h (isbn_url isbn) ;;
    j <- (if status response =? 200 then json_of response else ret JUndef) ;;
    if (status response =? 200) && truthy j then
      data <- json_of response ;;
      d <- get data "description" ;;
      description <-
        (if truthy d then
           if is_str d then ret d
           else (v <- get d "value" ;; ret (or_ v (JStr [])))
         else ret (JStr [])) ;;
      accept description
    else ret None)
  (ret None).

(** The inner [try]: the work record of a search result. *)
Definition work_fetch (key : jsval) (description : jsval) : M jsval :=
  try_ (
    k <- opt_exn TypeError (template_str h key) ;;
    workResponse <- request h (js "https://openlibrary.org" ++ k ++ js ".json") ;;
    j <- (if status workResponse =? 200 then json_of workResponse else ret JUndef) ;;
    if (status workResponse =? 200) && truthy j then
      workData <- json_of workResponse ;;
      wd <- get workData "description" ;;
      v <- (if nullish wd then ret JUndef else get wd "value") ;;
      ret (or_ v (or_ wd (JStr [])))
    else ret description)
  (ret description).

Fixpoint docs_loop (docs : list jsval) : M (option jstr) :=
  match docs with
  | [] => ret None
  | doc :: rest =>
      fs <- get doc "first_sentence" ;;
      d0 <- (if truthy fs then ret fs
             else (dd <- get doc "description" ;; ret (or_ dd (JStr [])))) ;;
      let d1 := match d0 with JArr l => or_ (nth 0 l JUndef) (JStr []) | v => v end in
      description <-
        (if truthy d1 then ret d1
         else (key <- get doc "key" ;;
               if truthy key then work_fetch key d1 else ret d1)) ;;
      res <- accept description ;;
      match res with Some s => ret (Some s) | None => docs_loop rest end
  end.

(** Stage 2: Open Library search by title. *)
Definition search_stage (title author : jstr) : M (option jstr) :=
  try_ (
    t <- opt_exn URIError (encodeURIComponent h (cleanTitle title)) ;;
    a <- opt_exn URIError (encodeURIComponent h (cleanAuthor author)) ;;
    response <- request h (search_url t a) ;;
    j <- (if status response =? 200 then json_of response else ret JUndef) ;;
    if (status response =? 200) && truthy j then
      data <- json_of response ;;
      docs <- get data "docs" ;;
      len <- (if truthy docs then get docs "length" else ret JUndef) ;;
      if truthy docs && gt0 h len then
        items <- slice3 docs ;;
        docs_loop items
      else ret None
    else ret None)
  (ret None).

Fixpoint items_loop (items : list jsval) : M (option jstr) :=
  match items with
  | [] => ret None
  | item :: rest =>
      vi <- get item "volumeInfo" ;;
      let volumeInfo := or_ vi (JObj []) in
      d1 <- get volumeInfo "description" ;;
      description <-
        (if truthy d1 then ret d1
         else (d2 <- get volumeInfo "summary" ;;
               if truthy d2 then ret d2
               else (d3 <- get volumeInfo "textSnippet" ;; ret (or_ d3 (JStr []))))) ;;
      res <- accept description ;;
      match res with Some s => ret (Some s) | None => items_loop rest end
  end.

(** Stage 3: Google Books. *)
Definition google_stage (title author : jstr) (isbn : option jstr) : M (option jstr) :=
  try_ (
    let query := match isbn_ok isbn with
                 | Some s => js "isbn:" ++ s
                 | None => cleanTitle title ++ [32] ++ cleanAuthor author
                 end in
    q <- opt_exn URIError (encodeURIComponent h query) ;;
    response <- request h (google_url q) ;;
    if status response =? 200 then
      data <- json_of response ;;
      its <- get data "items" ;;
      len <- (if truthy its then get its "length" else ret JUndef) ;;
      if truthy its && gt0 h len then
        items <- slice3 its ;;
        items_loop items
      else ret None
    else ret None)
  (ret None).

(** [if (isbn && isbn.length > 5) { try { ... } catch (error) { } }] *)
Definition isbn_lookup (isbn : option jstr) : M (option jstr) :=
  match isbn_ok isbn with Some s => isbn_stage s | None => ret None end.

Definition fetchSummary (title author : jstr) (isbn : option jstr) : M jstr :=
  r1 <- isbn_lookup isbn ;;
  match r1 with
  | Some d => ret d
  | None =>
      r2 <- search_stage title author ;;
      match r2 with
      | Some d => ret d
      | None =>
          r3 <- google_stage title author isbn ;;
          match r3 with Some d => ret d | None => ret [] end
      end
  end.

End FetchSummary.

(** The strings occurring in a parsed JSON value. *)
Fixpoint strings_in (v : jsval) : list jstr :=
  match v with
  | JStr s => [s]
  | JArr l => flat_map strings_in l
  | JObj kvs => flat_map (fun '(_, x) => strings_in x) kvs
  | _ => []
  end.

(** A description too short to be accepted once cleaned. *)
Definition short (s : jstr) : Prop := (List.length (clean s) <= 20)%nat.

Definition all_short (v : jsval) : Prop := Forall short (strings_in v).

(** Partial correctness: every normal result satisfies [P]. *)
Definition post {A} (P : A -> Prop) (m : M A) : Prop :=
  forall tr, match fst (m tr) with inr a => P a | inl _ => True end.

(** A computation that requests nothing. *)
Definition keeps {A} (m : M A) : Prop := forall tr, snd (m tr) = tr.

Definition resp_ok (r : response) : Prop := forall v, json r = Some v -> all_short v.

(** A request that throws or answers with a status other than 200. *)
Definition fails (h : host) (u : jstr) : Prop :=
  net h u = NetThrow \/ exists r, net h u = NetResp r /\ status r <> 200.

(** A result of [fetchSummary]'s acceptance test: a cleaned description
    longer than 20 code units, cut to 500 and trimmed. *)
Definition accepted (o : option jstr) : Prop :=
  match o with
  | Some d => exists c, (20 < List.length (clean c))%nat /\ d = trim (firstn 500 (clean c))
                        /\ (List.length d <= 500)%nat
  | None => True
  end.

(* ------------------------------------------------------------------ *)
(** ** The records built by fetchBookData *)

(** [arr.join(sep)] for an array of strings *)
Fixpoint join (sep : jstr) (l : list jstr) : jstr :=
  match l with
  | [] => []
  | [x] => x
  | x :: rest => x ++ sep ++ join sep rest
  end.

(** [.filter((name: string) => name.trim() !== '')]: [trim] is a method of
    strings only. *)
Fixpoint filter_names (names : list jsval) : M (list jstr) :=
  match names with
  | [] => ret []
  | n :: rest =>
      s <- as_string n ;;
      rest' <- filter_names rest ;;
      ret (if nonempty (trim s) then s :: rest' else rest')
  end.

(** [author] in the [.map] of [concatenateAuthors]: a string, the truthy
    [name] of an object, or [''] (arrays are objects without [name]). *)
Definition author_name (a : jsval) : jsval :=
  match a with
  | JStr s => JStr s
  | JObj kvs => let n := obj_get kvs (js "name") in if truthy n then n else JStr []
  | _ => JStr []
  end.

Definition concatenateAuthors (authors : jsval) : M jstr :=
  match authors with
  | JArr ((_ :: _) as l) =>
      names <- filter_names (map author_name l) ;;
      ret (join (js ", ") names)
  | _ => ret []
  end.

Definition is_arr (v : jsval) : bool := match v with JArr _ => true | _ => false end.

(** A returned [BookData] object: its properties in the order of the object
    literal. *)
Definition BookObj : Type := list (string * jsval).

(** What [fetchBookData] reads from the page, as the code has computed it
    just before building the record. [None] stands for [undefined] produced
    by an optional chain [?.]. *)
Record Page : Type := {
  jsonLd : option (list (jstr * jsval));  (* this.extractJsonLd(html): null or a Book object *)
  canonical_href : option jstr;           (* canonicalLink?.getAttribute('href') *)
  taaghche_dom_desc : jstr;               (* description after the selector loop, from '' *)
  fidibo_title : option jstr;             (* titleElement?.textContent *)
  fidibo_author : option jstr;            (* authorRow?.querySelector(...)?.textContent *)
  fidibo_pages : option jstr;             (* pagesRow?...textContent?.match(/\d+/)?.[0] *)
  fidibo_cover_src : option jstr;         (* doc.querySelector('img...')?.getAttribute("src") *)
  fidibo_publisher : option jstr;
  fidibo_translator : option jstr;
  fidibo_date : option jstr;
  fidibo_language : option jstr;
  fidibo_desc : jstr;                     (* description after the selector loop *)
  goodreads_publisher : jstr;             (* publisher, from __NEXT_DATA__ or '' *)
  goodreads_date : jstr;                  (* datepublished *)
  goodreads_isbn : jsval;                 (* isbn before the return *)
  goodreads_desc : jstr;                  (* description before the return *)
  amazon_html_title : jstr;               (* title after the selector loop, from '' *)
  amazon_author : jstr;
  amazon_translator : jstr;
  amazon_pages : jstr;
  amazon_cover : jstr;
  amazon_publisher : jstr;
  amazon_date : jstr;
  amazon_language : jstr;
  amazon_isbn : jstr
}.

(** [x?.textContent?.trim() || ''] *)
Definition text_or_empty (o : option jstr) : jsval :=
  or_ (match o with Some s => JStr (trim s) | None => JUndef end) (JStr []).

(** [o || ''] for an optional string *)
Definition opt_or_empty (o : option jstr) : jsval :=
  or_ (match o with Some s => JStr s | None => JUndef end) (JStr []).

Section FetchBookData.
(** [String(v)] *)
Variable to_String : jsval -> jstr.

(** [canonicalLink?.getAttribute('href')?.trim() || url] *)
Definition canonicalUrl (p : Page) (url : jstr) : jstr :=
  match canonical_href p with
  | Some s => if nonempty (trim s) then trim s else url
  | None => url
  end.

Definition taaghche_record (p : Page) (url : jstr) (kvs : list (jstr * jsval)) : M BookObj :=
  let jsonLd := JObj kvs in
  let workExample := or_ (obj_get kvs (js "workExample")) jsonLd in
  let authors := or_ (obj_get kvs (js "author")) (JArr []) in
  author <- concatenateAuthors authors ;;
  wt <- get workExample "translator" ;;
  translator <- (if truthy wt && is_arr wt then concatenateAuthors wt else ret []) ;;
  let d0 := or_ (obj_get kvs (js "description")) (JStr []) in
  let description := if truthy d0 then d0 else JStr (taaghche_dom_desc p) in
  nop <- get workExample "numberOfPages" ;;
  pub <- get workExample "publisher" ;;
  pubname <- (if nullish pub then ret JUndef else get pub "name") ;;
  dp <- get workExample "datePublished" ;;
  lang <- get workExample "inLanguage" ;;
  ret [("title", or_ (obj_get kvs (js "name")) (JStr []));
       ("author", JStr author);
       ("pages", if truthy nop then JStr (to_String nop) else JStr []);
       ("cover", or_ (obj_get kvs (js "image")) (JStr []));
       ("publisher", or_ pubname (JStr []));
       ("translator", or_ (JStr translator) (JStr []));
       ("datepublished", or_ dp (JStr []));
       ("language", or_ lang (JStr []));
       ("url", JStr (canonicalUrl p url));
       ("description", description)]%string.

Definition fidibo_record (p : Page) (url : jstr) : BookObj :=
  [("title", text_or_empty (fidibo_title p));
   ("author", text_or_empty (fidibo_author p));
   ("pages", opt_or_empty (fidibo_pages p));
   ("cover", opt_or_empty (option_map (split_first 63) (fidibo_cover_src p)));
   ("publisher", text_or_empty (fidibo_publisher p));
   ("translator", text_or_empty (fidibo_translator p));
   ("datepublished", text_or_empty (fidibo_date p));
   ("language", text_or_empty (fidibo_language p));
   ("url", JStr url);
   ("description", JStr (fidibo_desc p))]%string.

Definition goodreads_record (p : Page) (url : jstr) (kvs : list (jstr * jsval)) : M BookObj :=
  let authors := or_ (obj_get kvs (js "author")) (JArr []) in
  author <- concatenateAuthors authors ;;
  let nop := obj_get kvs (js "numberOfPages") in
  ret [("title", or_ (obj_get kvs (js "name")) (JStr []));
       ("author", JStr author);
       ("pages", if truthy nop then JStr (to_String nop) else JStr []);
       ("cover", or_ (obj_get kvs (js "image")) (JStr []));
       ("publisher", JStr (goodreads_publisher p));
       ("translator", JStr []);
       ("datepublished", JStr (goodreads_date p));
       ("isbn", or_ (goodreads_isbn p) (or_ (obj_get kvs (js "isbn")) (JStr [])));
       ("language", or_ (obj_get kvs (js "inLanguage")) (JStr []));
       ("url", JStr (canonicalUrl p url));
       ("description", JStr (goodreads_desc p))]%string.

Definition amazon_record (p : Page) (url : jstr) : M BookObj :=
  let jsonLdTitle := match jsonLd p with
                     | Some kvs => or_ (obj_get kvs (js "name")) (JStr [])
                     | None => JStr []
                     end in
  let title0 := JStr (amazon_html_title p) in
  let title1 := if negb (truthy title0) && truthy jsonLdTitle then jsonLdTitle else title0 in
  title <- (if truthy title1 then (s <- as_string title1 ;; ret (JStr (cleanAmazonTitle s)))
            else ret title1) ;;
  ret [("title", or_ title (JStr []));
       ("author", JStr (amazon_author p));
       ("pages", JStr (amazon_pages p));
       ("cover", JStr (amazon_cover p));
       ("publisher", JStr (amazon_publisher p));
       ("translator", JStr (amazon_translator p));
       ("datepublished", JStr (amazon_date p));
       ("language", JStr (amazon_language p));
       ("isbn", JStr (amazon_isbn p));
       ("url", JStr (canonicalUrl p url));
       ("description", JStr [])]%string.

(** [fetchBookData(url, source)] after the page has been read: an exception
    is caught and gives [null]. *)
Definition fetchBookData (url : jstr) (source : string) (p : Page) : option BookObj :=
  let body : M (option BookObj) :=
    if String.eqb source "taaghche" then
      match jsonLd p with
      | Some kvs => r <- taaghche_record p url kvs ;; ret (Some r)
      | None => ret None
      end
    else if String.eqb source "fidibo" then ret (Some (fidibo_record p url))
    else if String.eqb source "goodreads" then
      match jsonLd p with
      | Some kvs => r <- goodreads_record p url kvs ;; ret (Some r)
      | None => ret None
      end
    else if String.eqb source "amazon" then (r <- amazon_record p url ;; ret (Some r))
    else ret None in
  match fst (body []) with inr o => o | inl _ => None end.

End FetchBookData.

(** The fields every record has besides [isbn]. *)
Definition book_fields : list string :=
  ["title"; "author"; "pages"; "cover"; "publisher"; "translator"; "datepublished";
   "language"; "url"; "description"]%string.

(** The properties of a Goodreads record and of an Amazon record, in order. *)
Definition all_fields : list string :=
  ["title"; "author"; "pages"; "cover"; "publisher"; "translator";
   "datepublished"; "isbn"; "language"; "url"; "description"]%string.

Definition amazon_fields : list string :=
  ["title"; "author"; "pages"; "cover"; "publisher"; "translator";
   "datepublished"; "language"; "isbn"; "url"; "description"]%string.

(** The fields that hold a string in every record. *)
Definition str_fields : list string := ["author"; "pages"; "translator"; "url"]%string.

(** A record with the properties [keys] in order, none of them [null] or
    [undefined], those named in [strs] strings. *)
Definition rec_ok (keys strs : list string) (o : BookObj) : Prop :=
  map fst o = keys
  /\ Forall (fun kv => nullish (snd kv) = false) o
  /\ Forall (fun kv => In (fst kv) strs -> is_str (snd kv) = true) o.

(** A page on which no selector matches, with the given JSON-LD object. *)
Definition blank_page (j : option (list (jstr * jsval))) : Page :=
  {| jsonLd := j; canonical_href := None; taaghche_dom_desc := [];
     fidibo_title := None; fidibo_author := None; fidibo_pages := None;
     fidibo_cover_src := None; fidibo_publisher := None; fidibo_translator := None;
     fidibo_date := None; fidibo_language := None; fidibo_desc := [];
     goodreads_publisher := []; goodreads_date := []; goodreads_isbn := JStr [];
     goodreads_desc := []; amazon_html_title := []; amazon_author := [];
     amazon_translator := []; amazon_pages := []; amazon_cover := [];
     amazon_publisher := []; amazon_date := []; amazon_language := []; amazon_isbn := [] |}.

(** A JSON-LD Book object whose [name] is a number. *)
Definition numeric_name_ld : list (jstr * jsval) :=
  [(js "@type", JStr (js "Book")); (js "name", JNum 1984 1);
   (js "author", JArr [JObj [(js "name", JStr (js "George Orwell"))]])].

(* ------------------------------------------------------------------ *)
(** ** The searches over the Goodreads [__NEXT_DATA__] object graph *)

(** Values of an object graph: primitives and references to heap cells
    (object identity is the cell's address). *)
Inductive hprim : Type := PUndef | PNull | PBool (b : bool) | PNum (n : Z) | PStr (s : jstr).

Inductive hval : Type := Prim (p : hprim) | Ref (l : nat).

Inductive hnode : Type :=
| NObj (props : list (jstr * hval))   (* a plain object, own properties in order *)
| NArr (elems : list hval)            (* an array *)
| NDate                               (* a Date *)
| NRegExp                             (* a RegExp *)
| NFun.                               (* a function *)

Section ObjectGraph.
Variable heap : list hnode.

(** [typeof v === 'object'] for a truthy [v] *)
Definition is_object_ref (l : nat) : bool :=
  match nth_error heap l with Some NFun => false | _ => true end.

(** [obj.k] *)
Definition hget (n : hnode) (k : string) : hval :=
  match n with
  | NObj props =>
      match find (fun kv => jstr_eqb (fst kv) (js k)) props with
      | Some (_, v) => v
      | None => Prim PUndef
      end
  | _ => Prim PUndef
  end.

Definition is_undef (v : hval) : bool := match v with Prim PUndef => true | _ => false end.

(** [Array.isArray(obj) ? obj : Object.values(obj)] *)
Definition hvalues (n : hnode) : list hval :=
  match n with NObj props => map snd props | NArr elems => elems | _ => [] end.

(** [obj.__typename === 'BookDetails' || (obj.publisher !== undefined &&
    obj.publicationTime !== undefined && (obj.format !== undefined ||
    obj.numPages !== undefined || obj.asin !== undefined))] *)
Definition isBookDetails (n : hnode) : bool :=
  match hget n "__typename" with Prim (PStr s) => jstr_eqb s (js "BookDetails") | _ => false end
  || (negb (is_undef (hget n "publisher")) && negb (is_undef (hget n "publicationTime"))
      && (negb (is_undef (hget n "format")) || negb (is_undef (hget n "numPages"))
          || negb (is_undef (hget n "asin")))).

(** The guard [!obj || typeof obj !== 'object' || visited.has(obj) ||
    obj instanceof Date || obj instanceof RegExp || typeof obj === 'function']:
    the cell to search, if any. *)
Definition enter (v : hval) (visited : list nat) : option (nat * hnode) :=
  match v with
  | Prim _ => None
  | Ref l =>
      if existsb (Nat.eqb l) visited then None
      else match nth_error heap l with
           | Some (NObj _ as n) | Some (NArr _ as n) => Some (l, n)
           | _ => None
           end
  end.

(** [findBookDetails(obj, visited)] with the shared [visited] set threaded
    through; the result is the found object ([Some l]) or [null] ([None]);
    [fuel] bounds the depth of the recursion, and running out of it is the
    outer [None]. *)
Fixpoint findBookDetails (fuel : nat) (obj : hval) (visited : list nat)
  : option (option nat * list nat) :=
  match fuel with
  | O => None
  | S f =>
      match enter obj visited with
      | None => Some (None, visited)
      | Some (l, n) =>
          let visited1 := l :: visited in
          if isBookDetails n then Some (Some l, visited1) else
          let details :=
            match hget n "details" with
            | Ref d => if is_object_ref d then findBookDetails f (Ref d) visited1
                       else Some (None, visited1)
            | _ => Some (None, visited1)
            end in
          match details with
          | None => None
          | Some (Some r, visited2) => Some (Some r, visited2)
          | Some (None, visited2) =>
              (fix loop (items : list hval) (vis : list nat) :=
                 match items with
                 | [] => Some (None, vis)
                 | item :: rest =>
                     match findBookDetails f item vis with
                     | None => None
                     | Some (Some r, vis') => Some (Some r, vis')
                     | Some (None, vis') => loop rest vis'
                     end
                 end) (hvalues n) visited2
          end
      end
  end.

(** [findDescription(obj, visited)]: the first string [description] longer
    than 50 code units. *)
Fixpoint findDescription (fuel : nat) (obj : hval) (visited : list nat)
  : option (option jstr * list nat) :=
  match fuel with
  | O => None
  | S f =>
      match enter obj visited with
      | None => Some (None, visited)
      | Some (l, n) =>
          let visited1 := l :: visited in
          let hit := match hget n "description" with
                     | Prim (PStr s) => if Nat.ltb 50 (List.length s) then Some s else None
                     | _ => None
                     end in
          match hit with
          | Some s => Some (Some s, visited1)
          | None =>
              (fix loop (items : list hval) (vis : list nat) :=
                 match items with
                 | [] => Some (None, vis)
                 | item :: rest =>
                     match findDescription f item vis with
                     | None => None
                     | Some (Some r, vis') => Some (Some r, vis')
                     | Some (None, vis') => loop rest vis'
                     end
                 end) (hvalues n) visited1
          end
      end
  end.

(** Number of cells not yet visited. *)
Fixpoint unvisited (visited : list nat) (n : nat) : nat :=
  match n with
  | O => O
  | S m => unvisited visited m + (if existsb (Nat.eqb m) visited then 0 else 1)
  end.

End ObjectGraph.

Definition grows (vis vis' : list nat) : Prop := forall x, In x vis -> In x vis'.

(* ------------------------------------------------------------------ *)
(** ** Relational semantics of the matcher

    [mr r s s'] : [r] matches a prefix of [s], leaving [s']. *)

Definition hi_ok (hi : option nat) (n : nat) : Prop :=
  match hi with Some h => (n <= h)%nat | None => True end.

Inductive mr : re -> jstr -> jstr -> Prop :=
| mr_eps s : mr REps s s
| mr_cls (p : Z -> bool) c s : p c = true -> mr (RCls p) (c :: s) s
| mr_seq r1 r2 s s1 s2 : mr r1 s s1 -> mr r2 s1 s2 -> mr (RSeq r1 r2) s s2
| mr_altl r1 r2 s s' : mr r1 s s' -> mr (RAlt r1 r2) s s'
| mr_altr r1 r2 s s' : mr r2 s s' -> mr (RAlt r1 r2) s s'
| mr_rep lo hi (p : Z -> bool) w s :
    (lo <= List.length w)%nat -> hi_ok hi (List.length w) -> forallb p w = true ->
    mr (RRep lo hi p) (w ++ s) s
| mr_cap r s s' : mr r s s' -> mr (RCap r) s s'
| mr_end : mr REnd [] [].

(** Every code unit a class of [r] accepts satisfies [q]. *)
Fixpoint cls_all (q : Z -> Prop) (r : re) : Prop :=
  match r with
  | REps | REnd => True
  | RCls p | RRep _ _ p => forall c, p c = true -> q c
  | RSeq a b | RAlt a b => cls_all q a /\ cls_all q b
  | RCap a => cls_all q a
  end.

(* ================================================================== *)
(** * Theorems *)

(** ** Regular expression lemmas *)

Lemma try_down_some {A} (i c : nat) (f : nat -> option A) :
  (forall j, f j <> None) -> try_down i c f <> None.
Proof. destruct c; simpl; intros Hf; [apply Hf|]. destruct (f i) eqn:E; [discriminate|]. now elim (Hf i). Qed.

Lemma exec_from_app (r : re) (pre x : jstr) (i : nat) :
  mt r x None (fun rest cap => Some (rest, cap)) <> None ->
  exec_from r (pre ++ x) i <> None.
Proof.
  revert i; induction pre as [|a pre IH]; intros i H; simpl.
  - destruct x; simpl in *; destruct (mt r _ None _) as [[? ?]|]; try discriminate; congruence.
  - destruct (mt r (a :: pre ++ x) None _) as [[? ?]|]; [discriminate|]. apply IH, H.
Qed.

Lemma re_test_app (r : re) (pre x : jstr) :
  mt r x None (fun rest cap => Some (rest, cap)) <> None -> re_test r (pre ++ x) = true.
Proof.
  intros H. unfold re_test, exec. destruct (exec_from r (pre ++ x) 0) eqn:E; [reflexivity|].
  exfalso. exact (exec_from_app r pre x 0 H E).
Qed.

(** ** C2: site detection *)

Definition goodreads_pattern : re := icase (lit "goodreads.com/book/show/").

(** C2 (counterexample): a Goodreads book URL that also matches the
    Taaghche pattern is classified as taaghche, not goodreads. *)
Lemma detectSource_overlap_counterexample :
  re_test goodreads_pattern (js "https://www.goodreads.com/book/show/1?r=taaghche.com/book/") = true /\
  detectSource (js "https://www.goodreads.com/book/show/1?r=taaghche.com/book/") = Some (js "taaghche").
Proof. split; vm_compute; reflexivity. Qed.

Lemma find_first {A} (f : A -> bool) (pre post : list A) (x : A) :
  (forall y, In y pre -> f y = false) -> f x = true -> find f (pre ++ x :: post) = Some x.
Proof.
  induction pre as [|y pre IH]; intros Hpre Hx; simpl; [rewrite Hx; reflexivity|].
  rewrite (Hpre y (or_introl eq_refl)). apply IH; [intros z Hz; apply Hpre; now right|exact Hx].
Qed.

Lemma find_split {A} (f : A -> bool) (l : list A) (x : A) :
  find f l = Some x ->
  exists pre post, l = pre ++ x :: post /\ f x = true /\ forall y, In y pre -> f y = false.
Proof.
  induction l as [|y l IH]; simpl; [discriminate|]. destruct (f y) eqn:Ey.
  - intros H. injection H as <-. exists [], l. split; [reflexivity|]. split; [exact Ey|easy].
  - intros H. destruct (IH H) as [pre [post [-> [Hx Hpre]]]].
    exists (y :: pre), post. split; [reflexivity|]. split; [exact Hx|].
    intros z [<-|Hz]; [exact Ey|exact (Hpre z Hz)].
Qed.

Lemma amazon_none_existsb (u : jstr) :
  (forall r, In r amazonPatterns -> re_test r u = false) ->
  existsb (fun p => re_test p u) amazonPatterns = false.
Proof.
  intros H. apply not_true_iff_false. intros Hex.
  apply existsb_exists in Hex as [r' [Hr' Ht']]. rewrite (H r' Hr') in Ht'. discriminate.
Qed.

(** C2 (amended): a URL matched by one of Amazon's patterns gives amazon;
    otherwise the result is the first site of the table (taaghche, fidibo,
    goodreads, in this order) whose pattern matches the URL, whichever sites
    come after it; a URL matched by no pattern gives null; a site other than
    amazon is returned only in that way; and the four example URLs are
    classified as stated. *)
Theorem detectSource_spec :
  (forall u, (exists r, In r amazonPatterns /\ re_test r u = true) ->
             detectSource u = Some (js "amazon")) /\
  (forall u pre site r post,
      (forall r', In r' amazonPatterns -> re_test r' u = false) ->
      site_patterns = pre ++ (site, r) :: post -> re_test r u = true ->
      (forall site' r', In (site', r') pre -> re_test r' u = false) ->
      detectSource u = Some site) /\
  (forall u, (forall r, In r amazonPatterns -> re_test r u = false) ->
             (forall site r, In (site, r) site_patterns -> re_test r u = false) ->
             detectSource u = None) /\
  (forall u site, site <> js "amazon" -> detectSource u = Some site ->
     (forall r', In r' amazonPatterns -> re_test r' u = false) /\
     exists pre r post, site_patterns = pre ++ (site, r) :: post /\ re_test r u = true /\
       forall site' r', In (site', r') pre -> re_test r' u = false) /\
  detectSource (js "https://www.amazon.com/dp/0134685997") = Some (js "amazon") /\
  detectSource (js "https://a.co/d/abc123") = Some (js "amazon") /\
  detectSource (js "https://www.goodreads.com/book/show/12345.Title") = Some (js "goodreads") /\
  detectSource (js "https://example.com/foo") = None.
Proof.
  refine (conj _ (conj _ (conj _ (conj _ _)))).
  - intros u [r [Hin Ht]]. unfold detectSource.
    replace (existsb _ amazonPatterns) with true; [reflexivity|].
    symmetry. apply existsb_exists. now exists r.
  - intros u pre site r post Hnoam Hsp Ht Hpre. unfold detectSource.
    rewrite (amazon_none_existsb u Hnoam), Hsp.
    rewrite (find_first (fun kp => re_test (snd kp) u) pre post (site, r)); [reflexivity| |exact Ht].
    intros [s' r'] Hy. exact (Hpre s' r' Hy).
  - intros u Ham Hs. unfold detectSource. rewrite (amazon_none_existsb u Ham).
    destruct (find _ site_patterns) as [[k r']|] eqn:E; [|reflexivity].
    apply find_some in E as [Hin' Ht']. simpl in Ht'. rewrite (Hs k r' Hin') in Ht'. discriminate.
  - intros u site Hne Hu. unfold detectSource in Hu.
    destruct (existsb _ amazonPatterns) eqn:Ea; [injection Hu as Hu; congruence|].
    split.
    { intros r'' Hr''. apply not_true_iff_false. intros Ht''.
      assert (existsb (fun p => re_test p u) amazonPatterns = true) as Hc
        by (apply existsb_exists; now exists r''). congruence. }
    destruct (find _ site_patterns) as [[k r']|] eqn:E; [|discriminate].
    injection Hu as <-. apply find_split in E as [pre [post [Hsp [Ht Hpre]]]].
    exists pre, r', post. split; [exact Hsp|]. split; [exact Ht|].
    intros s' r'' Hy. exact (Hpre (s', r'') Hy).
  - repeat split; vm_compute; reflexivity.
Qed.

(** ** C10: Amazon short-link patterns are not anchored to a host *)

(** C10: any string containing [amzn.to/], or [a.co/] followed by a letter or
    digit, is classified as amazon, whatever its host (e.g. [ersa.co]). *)
Theorem detectSource_amazon_substrings :
  (forall pre post, detectSource (pre ++ js "amzn.to/" ++ post) = Some (js "amazon")) /\
  (forall pre c post, c_alnum c = true ->
     detectSource (pre ++ js "a.co/" ++ c :: post) = Some (js "amazon")) /\
  detectSource (js "https://ersa.co/x") = Some (js "amazon").
Proof.
  split; [|split].
  - intros pre post. unfold detectSource.
    replace (existsb _ amazonPatterns) with true; [reflexivity|]. symmetry.
    apply existsb_exists. exists (icase (lit "amzn.to/")). split; [simpl; tauto|].
    apply re_test_app. simpl. discriminate.
  - intros pre c post Hc. unfold detectSource.
    replace (existsb _ amazonPatterns) with true; [reflexivity|]. symmetry.
    apply existsb_exists. exists (icase (seqs [lit "a.co/"; plus c_alnum])). split; [simpl; tauto|].
    apply re_test_app. simpl. rewrite Hc. simpl.
    apply try_down_some. intros j. discriminate.
  - vm_compute. reflexivity.
Qed.


(** ** C6: the selector fallback chain *)

Lemma nonempty_collapse (s : jstr) : nonempty (collapse_ws s) = nonempty s.
Proof.
  unfold collapse_ws. destruct s as [|c s]; [reflexivity|]. simpl.
  destruct (is_ws c); reflexivity.
Qed.

Lemma nonempty_false (s : jstr) : nonempty s = false <-> s = [].
Proof. destruct s; simpl; split; congruence. Qed.

(** C6: the selector fallback loop (with either normalisation used by the
    plugin, trim for Goodreads' descriptions, trim then white-space collapse
    for Amazon's titles) returns the normalised text of the first selector
    whose element exists and whose text is non-empty after trimming; when
    there is none it returns the empty string. *)
Theorem select_chain_first_nonempty (norm : jstr -> jstr) :
  norm = norm_trim \/ norm = norm_trim_collapse ->
  forall (d : Dom) (sels : list jstr),
    ((forall sel el, In sel sels -> qs d sel = Some el -> trim (text d el) = []) ->
      select_chain norm d sels [] = []) /\
    (forall pre sel post el, sels = pre ++ sel :: post ->
      (forall s' el', In s' pre -> qs d s' = Some el' -> trim (text d el') = []) ->
      qs d sel = Some el -> trim (text d el) <> [] ->
      select_chain norm d sels [] = norm (text d el)).
Proof.
  intros Hn d sels.
  assert (Hne : forall x, nonempty (norm x) = nonempty (trim x)).
  { intros x. destruct Hn as [->| ->]; [reflexivity|]. apply nonempty_collapse. }
  assert (Hnil : forall x, trim x = [] -> norm x = []).
  { intros x Hx. apply nonempty_false. rewrite Hne, Hx. reflexivity. }
  split.
  - induction sels as [|sel rest IH]; intros Hall; [reflexivity|]. simpl.
    destruct (qs d sel) as [el|] eqn:E.
    + rewrite (Hnil _ (Hall sel el (or_introl eq_refl) E)). simpl.
      apply IH. intros s' el' Hin Hq. exact (Hall s' el' (or_intror Hin) Hq).
    + apply IH. intros s' el' Hin Hq. exact (Hall s' el' (or_intror Hin) Hq).
  - intros pre. revert sels. induction pre as [|p pre IH]; intros sels sel post el Hs Hpre Hq Ht; subst sels; simpl.
    + rewrite Hq, Hne. destruct (trim (text d el)) eqn:E; [congruence|reflexivity].
    + destruct (qs d p) as [el'|] eqn:E.
      * rewrite (Hnil _ (Hpre p el' (or_introl eq_refl) E)). simpl.
        apply (IH _ sel post el eq_refl); [|exact Hq|exact Ht].
        intros s' el'' Hin Hq'. exact (Hpre s' el'' (or_intror Hin) Hq').
      * apply (IH _ sel post el eq_refl); [|exact Hq|exact Ht].
        intros s' el'' Hin Hq'. exact (Hpre s' el'' (or_intror Hin) Hq').
Qed.

Lemma select_chain_first_nonempty_witness :
  (norm_trim_collapse = norm_trim \/ norm_trim_collapse = norm_trim_collapse) /\
  select_chain norm_trim_collapse sample_amazon_dom amazon_titleSelectors [] =
    js "Some Book (Gift Books)".
Proof.
  split; [right; reflexivity|].
  destruct (select_chain_first_nonempty norm_trim_collapse (or_intror eq_refl)
              sample_amazon_dom amazon_titleSelectors) as [_ H].
  rewrite (H [js "#productTitle"] (js "span#productTitle")
             [js "h1#title"; js ".product-title"; js ".a-size-medium"; js "h1.a-size-large"] 2%nat).
  - vm_compute. reflexivity.
  - reflexivity.
  - intros s' el' [<-|[]] Hq. vm_compute in Hq. injection Hq as <-. vm_compute. reflexivity.
  - vm_compute. reflexivity.
  - vm_compute. discriminate.
Defined.

(** ** C7: template substitution *)

Lemma expand_no_dollar (r m b a : jstr) : ~ In 36 r -> expand r m b a = r.
Proof.
  induction r as [|c r IH]; intros H; [reflexivity|]. simpl.
  destruct (Z.eqb_spec c 36) as [->|Hc]; [exfalso; apply H; now left|].
  f_equal. apply IH. intros Hin. apply H. now right.
Qed.

Lemma replace_all_go_skip (pat repl w : jstr) (x y : jstr) (pos : nat) :
  replace_all_go pat repl w pos (x ++ y) (List.length x) =
  replace_all_go pat repl w (pos + List.length x) y O.
Proof.
  revert pos; induction x as [|c x IH]; intros pos; simpl.
  - now rewrite Nat.add_0_r.
  - rewrite IH. f_equal. lia.
Qed.

Lemma replace_all_go_pass (pt repl w : jstr) (x y : jstr) (pos : nat) :
  ~ In 123 x ->
  replace_all_go (123 :: pt) repl w pos (x ++ y) O =
  x ++ replace_all_go (123 :: pt) repl w (pos + List.length x) y O.
Proof.
  revert pos; induction x as [|c x IH]; intros pos H; cbn [app replace_all_go is_prefix].
  - now rewrite Nat.add_0_r.
  - destruct (Z.eqb_spec 123 c) as [<-|Hc]; [exfalso; apply H; now left|].
    cbn [andb Datatypes.length].
    rewrite IH by (intros Hin; apply H; now right).
    now replace (S pos + List.length x)%nat with (pos + S (List.length x))%nat by lia.
Qed.

Lemma is_prefix_refl (p y : jstr) : is_prefix p (p ++ y) = true.
Proof. induction p; simpl; [reflexivity|]. now rewrite Z.eqb_refl. Qed.

Lemma replace_all_go_hit (c : Z) (pt repl w y : jstr) (pos : nat) :
  ~ In 36 repl ->
  replace_all_go (c :: pt) repl w pos ((c :: pt) ++ y) O =
  repl ++ replace_all_go (c :: pt) repl w (pos + S (List.length pt)) y O.
Proof.
  intros H. simpl. rewrite Z.eqb_refl, is_prefix_refl. simpl.
  rewrite expand_no_dollar by exact H. f_equal.
  rewrite replace_all_go_skip. f_equal. lia.
Qed.

Lemma replace_all_go_single (p : Z) (repl w s : jstr) (pos : nat) :
  ~ In 36 repl ->
  replace_all_go [p] repl w pos s O = flat_map (fun c => if c =? p then repl else [c]) s.
Proof.
  intros H. revert pos; induction s as [|c s IH]; intros pos; [reflexivity|]. simpl.
  rewrite andb_true_r, Z.eqb_sym. destruct (c =? p); simpl.
  - rewrite expand_no_dollar by exact H. f_equal. apply IH.
  - f_equal. apply IH.
Qed.

(** Per-code-unit effect of [escapeYamlString]. *)
Definition esc_char (c : Z) : jstr :=
  if c =? 92 then [92; 92] else if c =? 34 then [92; 34]
  else if c =? 10 then [32] else if c =? 13 then [32] else [c].

Lemma flat_map_flat_map {A B C} (f : B -> list C) (g : A -> list B) (l : list A) :
  flat_map f (flat_map g l) = flat_map (fun x => flat_map f (g x)) l.
Proof. induction l; simpl; [reflexivity|]. now rewrite flat_map_app, IHl. Qed.

Lemma escapeYamlString_chars (v : jstr) : escapeYamlString v = flat_map esc_char v.
Proof.
  unfold escapeYamlString, replace_all.
  destruct v as [|c0 v0] eqn:Ev; [reflexivity|]. simpl negb. cbv iota.
  rewrite <- Ev.
  repeat rewrite replace_all_go_single by (simpl; lia).
  rewrite !flat_map_flat_map. apply flat_map_ext. intros c. unfold esc_char.
  destruct (Z.eqb_spec c 92); [subst; reflexivity|]. cbn [flat_map app].
  destruct (Z.eqb_spec c 34); [subst; reflexivity|]. cbn [flat_map app].
  destruct (Z.eqb_spec c 10); [subst; reflexivity|]. cbn [flat_map app].
  destruct (Z.eqb_spec c 13); [subst; reflexivity|]. reflexivity.
Qed.

Lemma escapeYamlString_no (x : Z) (v : jstr) :
  x <> 92 -> x <> 34 -> x <> 32 -> ~ In x v -> ~ In x (escapeYamlString v).
Proof.
  intros H1 H2 H3 H. rewrite escapeYamlString_chars. intros Hin.
  apply in_flat_map in Hin as [c [Hc Hx]]. unfold esc_char in Hx.
  destruct (c =? 92); [simpl in Hx; lia|]. destruct (c =? 34); [simpl in Hx; lia|].
  destruct (c =? 10); [simpl in Hx; lia|]. destruct (c =? 13); [simpl in Hx; lia|].
  simpl in Hx. destruct Hx as [->|[]]. contradiction.
Qed.

Definition token_eqb (a b : token) : bool :=
  match a, b with
  | TTitle, TTitle | TAuthor, TAuthor | TTranslator, TTranslator | TPages, TPages
  | TCover, TCover | TPublisher, TPublisher | TDatepublished, TDatepublished
  | TISBN, TISBN | TUrl, TUrl | TLanguage, TLanguage | TDescription, TDescription
  | TSummary, TSummary => true
  | _, _ => false
  end.

Definition subst_tok (t : token) (v : jstr) (segs : list seg) : list seg :=
  map (fun sg => match sg with Tok t' => if token_eqb t t' then Lit v else sg | Lit _ => sg end) segs.

Definition lits_ok (segs : list seg) : Prop := forall s, In (Lit s) segs -> ~ In 123 s.

Lemma brace_other (t t' : token) (y : jstr) :
  token_eqb t t' = false ->
  is_prefix (brace (token_name t)) (brace (token_name t') ++ y) = false /\
  is_prefix (brace (token_name t)) (tl (brace (token_name t')) ++ y) = false.
Proof. destruct t, t'; simpl; try discriminate; intros _; split; reflexivity. Qed.

Lemma brace_shape (t : token) : exists pt, brace (token_name t) = 123 :: pt.
Proof. destruct t; eexists; reflexivity. Qed.

Lemma brace_inner (t : token) : exists n, brace (token_name t) = 123 :: 123 :: n /\ ~ In 123 n.
Proof. destruct t; eexists; split; [reflexivity| |reflexivity| |reflexivity| |reflexivity| |
  reflexivity| |reflexivity| |reflexivity| |reflexivity| |reflexivity| |reflexivity| |reflexivity| |
  reflexivity|]; simpl; lia. Qed.

Lemma replace_all_go_render (t : token) (v w : jstr) (segs : list seg) (pos : nat) :
  ~ In 36 v -> lits_ok segs ->
  replace_all_go (brace (token_name t)) v w pos (render segs) O = render (subst_tok t v segs).
Proof.
  intros Hv. destruct (brace_shape t) as [pt EP]. rewrite EP.
  revert pos; induction segs as [|sg segs IH]; intros pos Hok; [reflexivity|].
  assert (Hok' : lits_ok segs) by (intros s Hs; apply Hok; now right).
  destruct sg as [s|t'].
  - cbn [render subst_tok map]. rewrite replace_all_go_pass by (apply Hok; now left).
    f_equal. apply IH, Hok'.
  - cbn [render subst_tok map]. destruct (token_eqb t t') eqn:Et.
    + assert (t = t') as <- by (destruct t, t'; simpl in Et; congruence).
      cbn [render]. rewrite EP, replace_all_go_hit by exact Hv. f_equal. apply IH, Hok'.
    + destruct (brace_other t t' (render segs) Et) as [B1 B2]. rewrite EP in B1, B2.
      destruct (brace_inner t') as [n [Eb Hn]]. rewrite Eb in B1, B2 |- *. cbn [app tl] in B1, B2.
      cbn [render app replace_all_go]. rewrite B1.
      cbn [replace_all_go]. rewrite B2.
      rewrite replace_all_go_pass by exact Hn. do 3 f_equal. apply IH, Hok'.
Qed.


Definition field_raw (b : BookData) (t : token) : jstr :=
  match t with
  | TTitle => title b | TAuthor => author b | TPages => pages b | TCover => cover b
  | TPublisher => or_empty (publisher b) | TTranslator => or_empty (translator b)
  | TDatepublished => or_empty (datepublished b) | TISBN => or_empty (isbn b)
  | TUrl => or_empty (url b) | TLanguage => or_empty (language b)
  | TDescription => or_empty (description b) | TSummary => or_empty (summary b)
  end.

(** What each placeholder becomes: the field escaped, except [pages]. *)
Definition field_value (b : BookData) (t : token) : jstr :=
  match t with
  | TPages => pages b
  | _ => escapeYamlString (field_raw b t)
  end.

Definition fill (b : BookData) (sg : seg) : seg :=
  match sg with Lit s => Lit s | Tok t => Lit (field_value b t) end.

Lemma replace_all_render (t : token) (v : jstr) (segs : list seg) :
  ~ In 36 v -> lits_ok segs ->
  replace_all (brace (token_name t)) v (render segs) = render (subst_tok t v segs).
Proof. intros. unfold replace_all. now apply replace_all_go_render. Qed.

Lemma lits_ok_subst (t : token) (v : jstr) (segs : list seg) :
  ~ In 123 v -> lits_ok segs -> lits_ok (subst_tok t v segs).
Proof.
  intros Hv Hok s Hs. unfold subst_tok in Hs. apply in_map_iff in Hs as [sg [Esg Hin]].
  destruct sg as [s'|t']; [injection Esg as <-; now apply Hok|].
  destruct (token_eqb t t'); [now injection Esg as <-|discriminate].
Qed.

Lemma render_lits (segs : list seg) :
  lits_ok segs -> (forall sg, In sg segs -> exists s, sg = Lit s) -> ~ In 123 (render segs).
Proof.
  induction segs as [|sg segs IH]; intros Hok Hl; [easy|].
  destruct (Hl sg (or_introl eq_refl)) as [s ->]. simpl. intros Hin.
  apply in_app_or in Hin as [Hin|Hin].
  - exact (Hok s (or_introl eq_refl) Hin).
  - revert Hin. apply IH; [intros s' Hs'; apply Hok; now right|intros sg' Hsg'; apply Hl; now right].
Qed.

Lemma field_value_ok (b : BookData) (t : token) (x : Z) :
  x <> 92 -> x <> 34 -> x <> 32 -> ~ In x (field_raw b t) -> ~ In x (field_value b t).
Proof. intros. destruct t; simpl; try apply escapeYamlString_no; assumption. Qed.

Definition all_tokens : list token :=
  [TTitle; TAuthor; TPages; TCover; TPublisher; TTranslator; TDatepublished; TISBN; TUrl;
   TLanguage; TDescription; TSummary].

Lemma noteContent_fold (tpl : jstr) (b : BookData) :
  noteContent tpl b =
  fold_left (fun acc tk => replace_all (brace (token_name tk)) (field_value b tk) acc) all_tokens tpl.
Proof. reflexivity. Qed.

Lemma fold_replace_render (b : BookData) (toks : list token) (segs : list seg) :
  (forall t, ~ In 36 (field_value b t)) -> (forall t, ~ In 123 (field_value b t)) -> lits_ok segs ->
  fold_left (fun acc tk => replace_all (brace (token_name tk)) (field_value b tk) acc) toks (render segs) =
  render (fold_left (fun sg tk => subst_tok tk (field_value b tk) sg) toks segs).
Proof.
  intros H36 H123. revert segs; induction toks as [|tk toks IH]; intros segs Hok; [reflexivity|].
  simpl. rewrite replace_all_render by auto. apply IH. now apply lits_ok_subst.
Qed.

Definition subst_one (t : token) (v : jstr) (sg : seg) : seg :=
  match sg with Tok t' => if token_eqb t t' then Lit v else sg | Lit _ => sg end.

Lemma fold_subst_map (val : token -> jstr) (toks : list token) (segs : list seg) :
  fold_left (fun sg tk => subst_tok tk (val tk) sg) toks segs =
  map (fun sg => fold_left (fun s tk => subst_one tk (val tk) s) toks sg) segs.
Proof.
  revert segs; induction toks as [|tk toks IH]; intros segs; simpl.
  - symmetry; apply map_id.
  - rewrite IH. unfold subst_tok. rewrite map_map. reflexivity.
Qed.

Lemma fold_subst_all (val : token -> jstr) (sg : seg) :
  fold_left (fun s tk => subst_one tk (val tk) s) all_tokens sg =
  match sg with Lit s => Lit s | Tok t => Lit (val t) end.
Proof. destruct sg as [s|t]; [reflexivity|destruct t; reflexivity]. Qed.

(** [hay] contains [needle] at some index. *)
Fixpoint contains (needle hay : jstr) : bool :=
  is_prefix needle hay || match hay with [] => false | _ :: h => contains needle h end.

(** C7 (counterexample): with the built-in template, a title containing
    [$&] is not inserted as its escaped text: [String.prototype.replace]
    expands [$&] in the replacement string to the matched [{{title}}], so the
    note keeps the placeholder [{{title}}] and never contains the title's
    text [$&]. *)
Lemma noteContent_counterexample :
  let b := {| title := js "Save $& Spend"; author := js "A"; pages := js "1"; cover := js "c";
              publisher := None; translator := None; datepublished := None;
              language := None; isbn := None; url := None;
              description := None; summary := None |} in
  escapeYamlString (title b) = js "Save $& Spend" /\
  contains (brace "title") (noteContent default_template b) = true /\
  contains (js "Save $& Spend") (noteContent default_template b) = false /\
  contains (js "title: " ++ dq ++ js "Save {{title}} Spend" ++ dq) (noteContent default_template b) = true.
Proof. intros b. repeat split; vm_compute; reflexivity. Qed.

(** ** C9: date formatting *)

(** [f lo && f (lo + 1) && ... && f (lo + cnt - 1)] *)
Fixpoint check_from (f : Z -> bool) (lo : Z) (cnt : nat) : bool :=
  match cnt with O => true | S c => f lo && check_from f (lo + 1) c end.

Lemma check_from_ok (f : Z -> bool) (cnt : nat) :
  forall lo, check_from f lo cnt = true -> forall k, lo <= k < lo + Z.of_nat cnt -> f k = true.
Proof.
  induction cnt as [|c IH]; intros lo H k Hk; [lia|].
  simpl in H. apply andb_true_iff in H as [H1 H2].
  destruct (Z.eq_dec k lo) as [->|Hne]; [exact H1|].
  apply (IH (lo + 1) H2). lia.
Qed.

Lemma check_range_ok (f : Z -> bool) (lo n : Z) :
  check_from f lo (Z.to_nat n) = true -> forall k, lo <= k < lo + n -> f k = true.
Proof.
  intros H k Hk. apply (check_from_ok f _ lo H). rewrite Z2Nat.id by lia. lia.
Qed.

(** Day of the year (counted from March 1) of the day of the 400-year era. *)
Definition doy_of_doe (doe : Z) : Z :=
  let yoe := (doe - doe / 1460 + doe / 36524 - doe / 146096) / 365 in
  doe - (365 * yoe + yoe / 4 - yoe / 100).

(** Month and day as functions of that day of the year. *)
Definition month_of_doy (doy : Z) : Z :=
  let mp := (5 * doy + 2) / 153 in
  if mp <? 10 then mp + 3 else mp - 9.

Definition day_of_doy (doy : Z) : Z :=
  let mp := (5 * doy + 2) / 153 in
  doy - (153 * mp + 2) / 5 + 1.

Lemma civil_from_days_md (days : Z) :
  let z := days + 719468 in
  let doe := z - z / 146097 * 146097 in
  snd (fst (civil_from_days days)) = month_of_doy (doy_of_doe doe) /\
  snd (civil_from_days days) = day_of_doy (doy_of_doe doe).
Proof. split; reflexivity. Qed.

Lemma doy_of_doe_bounds (doe : Z) : 0 <= doe <= 146096 -> 0 <= doy_of_doe doe <= 365.
Proof.
  intros H. unfold doy_of_doe.
  pose proof (Z.div_mod doe 1460 ltac:(lia)). pose proof (Z.mod_pos_bound doe 1460 ltac:(lia)).
  pose proof (Z.div_mod doe 36524 ltac:(lia)). pose proof (Z.mod_pos_bound doe 36524 ltac:(lia)).
  pose proof (Z.div_mod doe 146096 ltac:(lia)). pose proof (Z.mod_pos_bound doe 146096 ltac:(lia)).
  set (a := doe / 1460) in *. set (b := doe / 36524) in *. set (c := doe / 146096) in *.
  pose proof (Z.div_mod (doe - a + b - c) 365 ltac:(lia)).
  pose proof (Z.mod_pos_bound (doe - a + b - c) 365 ltac:(lia)).
  set (y := (doe - a + b - c) / 365) in *.
  pose proof (Z.div_mod y 4 ltac:(lia)). pose proof (Z.mod_pos_bound y 4 ltac:(lia)).
  pose proof (Z.div_mod y 100 ltac:(lia)). pose proof (Z.mod_pos_bound y 100 ltac:(lia)).
  lia.
Qed.

Definition md_ok (doy : Z) : bool :=
  (1 <=? month_of_doy doy) && (month_of_doy doy <=? 12) &&
  (1 <=? day_of_doy doy) && (day_of_doy doy <=? 31).

Lemma md_ok_all : check_from md_ok 0 (Z.to_nat 366) = true.
Proof. vm_compute. reflexivity. Qed.

Lemma civil_from_days_bounds (days : Z) :
  1 <= snd (fst (civil_from_days days)) <= 12 /\ 1 <= snd (civil_from_days days) <= 31.
Proof.
  destruct (civil_from_days_md days) as [Hm Hd]. rewrite Hm, Hd.
  set (z := days + 719468).
  assert (Hdoe : 0 <= z - z / 146097 * 146097 <= 146096).
  { rewrite <- Zmod_eq_full by lia. pose proof (Z.mod_pos_bound z 146097). lia. }
  pose proof (doy_of_doe_bounds _ Hdoe) as Hdoy.
  pose proof (check_range_ok md_ok 0 366 md_ok_all (doy_of_doe (z - z / 146097 * 146097))
    ltac:(lia)) as H.
  unfold md_ok in H. apply andb_true_iff in H as [H H4]. apply andb_true_iff in H as [H H3].
  apply andb_true_iff in H as [H1 H2]. apply Z.leb_le in H1, H2, H3, H4. lia.
Qed.

Definition dig (n : Z) : Z := 48 + n.

Definition pad_ok (n : Z) : bool :=
  jstr_eqb (padStart2 (number_to_string n)) [dig (n / 10); dig (n mod 10)].

Lemma pad_ok_all : check_from pad_ok 0 (Z.to_nat 100) = true.
Proof. vm_compute. reflexivity. Qed.

Lemma padStart2_two_digits (n : Z) :
  0 <= n <= 99 -> padStart2 (number_to_string n) = [dig (n / 10); dig (n mod 10)].
Proof.
  intros Hn. pose proof (check_range_ok pad_ok 0 100 pad_ok_all n ltac:(lia)) as H.
  unfold pad_ok, jstr_eqb in H. destruct (list_eq_dec _ _ _); [assumption|discriminate].
Qed.

Definition year_ok (k : Z) : bool :=
  let y := 1000 + k in
  jstr_eqb (number_to_string y) [dig (y / 1000); dig (y / 100 mod 10); dig (y / 10 mod 10); dig (y mod 10)].

Lemma year_ok_all : check_from year_ok 0 (Z.to_nat 9000) = true.
Proof. vm_compute. reflexivity. Qed.

Lemma number_to_string_four_digits (y : Z) :
  1000 <= y <= 9999 ->
  number_to_string y = [dig (y / 1000); dig (y / 100 mod 10); dig (y / 10 mod 10); dig (y mod 10)].
Proof.
  intros Hy. pose proof (check_range_ok year_ok 0 9000 year_ok_all (y - 1000) ltac:(lia)) as H.
  unfold year_ok, jstr_eqb in H. replace (1000 + (y - 1000)) with y in H by lia.
  destruct (list_eq_dec _ _ _); [assumption|discriminate].
Qed.

(** C9 (counterexample): a timestamp in the year 874 is printed with a
    three-digit year, [874-11-02], not in the form YYYY-MM-DD, although month
    and day are padded to two digits. *)
Lemma formatDateFromTimestamp_counterexample :
  formatDateFromTimestamp (fun _ => 0) (-34560000000000) = js "874-11-02" /\
  local_ymd (fun _ => 0) (-34560000000000) = (874, 11, 2).
Proof. split; vm_compute; reflexivity. Qed.

(** C9: for a non-zero timestamp within the [Date] range whose local
    calendar year is between 1000 and 9999, the result is exactly the ten
    characters YYYY-MM-DD of the local year, month (1..12) and day (1..31)
    that [getFullYear], [getMonth] and [getDate] give, month and day
    zero-padded to two digits. *)
Theorem formatDateFromTimestamp_spec (tz : Z -> Z) (t : Z) :
  t <> 0 -> Z.abs t <= 8640000000000000 ->
  exists y m d, local_ymd tz t = (y, m, d) /\ 1 <= m <= 12 /\ 1 <= d <= 31 /\
    (1000 <= y <= 9999 ->
     formatDateFromTimestamp tz t =
       [dig (y / 1000); dig (y / 100 mod 10); dig (y / 10 mod 10); dig (y mod 10); 45;
        dig (m / 10); dig (m mod 10); 45; dig (d / 10); dig (d mod 10)]).
Proof.
  intros Ht Hr. unfold formatDateFromTimestamp.
  rewrite (proj2 (Z.eqb_neq t 0) Ht).
  replace (8640000000000000 <? Z.abs t) with false by (symmetry; apply Z.ltb_ge; lia).
  destruct (local_ymd tz t) as [[y m] d] eqn:E.
  pose proof (civil_from_days_bounds ((t + tz t) / msPerDay)) as Hb.
  change (civil_from_days ((t + tz t) / msPerDay)) with (local_ymd tz t) in Hb. rewrite E in Hb. simpl in Hb.
  exists y, m, d. split; [reflexivity|]. split; [lia|]. split; [lia|].
  rewrite (padStart2_two_digits m) by lia. rewrite (padStart2_two_digits d) by lia.
  intros Hy. rewrite number_to_string_four_digits by exact Hy. reflexivity.
Qed.

Lemma formatDateFromTimestamp_spec_witness :
  formatDateFromTimestamp (fun _ => 0) 1700000000000 = js "2023-11-14".
Proof.
  destruct (formatDateFromTimestamp_spec (fun _ => 0) 1700000000000 ltac:(discriminate) ltac:(vm_compute; discriminate))
    as [y [m [d [E [_ [_ Hf]]]]]].
  assert (E' : local_ymd (fun _ => 0) 1700000000000 = (2023, 11, 14)) by (vm_compute; reflexivity).
  rewrite E' in E. injection E as <- <- <-.
  rewrite Hf by lia. vm_compute. reflexivity.
Defined.

(** ** Matcher soundness and completeness *)

Lemma run_len_le (p : Z -> bool) (s : jstr) :
  forall hi j, (j <= run_len p hi s)%nat ->
  forallb p (firstn j s) = true /\ hi_ok hi j /\ (j <= List.length s)%nat.
Proof.
  induction s as [|c s IH]; intros hi j Hj.
  - destruct hi as [[|h]|]; simpl in Hj; replace j with O by lia; simpl; repeat split; lia.
  - destruct hi as [[|h]|]; simpl in Hj.
    + replace j with O by lia. simpl. repeat split; lia.
    + destruct (p c) eqn:E; [|replace j with O by lia; simpl; repeat split; lia].
      destruct j as [|j]; [simpl; repeat split; lia|].
      destruct (IH (Some h) j ltac:(lia)) as [H1 [H2 H3]]. simpl in *.
      rewrite E, H1. repeat split; lia.
    + destruct (p c) eqn:E; [|replace j with O by lia; simpl; repeat split; lia].
      destruct j as [|j]; [simpl; repeat split; lia|].
      destruct (IH None j ltac:(lia)) as [H1 [H2 H3]]. simpl in *.
      rewrite E, H1. repeat split; lia.
Qed.

Lemma run_len_ge (p : Z -> bool) (w s : jstr) :
  forall hi, forallb p w = true -> hi_ok hi (List.length w) ->
  (List.length w <= run_len p hi (w ++ s))%nat.
Proof.
  induction w as [|c w IH]; intros hi Hp Hh; [simpl; lia|].
  simpl in Hp. apply andb_true_iff in Hp as [Hc Hp].
  destruct hi as [[|h]|]; simpl in Hh |- *; [lia| |]; rewrite Hc.
  - specialize (IH (Some h) Hp ltac:(simpl; lia)). lia.
  - specialize (IH None Hp I). lia.
Qed.

Lemma try_down_sound {A} (c : nat) :
  forall i (f : nat -> option A) x, try_down i c f = Some x ->
  exists j, (i - c <= j <= i)%nat /\ f j = Some x.
Proof.
  induction c as [|c IH]; intros i f x H; simpl in H.
  - exists i. split; [lia|exact H].
  - destruct (f i) eqn:E.
    + injection H as <-. exists i. split; [lia|exact E].
    + destruct (IH _ _ _ H) as [j [Hj Hf]]. exists j. split; [destruct i; simpl in *; lia|exact Hf].
Qed.

Lemma try_down_complete {A} (c : nat) :
  forall i (f : nat -> option A) j, (i - c <= j <= i)%nat -> f j <> None -> try_down i c f <> None.
Proof.
  induction c as [|c IH]; intros i f j Hj Hf; simpl.
  - replace i with j by lia. exact Hf.
  - destruct (f i) eqn:E; [discriminate|].
    destruct (Nat.eq_dec j i) as [->|Hne]; [contradiction|].
    apply (IH _ _ j); [destruct i; simpl; lia|exact Hf].
Qed.

Lemma mt_sound {A} (r : re) :
  forall s cap (k : jstr -> option jstr -> option A) x, mt r s cap k = Some x ->
  exists s' cap', mr r s s' /\ k s' cap' = Some x.
Proof.
  induction r as [|p|r1 IH1 r2 IH2|r1 IH1 r2 IH2|lo hi p|r IH|];
    intros s cap k x H; simpl in H.
  - exists s, cap. split; [constructor|exact H].
  - destruct s as [|c s]; [discriminate|]. destruct (p c) eqn:E; [|discriminate].
    exists s, cap. split; [constructor; exact E|exact H].
  - destruct (IH1 _ _ _ _ H) as [s1 [c1 [H1 H2]]].
    destruct (IH2 _ _ _ _ H2) as [s2 [c2 [H3 H4]]].
    exists s2, c2. split; [econstructor; eassumption|exact H4].
  - destruct (mt r1 s cap k) eqn:E.
    + injection H as <-. destruct (IH1 _ _ _ _ E) as [s' [c' [H1 H2]]].
      exists s', c'. split; [apply mr_altl; exact H1|exact H2].
    + destruct (IH2 _ _ _ _ H) as [s' [c' [H1 H2]]].
      exists s', c'. split; [apply mr_altr; exact H1|exact H2].
  - destruct (Nat.ltb (run_len p hi s) lo) eqn:Elt; [discriminate|].
    apply Nat.ltb_ge in Elt.
    destruct (try_down_sound _ _ _ _ H) as [j [Hj Hf]].
    destruct (run_len_le p s hi j ltac:(lia)) as [Hp [Hh Hl]].
    exists (skipn j s), cap. split; [|exact Hf].
    rewrite <- (firstn_skipn j s) at 1.
    apply mr_rep; rewrite ?firstn_length_le by lia; [lia|exact Hh|exact Hp].
  - destruct (IH _ _ _ _ H) as [s' [c' [H1 H2]]].
    eexists s', _. split; [constructor; exact H1|exact H2].
  - destruct s; [|discriminate]. exists [], cap. split; [constructor|exact H].
Qed.

Lemma skipn_length_app {B} (w s : list B) : skipn (List.length w) (w ++ s) = s.
Proof. induction w; simpl; auto. Qed.

Lemma mt_complete {A} (r : re) (s s' : jstr) :
  mr r s s' -> forall cap (k : jstr -> option jstr -> option A),
  (forall c, k s' c <> None) -> mt r s cap k <> None.
Proof.
  induction 1 as [s|p c s Hp|r1 r2 s s1 s2 H1 IH1 H2 IH2|r1 r2 s s' H IH|r1 r2 s s' H IH
                 |lo hi p w s Hlo Hhi Hp|r s s' H IH|]; intros cap k Hk; simpl.
  - apply Hk.
  - rewrite Hp. apply Hk.
  - apply IH1. intros c. apply IH2. exact Hk.
  - destruct (mt r1 s cap k) eqn:E; [discriminate|]. exfalso. exact (IH cap k Hk E).
  - destruct (mt r1 s cap k) eqn:E; [discriminate|]. apply IH. exact Hk.
  - pose proof (run_len_ge p w s hi Hp Hhi) as Hn.
    destruct (Nat.ltb (run_len p hi (w ++ s)) lo) eqn:Elt; [apply Nat.ltb_lt in Elt; lia|].
    apply (try_down_complete _ _ _ (List.length w)); [lia|].
    rewrite skipn_length_app. apply Hk.
  - apply IH. intros c. apply Hk.
  - apply Hk.
Qed.

Lemma exec_from_eq (r : re) (s : jstr) (i : nat) :
  exec_from r s i =
  match mt r s None (fun rest cap => Some (rest, cap)) with
  | Some (rest, cap) => Some (i, rest, cap)
  | None => match s with [] => None | _ :: s' => exec_from r s' (S i) end
  end.
Proof. destruct s; reflexivity. Qed.

Lemma exec_from_sound (r : re) (s : jstr) :
  forall i j rest cap, exec_from r s i = Some (j, rest, cap) ->
  exists pre mid, s = pre ++ mid /\ j = (i + List.length pre)%nat /\ mr r mid rest.
Proof.
  induction s as [|c s IH]; intros i j rest cap H; rewrite exec_from_eq in H;
    destruct (mt r _ None (fun rest cap => Some (rest, cap))) as [[rest0 cap0]|] eqn:E.
  - injection H as <- <- <-. destruct (mt_sound _ _ _ _ _ E) as [s' [c' [Hm Hk]]].
    injection Hk as -> _. exists [], []. split; [reflexivity|]. split; [simpl; lia|exact Hm].
  - discriminate.
  - injection H as <- <- <-. destruct (mt_sound _ _ _ _ _ E) as [s' [c' [Hm Hk]]].
    injection Hk as -> _. exists [], (c :: s). split; [reflexivity|]. split; [simpl; lia|exact Hm].
  - destruct (IH _ _ _ _ H) as [pre [mid [Es [Ej Hm]]]].
    exists (c :: pre), mid. split; [simpl; congruence|]. split; [simpl; lia|exact Hm].
Qed.

Lemma exec_from_complete (r : re) (pre : jstr) :
  forall mid rest i, mr r mid rest -> exec_from r (pre ++ mid) i <> None.
Proof.
  induction pre as [|c pre IH]; intros mid rest i Hm; rewrite exec_from_eq.
  - pose proof (mt_complete r mid rest Hm None (fun rest cap => Some (rest, cap))
                  (fun c => ltac:(discriminate))) as Hc.
    simpl app. destruct (mt r mid None _) as [[? ?]|]; [discriminate|contradiction].
  - destruct (mt r _ None _) as [[? ?]|]; [discriminate|]. apply (IH mid rest). exact Hm.
Qed.

Lemma firstn_length_app {B} (w s : list B) : firstn (List.length w) (w ++ s) = w.
Proof. induction w; simpl; f_equal; auto. Qed.

Lemma re_replace_first_cases (r : re) (s repl : jstr) :
  (exec r s = None /\ re_replace_first r s repl = s) \/
  (exists pre mid rest, s = pre ++ mid /\ mr r mid rest /\
     re_replace_first r s repl = pre ++ repl ++ rest).
Proof.
  unfold re_replace_first. destruct (exec r s) as [[[j rest] cap]|] eqn:E; [right|left; auto].
  destruct (exec_from_sound r s 0 j rest cap E) as [pre [mid [Es [Ej Hm]]]].
  exists pre, mid, rest. split; [exact Es|]. split; [exact Hm|].
  subst j s. simpl. rewrite firstn_length_app. reflexivity.
Qed.

Lemma mr_seq_inv (r1 r2 : re) (s s' : jstr) :
  mr (RSeq r1 r2) s s' -> exists s1, mr r1 s s1 /\ mr r2 s1 s'.
Proof. intros H. inversion H; subst. eauto. Qed.

Lemma mr_cls_inv (p : Z -> bool) (s s' : jstr) :
  mr (RCls p) s s' -> exists c, s = c :: s' /\ p c = true.
Proof. intros H. inversion H; subst. eauto. Qed.

Lemma mr_end_inv (s s' : jstr) : mr REnd s s' -> s = [] /\ s' = [].
Proof. intros H. inversion H; subst. auto. Qed.

Lemma mr_cls_all (q : Z -> Prop) (r : re) (s s' : jstr) :
  cls_all q r -> mr r s s' -> exists w, s = w ++ s' /\ Forall q w.
Proof.
  intros Hq Hm. revert Hq.
  induction Hm as [s|p c s Hp|r1 r2 s s1 s2 H1 IH1 H2 IH2|r1 r2 s s' H IH|r1 r2 s s' H IH
                  |lo hi p w s Hlo Hhi Hp|r s s' H IH|]; simpl; intros Hq.
  - exists []. auto.
  - exists [c]. split; [reflexivity|]. constructor; [apply Hq; exact Hp|constructor].
  - destruct Hq as [Hq1 Hq2]. destruct (IH1 Hq1) as [w1 [-> F1]]. destruct (IH2 Hq2) as [w2 [-> F2]].
    exists (w1 ++ w2). split; [apply app_assoc|apply Forall_app; auto].
  - apply IH, Hq.
  - apply IH, Hq.
  - exists w. split; [reflexivity|]. apply Forall_forall. intros x Hx.
    apply Hq. rewrite forallb_forall in Hp. apply Hp, Hx.
  - apply IH, Hq.
  - exists []. auto.
Qed.

Lemma mr_rep' (lo : nat) (hi : option nat) (p : Z -> bool) (w s s' : jstr) :
  (lo <= List.length w)%nat -> hi_ok hi (List.length w) -> forallb p w = true -> s = w ++ s' ->
  mr (RRep lo hi p) s s'.
Proof. intros ? ? ? ->. apply mr_rep; assumption. Qed.

(** ** Case folding of the classes used by the title cleanup *)

Lemma to_lower_id (c x : Z) : to_lower c = x -> x < 65 \/ 122 < x -> c = x.
Proof.
  unfold to_lower. destruct ((65 <=? c) && (c <=? 90)) eqn:E; intros <- H; [|reflexivity].
  apply andb_true_iff in E as [E1 E2]. apply Z.leb_le in E1, E2. lia.
Qed.

Lemma to_upper_id (c x : Z) : to_upper c = x -> x < 65 \/ 122 < x -> c = x.
Proof.
  unfold to_upper. destruct ((97 <=? c) && (c <=? 122)) eqn:E; intros <- H; [|reflexivity].
  apply andb_true_iff in E as [E1 E2]. apply Z.leb_le in E1, E2. lia.
Qed.

Lemma icase_pred_id (p : Z -> bool) (c : Z) :
  (forall x, p x = true -> x < 65 \/ 122 < x) ->
  (p c || p (to_lower c) || p (to_upper c)) = true -> p c = true.
Proof.
  intros Hp H. apply orb_true_iff in H as [H|H]; [apply orb_true_iff in H as [H|H]|].
  - exact H.
  - assert (E : to_lower c = c) by (symmetry; apply (to_lower_id c (to_lower c) eq_refl (Hp _ H))).
    rewrite E in H. exact H.
  - assert (E : to_upper c = c) by (symmetry; apply (to_upper_id c (to_upper c) eq_refl (Hp _ H))).
    rewrite E in H. exact H.
Qed.

Lemma is_ws_range (x : Z) : is_ws x = true -> x < 65 \/ 122 < x.
Proof.
  unfold is_ws. intros H.
  repeat (rewrite orb_true_iff in H || rewrite andb_true_iff in H).
  rewrite ?Z.leb_le, ?Z.eqb_eq in H. lia.
Qed.

Lemma icase_is_ws (c : Z) : (is_ws c || is_ws (to_lower c) || is_ws (to_upper c)) = true -> is_ws c = true.
Proof. apply icase_pred_id, is_ws_range. Qed.

Lemma icase_ch_id (a c : Z) : a < 65 -> ((a =? c) || (a =? to_lower c) || (a =? to_upper c)) = true -> c = a.
Proof.
  intros Ha H. apply icase_pred_id in H; [apply Z.eqb_eq in H; congruence|].
  intros x Hx. apply Z.eqb_eq in Hx. lia.
Qed.

Lemma icase_not_rparen (c : Z) :
  (not_rparen c || not_rparen (to_lower c) || not_rparen (to_upper c)) = true -> c <> 41.
Proof. intros H ->. vm_compute in H. discriminate. Qed.

Lemma icase_seqs (rs : list re) : icase (seqs rs) = seqs (map icase rs).
Proof.
  induction rs as [|r rs IH]; [reflexivity|]. destruct rs as [|r' rs']; [reflexivity|].
  cbn [seqs map icase] in *. rewrite IH. reflexivity.
Qed.

Lemma cls_all_icase_seqs (q : Z -> Prop) (rs : list re) :
  (forall r, In r rs -> cls_all q (icase r)) -> cls_all q (icase (seqs rs)).
Proof.
  rewrite icase_seqs. induction rs as [|r rs IH]; intros H; [exact I|].
  destruct rs as [|r' rs']; [apply H; left; reflexivity|].
  cbn [map seqs cls_all]. split; [apply H; left; reflexivity|].
  apply IH. intros r'' Hr. apply H. right. exact Hr.
Qed.

Lemma cls_all_icase_alts (q : Z -> Prop) (rs : list re) :
  (forall r, In r rs -> cls_all q (icase r)) -> cls_all q (icase (alts rs)).
Proof.
  induction rs as [|r rs IH]; intros H.
  - cbn. intros c Hc. discriminate.
  - destruct rs as [|r' rs']; [apply H; left; reflexivity|].
    cbn [alts icase cls_all]. split; [apply H; left; reflexivity|].
    apply IH. intros r'' Hr. apply H. right. exact Hr.
Qed.

Lemma cls_icase_ch_ne41 (a : Z) : a <> 41 -> cls_all (fun c => c <> 41) (icase (ch a)).
Proof.
  intros Ha. cbn [cls_all icase ch]. intros c H ->.
  replace (to_lower 41) with 41 in H by reflexivity.
  replace (to_upper 41) with 41 in H by reflexivity.
  rewrite (proj2 (Z.eqb_neq a 41) Ha) in H. discriminate.
Qed.

Lemma title_keywords_no_rparen :
  Forall (fun k => Forall (fun a => a <> 41) (js k)) title_keywords.
Proof.
  assert (H : forallb (fun k => forallb (fun a => negb (a =? 41)) (js k)) title_keywords = true)
    by reflexivity.
  rewrite forallb_forall in H. apply Forall_forall. intros k Hk. specialize (H k Hk).
  rewrite forallb_forall in H. apply Forall_forall. intros a Ha. specialize (H a Ha).
  apply negb_true_iff, Z.eqb_neq in H. exact H.
Qed.

Lemma cls_keywords_ne41 : cls_all (fun c => c <> 41) (icase (alts (map lit title_keywords))).
Proof.
  apply cls_all_icase_alts. intros r Hr. apply in_map_iff in Hr as [k [<- Hk]].
  unfold lit. apply cls_all_icase_seqs. intros r Hr. apply in_map_iff in Hr as [a [<- Ha]].
  apply cls_icase_ch_ne41.
  pose proof title_keywords_no_rparen as H. rewrite Forall_forall in H.
  specialize (H k Hk). rewrite Forall_forall in H. apply H, Ha.
Qed.

(** ** What the two cleanup patterns match *)

Lemma category_paren_inv (s s' : jstr) :
  mr category_paren_re s s' ->
  exists w1 w2 w3, s = w1 ++ 40 :: w2 ++ 41 :: w3 ++ s' /\
    Forall (fun x => is_ws x = true) w1 /\ ~ In 41 w2 /\ Forall (fun x => is_ws x = true) w3.
Proof.
  unfold category_paren_re. rewrite icase_seqs. cbn [map seqs]. intros H.
  apply mr_seq_inv in H as [s1 [HA H]]. apply mr_seq_inv in H as [s2 [HB H]].
  apply mr_seq_inv in H as [s3 [HC H]]. apply mr_seq_inv in H as [s4 [HD H]].
  apply mr_seq_inv in H as [s5 [HE H]]. apply mr_seq_inv in H as [s6 [HF HG]].
  apply (mr_cls_all (fun x => is_ws x = true)) in HA as [w1 [-> F1]];
    [|cbn; intros c Hc; apply icase_is_ws, Hc].
  apply mr_cls_inv in HB as [b [-> Hb]]. apply icase_ch_id in Hb; [subst b|lia].
  apply (mr_cls_all (fun x => x <> 41)) in HC as [wc [-> FC]];
    [|cbn; intros c Hc; apply icase_not_rparen, Hc].
  apply (mr_cls_all (fun x => x <> 41)) in HD as [wd [-> FD]]; [|apply cls_keywords_ne41].
  apply (mr_cls_all (fun x => x <> 41)) in HE as [we [-> FE]];
    [|cbn; intros c Hc; apply icase_not_rparen, Hc].
  apply mr_cls_inv in HF as [f [-> Hf]]. apply icase_ch_id in Hf; [subst f|lia].
  apply (mr_cls_all (fun x => is_ws x = true)) in HG as [wg [-> FG]];
    [|cbn; intros c Hc; apply icase_is_ws, Hc].
  exists w1, (wc ++ wd ++ we), wg. split; [rewrite <- !app_assoc; reflexivity|].
  split; [exact F1|]. split; [|exact FG].
  intros Hin. assert (F : Forall (fun x => x <> 41) (wc ++ wd ++ we)) by (apply Forall_app; split; [exact FC|apply Forall_app; split; assumption]).
  rewrite Forall_forall in F. exact (F 41 Hin eq_refl).
Qed.

Lemma long_paren_inv (s s' : jstr) :
  mr long_paren_re s s' ->
  exists w1 w2 w3, s = w1 ++ 40 :: w2 ++ 41 :: w3 /\ s' = [] /\
    Forall (fun x => is_ws x = true) w1.
Proof.
  unfold long_paren_re. rewrite icase_seqs. cbn [map seqs]. intros H.
  apply mr_seq_inv in H as [s1 [HA H]]. apply mr_seq_inv in H as [s2 [HB H]].
  apply mr_seq_inv in H as [s3 [HC H]]. apply mr_seq_inv in H as [s4 [HD H]].
  apply mr_seq_inv in H as [s5 [HE HF]].
  apply (mr_cls_all (fun x => is_ws x = true)) in HA as [w1 [-> F1]];
    [|cbn; intros c Hc; apply icase_is_ws, Hc].
  apply mr_cls_inv in HB as [b [-> Hb]]. apply icase_ch_id in Hb; [subst b|lia].
  apply (mr_cls_all (fun _ => True)) in HC as [wc [-> _]]; [|cbn; auto].
  apply mr_cls_inv in HD as [d [-> Hd]]. apply icase_ch_id in Hd; [subst d|lia].
  apply (mr_cls_all (fun _ => True)) in HE as [we [-> _]]; [|cbn; auto].
  apply mr_end_inv in HF as [-> ->].
  exists w1, wc, we. split; [rewrite app_nil_r; reflexivity|]. split; [reflexivity|exact F1].
Qed.

Lemma mr_icase_lit_chars (l rest : jstr) : mr (icase (seqs (map ch l))) (l ++ rest) rest.
Proof.
  induction l as [|a l IH]; [constructor|]. destruct l as [|b l'].
  - cbn. apply mr_cls. rewrite Z.eqb_refl. reflexivity.
  - cbn [map seqs icase]. apply mr_seq with (s1 := (b :: l') ++ rest).
    + cbn [ch icase]. apply mr_cls. rewrite Z.eqb_refl. reflexivity.
    + exact IH.
Qed.

Lemma mr_icase_alts (r : re) (rs : list re) (s s' : jstr) :
  In r rs -> mr (icase r) s s' -> mr (icase (alts rs)) s s'.
Proof.
  induction rs as [|r0 rs IH]; intros Hin Hm; [destruct Hin|].
  destruct rs as [|r1 rs']; destruct Hin as [<-|Hin].
  - exact Hm.
  - destruct Hin.
  - cbn [alts icase]. apply mr_altl. exact Hm.
  - cbn [alts icase]. apply mr_altr. apply IH; assumption.
Qed.

Lemma forallb_icase_ws (w : jstr) :
  Forall (fun x => is_ws x = true) w ->
  forallb (fun c => is_ws c || is_ws (to_lower c) || is_ws (to_upper c)) w = true.
Proof.
  intros F. apply forallb_forall. intros x Hx. rewrite Forall_forall in F. rewrite (F x Hx). reflexivity.
Qed.

Lemma forallb_icase_not_rparen (w : jstr) :
  ~ In 41 w ->
  forallb (fun c => not_rparen c || not_rparen (to_lower c) || not_rparen (to_upper c)) w = true.
Proof.
  intros H. apply forallb_forall. intros x Hx.
  assert (Hn : not_rparen x = true) by (unfold not_rparen; apply negb_true_iff, Z.eqb_neq; congruence).
  rewrite Hn. reflexivity.
Qed.

Lemma category_paren_complete (c1 : jstr) (k : string) (c2 ws2 : jstr) :
  In k title_keywords -> ~ In 41 c1 -> ~ In 41 c2 -> Forall (fun x => is_ws x = true) ws2 ->
  mr category_paren_re (40 :: (c1 ++ js k ++ c2) ++ 41 :: ws2) [].
Proof.
  intros Hk H1 H2 Hw. unfold category_paren_re. rewrite icase_seqs. cbn [map seqs].
  apply mr_seq with (s1 := 40 :: (c1 ++ js k ++ c2) ++ 41 :: ws2).
  { apply mr_rep' with (w := []); [simpl; lia|exact I|reflexivity|reflexivity]. }
  apply mr_seq with (s1 := (c1 ++ js k ++ c2) ++ 41 :: ws2).
  { apply mr_cls. reflexivity. }
  apply mr_seq with (s1 := js k ++ c2 ++ 41 :: ws2).
  { apply mr_rep' with (w := c1); [lia|exact I|apply forallb_icase_not_rparen, H1|].
    rewrite <- !app_assoc. reflexivity. }
  apply mr_seq with (s1 := c2 ++ 41 :: ws2).
  { apply mr_icase_alts with (r := lit k); [apply in_map, Hk|apply mr_icase_lit_chars]. }
  apply mr_seq with (s1 := 41 :: ws2).
  { apply mr_rep' with (w := c2); [lia|exact I|apply forallb_icase_not_rparen, H2|reflexivity]. }
  apply mr_seq with (s1 := ws2).
  { apply mr_cls. reflexivity. }
  apply mr_rep' with (w := ws2); [lia|exact I|apply forallb_icase_ws, Hw|symmetry; apply app_nil_r].
Qed.

Lemma long_paren_complete (c : jstr) :
  ~ In 41 c -> (30 <= List.length c)%nat -> mr long_paren_re (40 :: c ++ [41]) [].
Proof.
  intros H Hl. unfold long_paren_re. rewrite icase_seqs. cbn [map seqs].
  apply mr_seq with (s1 := 40 :: c ++ [41]).
  { apply mr_rep' with (w := []); [simpl; lia|exact I|reflexivity|reflexivity]. }
  apply mr_seq with (s1 := c ++ [41]).
  { apply mr_cls. reflexivity. }
  apply mr_seq with (s1 := [41]).
  { apply mr_rep' with (w := c); [exact Hl|exact I|apply forallb_icase_not_rparen, H|reflexivity]. }
  apply mr_seq with (s1 := []).
  { apply mr_cls. reflexivity. }
  apply mr_seq with (s1 := []).
  { apply mr_rep' with (w := []); [simpl; lia|exact I|reflexivity|reflexivity]. }
  constructor.
Qed.

(** ** Trimming *)

Lemma trim_start_app_ws (w x : jstr) :
  Forall (fun c => is_ws c = true) w -> trim_start (w ++ x) = trim_start x.
Proof. induction 1 as [|c w Hc _ IH]; [reflexivity|]. simpl. rewrite Hc. exact IH. Qed.

Lemma trim_start_ws (w : jstr) : Forall (fun c => is_ws c = true) w -> trim_start w = [].
Proof. intros H. rewrite <- (app_nil_r w), trim_start_app_ws by exact H. reflexivity. Qed.

Lemma trim_start_app_nil (x y : jstr) : trim_start x = [] -> trim_start (x ++ y) = trim_start y.
Proof.
  induction x as [|c x IH]; [reflexivity|]. simpl. destruct (is_ws c); [exact IH|discriminate].
Qed.

Lemma trim_start_app_cons (x y : jstr) : trim_start x <> [] -> trim_start (x ++ y) = trim_start x ++ y.
Proof.
  induction x as [|c x IH]; [contradiction|]. simpl. destruct (is_ws c); [exact IH|reflexivity].
Qed.

Lemma trim_start_split (x : jstr) :
  exists a, x = a ++ trim_start x /\ Forall (fun c => is_ws c = true) a.
Proof.
  induction x as [|c x [a [Ea Fa]]]; [exists []; auto|]. simpl. destruct (is_ws c) eqn:E.
  - exists (c :: a). split; [simpl; congruence|constructor; assumption].
  - exists []. auto.
Qed.

Lemma trim_start_idem (x : jstr) : trim_start (trim_start x) = trim_start x.
Proof.
  induction x as [|c x IH]; [reflexivity|]. simpl. destruct (is_ws c) eqn:E; [exact IH|].
  simpl. rewrite E. reflexivity.
Qed.

Lemma In_trim_start (c : Z) (x : jstr) : In c (trim_start x) -> In c x.
Proof.
  destruct (trim_start_split x) as [a [Ea _]]. intros H. rewrite Ea. apply in_or_app. right. exact H.
Qed.

Lemma In_trim (c : Z) (x : jstr) : In c (trim x) -> In c x.
Proof.
  unfold trim. intros H. apply in_rev in H. apply In_trim_start in H.
  apply in_rev in H. apply In_trim_start in H. exact H.
Qed.

Lemma trim_app_ws (x w : jstr) : Forall (fun c => is_ws c = true) w -> trim (x ++ w) = trim x.
Proof.
  intros Hw. unfold trim. destruct (trim_start x) as [|h t] eqn:E.
  - rewrite trim_start_app_nil by exact E. rewrite (trim_start_ws w Hw). reflexivity.
  - rewrite trim_start_app_cons by congruence. rewrite E, rev_app_distr.
    rewrite trim_start_app_ws by (apply Forall_rev; exact Hw). reflexivity.
Qed.

Lemma trim_trim_start (x : jstr) : trim (trim_start x) = trim x.
Proof. unfold trim. rewrite trim_start_idem. reflexivity. Qed.

Lemma trim_start_rev_fixed (u : jstr) :
  trim_start u = u -> trim_start (rev (trim_start (rev u))) = rev (trim_start (rev u)).
Proof.
  intros Hu. destruct (trim_start_split (rev u)) as [a [Ea Fa]].
  assert (Eu : u = rev (trim_start (rev u)) ++ rev a)
    by (rewrite <- rev_app_distr, <- Ea, rev_involutive; reflexivity).
  destruct (rev (trim_start (rev u))) as [|h t] eqn:Eh; [reflexivity|].
  simpl. destruct (is_ws h) eqn:Ew; [|reflexivity]. exfalso.
  rewrite Eu in Hu. simpl in Hu. rewrite Ew in Hu.
  destruct (trim_start_split (t ++ rev a)) as [b [Eb _]].
  assert (L : List.length (t ++ rev a) = (List.length b + List.length (h :: t ++ rev a))%nat)
    by (rewrite Eb at 1; rewrite Hu, length_app; reflexivity).
  simpl in L. lia.
Qed.

Lemma trim_idem (x : jstr) : trim (trim x) = trim x.
Proof.
  unfold trim at 2 3. set (u := trim_start x).
  assert (Hu : trim_start u = u) by apply trim_start_idem.
  unfold trim. rewrite (trim_start_rev_fixed u Hu), rev_involutive, trim_start_idem. reflexivity.
Qed.

Lemma trim_paren_tail (x y w : jstr) :
  y <> [] -> trim_start y = y -> trim_start (rev y) = rev y ->
  Forall (fun c => is_ws c = true) w -> trim (x ++ y ++ w) = trim_start x ++ y.
Proof.
  intros Hne Hy Hry Hw. rewrite app_assoc, trim_app_ws by exact Hw. unfold trim.
  destruct (trim_start x) as [|h t] eqn:E.
  - rewrite trim_start_app_nil by exact E. rewrite Hy.
    rewrite Hry, rev_involutive. reflexivity.
  - rewrite trim_start_app_cons by congruence. rewrite E, rev_app_distr.
    rewrite trim_start_app_cons by (rewrite Hry; intros Hr; apply Hne; rewrite <- (rev_involutive y), Hr; reflexivity).
    rewrite Hry, rev_app_distr, !rev_involutive. reflexivity.
Qed.

Lemma app_cons_unique (x : Z) (a1 b1 a2 b2 : jstr) :
  a1 ++ x :: b1 = a2 ++ x :: b2 -> ~ In x a2 -> ~ In x b2 -> a1 = a2 /\ b1 = b2.
Proof.
  revert a2. induction a1 as [|y a1 IH]; intros [|z a2] E H1 H2; simpl in E.
  - injection E as ->. auto.
  - injection E as Ez E. exfalso. apply H1. left. symmetry. exact Ez.
  - injection E as Ey E. exfalso. apply H2. rewrite <- E. apply in_or_app. right. left. reflexivity.
  - injection E as Ey E. subst z.
    destruct (IH a2 E (fun H => H1 (or_intror H)) H2) as [-> ->]. auto.
Qed.

(** ** C8: Amazon title cleanup *)

(** C8 (counterexample): the keyword pattern is not anchored at the end of
    the title: a keyword parenthetical in the middle of the title is removed
    together with the spaces around it, and of two keyword parentheticals
    only the first is removed while the trailing one stays. *)
Lemma cleanAmazonTitle_counterexample :
  cleanAmazonTitle (js "A (Gift Books) B") = js "AB" /\
  cleanAmazonTitle (js "X (Books for Kids) (Gift Books)") = js "X(Gift Books)".
Proof. split; vm_compute; reflexivity. Qed.

(** C8: when the title has no earlier parenthetical (a text without [(]
    followed by one parenthetical at its end, its content without
    parentheses, then only white space), the cleanup removes that trailing
    parenthetical and returns the trimmed text, both when the content
    contains one of the keywords and when it is at least 30 characters long. *)
Theorem cleanAmazonTitle_trailing (base c ws2 : jstr) :
  ~ In 40 base -> ~ In 40 c -> ~ In 41 c -> Forall (fun x => is_ws x = true) ws2 ->
  (exists c1 k c2, In k title_keywords /\ c = c1 ++ js k ++ c2) \/ (30 <= List.length c)%nat ->
  cleanAmazonTitle (base ++ 40 :: c ++ 41 :: ws2) = trim base.
Proof.
  intros Hb H40 H41 Hw Hc.
  assert (Wn : forall x w, is_ws x = false -> Forall (fun c => is_ws c = true) w -> ~ In x w).
  { intros x w Hx Fw Hin. rewrite Forall_forall in Fw. rewrite (Fw x Hin) in Hx. discriminate. }
  unfold cleanAmazonTitle.
  replace (nonempty (base ++ 40 :: c ++ 41 :: ws2)) with true by (destruct base; reflexivity).
  cbv zeta.
  destruct (re_replace_first_cases category_paren_re (base ++ 40 :: c ++ 41 :: ws2) [])
    as [[Ex E1]|[pre [mid [rest [Es [Hm E1]]]]]]; rewrite E1.
  - destruct Hc as [[c1 [k [c2 [Hk ->]]]]|Hlen].
    + exfalso.
      assert (Hc1 : ~ In 41 c1) by (intros H; apply H41; apply in_or_app; left; exact H).
      assert (Hc2 : ~ In 41 c2)
        by (intros H; apply H41; apply in_or_app; right; apply in_or_app; right; exact H).
      apply (exec_from_complete category_paren_re base _ [] 0
               (category_paren_complete c1 k c2 ws2 Hk Hc1 Hc2 Hw)).
      exact Ex.
    + replace (base ++ 40 :: c ++ 41 :: ws2) with (base ++ (40 :: c ++ [41]) ++ ws2)
        by (simpl; rewrite <- app_assoc; reflexivity).
      rewrite (trim_paren_tail base (40 :: c ++ [41]) ws2); [|discriminate|reflexivity| |exact Hw].
      2:{ cbn [rev]. rewrite rev_app_distr. reflexivity. }
      destruct (re_replace_first_cases long_paren_re (trim_start base ++ 40 :: c ++ [41]) [])
        as [[Ex2 _]|[pre [mid [rest [Es [Hm E2]]]]]].
      * exfalso.
        apply (exec_from_complete long_paren_re (trim_start base) (40 :: c ++ [41]) [] 0
                 (long_paren_complete c H41 Hlen)).
        exact Ex2.
      * rewrite E2. apply long_paren_inv in Hm as [w1 [w2 [w3 [-> [-> F1]]]]].
        rewrite !app_nil_r. rewrite app_assoc in Es. symmetry in Es.
        apply app_cons_unique in Es as [Ep _].
        -- rewrite <- (trim_app_ws pre w1 F1), Ep, trim_trim_start. reflexivity.
        -- intros H. apply Hb, In_trim_start, H.
        -- intros H. apply in_app_or in H as [H|[H|[]]]; [exact (H40 H)|discriminate].
  - apply category_paren_inv in Hm as [w1 [w2 [w3 [-> [F1 [N2 F3]]]]]].
    rewrite app_assoc in Es. symmetry in Es.
    apply app_cons_unique in Es as [Ep Er].
    2:{ exact Hb. }
    2:{ intros H. apply in_app_or in H as [H|[H|H]];
        [exact (H40 H)|discriminate|exact (Wn 40 ws2 eq_refl Hw H)]. }
    apply app_cons_unique in Er as [_ Er]; [|exact H41|exact (Wn 41 ws2 eq_refl Hw)].
    assert (Fr : Forall (fun x => is_ws x = true) rest)
      by (rewrite <- Er in Hw; apply Forall_app in Hw; apply Hw).
    assert (T1 : trim (pre ++ [] ++ rest) = trim base).
    { simpl. rewrite trim_app_ws by exact Fr. rewrite <- Ep, trim_app_ws by exact F1. reflexivity. }
    rewrite T1.
    destruct (re_replace_first_cases long_paren_re (trim base) [])
      as [[_ E2]|[pre2 [mid2 [rest2 [Es2 [Hm2 _]]]]]].
    + rewrite E2. apply trim_idem.
    + exfalso. apply long_paren_inv in Hm2 as [v1 [v2 [v3 [-> _]]]].
      apply Hb, (In_trim 40 base). rewrite Es2.
      apply in_or_app. right. apply in_or_app. right. left. reflexivity.
Qed.

Lemma cleanAmazonTitle_trailing_witness :
  cleanAmazonTitle (js "Some Book (Bird Books, Gift Books)") = js "Some Book".
Proof.
  change (js "Some Book (Bird Books, Gift Books)")
    with (js "Some Book " ++ 40 :: js "Bird Books, Gift Books" ++ 41 :: []).
  rewrite (cleanAmazonTitle_trailing (js "Some Book ") (js "Bird Books, Gift Books") []).
  - vm_compute. reflexivity.
  - vm_compute. intros H. repeat (destruct H as [H|H]; [discriminate|]). exact H.
  - vm_compute. intros H. repeat (destruct H as [H|H]; [discriminate|]). exact H.
  - vm_compute. intros H. repeat (destruct H as [H|H]; [discriminate|]). exact H.
  - constructor.
  - left. exists [], "Bird Books"%string, (js ", Gift Books"). split; [left; reflexivity|reflexivity].
Defined.

(* ------------------------------------------------------------------ *)
(** ** fetchSummary (C4, C5) *)

Lemma post_ret {A} (P : A -> Prop) a : P a -> post P (ret a).
Proof. intros H tr; exact H. Qed.

Lemma post_throw {A} (P : A -> Prop) e : post P (throw e).
Proof. intros tr; exact I. Qed.

Lemma post_bind {A B} (Q : A -> Prop) (P : B -> Prop) m k :
  post Q m -> (forall a, Q a -> post P (k a)) -> post P (bind m k).
Proof.
  intros Hm Hk tr. unfold bind. specialize (Hm tr).
  destruct (m tr) as [[e|a] tr'] eqn:E; simpl in *; [exact I|]. apply Hk; assumption.
Qed.

Lemma post_try {A} (P : A -> Prop) m hd : post P m -> post P hd -> post P (try_ m hd).
Proof.
  intros Hm Hh tr. unfold try_. specialize (Hm tr).
  destruct (m tr) as [[e|a] tr'] eqn:E; simpl in *; [apply Hh|exact Hm].
Qed.

Lemma post_opt_exn {A} (P : A -> Prop) e o : (forall a, o = Some a -> P a) -> post P (opt_exn e o).
Proof. intros H. destruct o; [apply post_ret; auto|apply post_throw]. Qed.

Lemma post_weaken {A} (P Q : A -> Prop) m : post P m -> (forall a, P a -> Q a) -> post Q m.
Proof. intros H HPQ tr. specialize (H tr). destruct (fst (m tr)); auto. Qed.

Lemma post_true {A} (m : M A) : post (fun _ => True) m.
Proof. intros tr. destruct (fst (m tr)); exact I. Qed.

Lemma try_ret_inr {A} (m : M A) (x : A) tr : exists a tr', try_ m (ret x) tr = (inr a, tr').
Proof. unfold try_, ret. destruct (m tr) as [[e|a] tr']; eauto. Qed.

Lemma try_post_ret {A} (P : A -> Prop) (m : M A) (x : A) tr :
  post P m -> P x -> exists a tr', try_ m (ret x) tr = (inr a, tr') /\ P a.
Proof.
  intros H Hx. specialize (H tr). unfold try_, ret.
  destruct (m tr) as [[e|a] tr']; simpl in *; eauto.
Qed.

Lemma length_trim_start s : (List.length (trim_start s) <= List.length s)%nat.
Proof. induction s as [|c s IH]; simpl; [lia|]. destruct (is_ws c); simpl; lia. Qed.

Lemma length_trim s : (List.length (trim s) <= List.length s)%nat.
Proof.
  unfold trim. rewrite length_rev. etransitivity; [apply length_trim_start|].
  rewrite length_rev. apply length_trim_start.
Qed.

Lemma length_collapse_aux b s : (List.length (collapse_ws_aux b s) <= List.length s)%nat.
Proof.
  revert b; induction s as [|c s IH]; intros b; simpl; [lia|].
  pose proof (IH true); pose proof (IH false).
  destruct (is_ws c), b; simpl; lia.
Qed.

Lemma length_strip_aux b s : (List.length (strip_tags_aux b s) <= List.length s)%nat.
Proof.
  revert b; induction s as [|c s IH]; intros b; simpl; [lia|].
  pose proof (IH true); pose proof (IH false).
  destruct b; [destruct (c =? 62)|destruct ((c =? 60) && existsb (Z.eqb 62) s)]; simpl; lia.
Qed.

Lemma length_clean s : (List.length (clean s) <= List.length s)%nat.
Proof.
  unfold clean, collapse_ws, strip_tags.
  etransitivity; [apply length_trim|]. etransitivity; [apply length_collapse_aux|].
  apply length_strip_aux.
Qed.

Lemma all_short_str s : short s -> all_short (JStr s).
Proof. intros H. constructor; [exact H|constructor]. Qed.

Lemma all_short_str_inv s : all_short (JStr s) -> short s.
Proof. intros H. inversion H; assumption. Qed.

Lemma short_len s : (List.length s <= 20)%nat -> short s.
Proof. unfold short; intros; pose proof (length_clean s); lia. Qed.

Lemma all_short_obj_get kvs k : all_short (JObj kvs) -> all_short (obj_get kvs k).
Proof.
  unfold all_short, obj_get. simpl. intros H.
  destruct (find _ (rev kvs)) as [[k' v]|] eqn:E; [|constructor].
  apply find_some in E as [Hin _]. apply in_rev in Hin.
  apply Forall_forall. intros x Hx. rewrite Forall_forall in H. apply H.
  apply in_flat_map. exists (k', v). auto.
Qed.

Lemma all_short_arr_in l v : all_short (JArr l) -> In v l -> all_short v.
Proof.
  unfold all_short. simpl. intros H Hin. apply Forall_forall. intros x Hx.
  rewrite Forall_forall in H. apply H. apply in_flat_map. eauto.
Qed.

Lemma all_short_or a b : all_short a -> all_short b -> all_short (or_ a b).
Proof. unfold or_. destruct (truthy a); auto. Qed.

Lemma all_short_nil : all_short (JStr []).
Proof. apply all_short_str, short_len. simpl. lia. Qed.

Lemma all_short_undef : all_short JUndef.
Proof. constructor. Qed.

Lemma post_get v k : all_short v -> post all_short (get v k).
Proof.
  intros H. destruct v; simpl; try apply post_throw; apply post_ret;
    try (destruct (String.eqb k "length"));
    try apply all_short_obj_get; try assumption; constructor.
Qed.

Lemma post_slice3 v : all_short v -> post (Forall all_short) (slice3 v).
Proof.
  intros H. destruct v; simpl; try apply post_throw; apply post_ret.
  - apply Forall_forall. intros x Hx. apply in_map_iff in Hx as [c [<- _]].
    apply all_short_str, short_len. simpl. lia.
  - apply Forall_forall. intros x Hx. apply (all_short_arr_in l); [exact H|].
    rewrite <- (firstn_skipn 3 l). apply in_or_app; left; exact Hx.
Qed.

Lemma post_as_string v : all_short v -> post short (as_string v).
Proof.
  intros H. destruct v; simpl; try apply post_throw. apply post_ret.
  apply all_short_str_inv; exact H.
Qed.

Lemma post_accept d : all_short d -> post (fun o => o = None) (accept d).
Proof.
  intros H. unfold accept. destruct (truthy d); [|apply post_ret; reflexivity].
  apply (post_bind short); [apply post_as_string; exact H|].
  intros s Hs. apply post_ret. unfold short in Hs.
  destruct (Nat.ltb 20 (List.length (clean s))) eqn:E; [|reflexivity].
  apply Nat.ltb_lt in E. lia.
Qed.

Lemma post_json_of r : resp_ok r -> post all_short (json_of r).
Proof. intros H. unfold json_of. apply post_opt_exn. exact H. Qed.

Lemma all_short_first l : all_short (JArr l) -> all_short (or_ (nth 0 l JUndef) (JStr [])).
Proof.
  intros H. apply all_short_or; [|apply all_short_nil].
  destruct l as [|x l]; [apply all_short_undef|]. apply (all_short_arr_in (x :: l)); simpl; auto.
Qed.

Lemma stage_none {A} (body : M (option A)) tr :
  post (fun o => o = None) body -> exists tr', try_ body (ret None) tr = (inr None, tr').
Proof.
  intros H. specialize (H tr). unfold try_, ret.
  destruct (body tr) as [[e|o] tr']; simpl in *; [eauto|subst; eauto].
Qed.

Section AllShort.
Variable h : host.
Hypothesis Hnet : forall u r v, net h u = NetResp r -> json r = Some v -> all_short v.

Lemma post_request u : post resp_ok (request h u).
Proof.
  intros tr. unfold request. simpl. destruct (net h u) eqn:E; [exact I|].
  intros v Hv. eapply Hnet; eauto.
Qed.

Lemma post_json_200 r : resp_ok r ->
  post all_short (if status r =? 200 then json_of r else ret JUndef).
Proof.
  intros H. destruct (status r =? 200); [apply post_json_of; exact H|apply post_ret, all_short_undef].
Qed.

Lemma work_fetch_short key d : all_short d -> post all_short (work_fetch h key d).
Proof.
  intros Hd. unfold work_fetch. apply post_try; [|apply post_ret; exact Hd].
  apply (post_bind (fun _ => True)); [apply post_true|]. intros k _.
  apply (post_bind resp_ok); [apply post_request|]. intros r Hr.
  apply (post_bind all_short); [apply post_json_200; exact Hr|]. intros j _.
  destruct (_ && _); [|apply post_ret; exact Hd].
  apply (post_bind all_short); [apply post_json_of; exact Hr|]. intros wd Hwd.
  apply (post_bind all_short); [apply post_get; exact Hwd|]. intros w Hw.
  apply (post_bind all_short).
  { destruct (nullish w); [apply post_ret, all_short_undef|apply post_get; exact Hw]. }
  intros v Hv. apply post_ret. apply all_short_or; [exact Hv|].
  apply all_short_or; [exact Hw|apply all_short_nil].
Qed.

Lemma docs_loop_none l : Forall all_short l -> post (fun o => o = None) (docs_loop h l).
Proof.
  induction l as [|doc l IH]; intros Hl; simpl; [apply post_ret; reflexivity|].
  inversion Hl as [|? ? Hdoc Hl']; subst.
  apply (post_bind all_short); [apply post_get; exact Hdoc|]. intros fs Hfs.
  apply (post_bind all_short).
  { destruct (truthy fs); [apply post_ret; exact Hfs|].
    apply (post_bind all_short); [apply post_get; exact Hdoc|].
    intros dd Hdd. apply post_ret, all_short_or; [exact Hdd|apply all_short_nil]. }
  intros d0 Hd0. cbv zeta.
  assert (Hd1 : all_short (match d0 with JArr l => or_ (nth 0 l JUndef) (JStr []) | v => v end)).
  { destruct d0; try exact Hd0. apply all_short_first; exact Hd0. }
  apply (post_bind all_short).
  { destruct (truthy _); [apply post_ret; exact Hd1|].
    apply (post_bind all_short); [apply post_get; exact Hdoc|]. intros key _.
    destruct (truthy key); [apply work_fetch_short; exact Hd1|apply post_ret; exact Hd1]. }
  intros description Hdesc.
  apply (post_bind (fun o => o = None)); [apply post_accept; exact Hdesc|].
  intros res ->. apply IH; exact Hl'.
Qed.

Lemma items_loop_none l : Forall all_short l -> post (fun o => o = None) (items_loop l).
Proof.
  induction l as [|item l IH]; intros Hl; simpl; [apply post_ret; reflexivity|].
  inversion Hl as [|? ? Hitem Hl']; subst.
  apply (post_bind all_short); [apply post_get; exact Hitem|]. intros vi Hvi. cbv zeta.
  assert (Hv : all_short (or_ vi (JObj []))) by (apply all_short_or; [exact Hvi|constructor]).
  apply (post_bind all_short); [apply post_get; exact Hv|]. intros d1 Hd1.
  apply (post_bind all_short).
  { destruct (truthy d1); [apply post_ret; exact Hd1|].
    apply (post_bind all_short); [apply post_get; exact Hv|]. intros d2 Hd2.
    destruct (truthy d2); [apply post_ret; exact Hd2|].
    apply (post_bind all_short); [apply post_get; exact Hv|]. intros d3 Hd3.
    apply post_ret, all_short_or; [exact Hd3|apply all_short_nil]. }
  intros description Hdesc.
  apply (post_bind (fun o => o = None)); [apply post_accept; exact Hdesc|].
  intros res ->. apply IH; exact Hl'.
Qed.

Lemma isbn_stage_none s tr : exists tr', isbn_stage h s tr = (inr None, tr').
Proof.
  unfold isbn_stage. apply stage_none.
  apply (post_bind resp_ok); [apply post_request|]. intros r Hr.
  apply (post_bind all_short); [apply post_json_200; exact Hr|]. intros j _.
  destruct (_ && _); [|apply post_ret; reflexivity].
  apply (post_bind all_short); [apply post_json_of; exact Hr|]. intros data Hdata.
  apply (post_bind all_short); [apply post_get; exact Hdata|]. intros d Hd.
  apply (post_bind all_short).
  { destruct (truthy d); [|apply post_ret, all_short_nil].
    destruct (is_str d); [apply post_ret; exact Hd|].
    apply (post_bind all_short); [apply post_get; exact Hd|].
    intros v Hv. apply post_ret, all_short_or; [exact Hv|apply all_short_nil]. }
  intros description Hdesc. apply post_accept; exact Hdesc.
Qed.

Lemma search_stage_none t a tr : exists tr', search_stage h t a tr = (inr None, tr').
Proof.
  unfold search_stage. apply stage_none.
  apply (post_bind (fun _ => True)); [apply post_true|]. intros et _.
  apply (post_bind (fun _ => True)); [apply post_true|]. intros ea _.
  apply (post_bind resp_ok); [apply post_request|]. intros r Hr.
  apply (post_bind all_short); [apply post_json_200; exact Hr|]. intros j _.
  destruct (_ && _); [|apply post_ret; reflexivity].
  apply (post_bind all_short); [apply post_json_of; exact Hr|]. intros data Hdata.
  apply (post_bind all_short); [apply post_get; exact Hdata|]. intros docs Hdocs.
  apply (post_bind (fun _ => True)); [apply post_true|]. intros len _.
  destruct (_ && _); [|apply post_ret; reflexivity].
  apply (post_bind (Forall all_short)); [apply post_slice3; exact Hdocs|].
  intros items Hitems. apply docs_loop_none; exact Hitems.
Qed.

Lemma google_stage_none t a i tr : exists tr', google_stage h t a i tr = (inr None, tr').
Proof.
  unfold google_stage. apply stage_none. cbv zeta.
  apply (post_bind (fun _ => True)); [apply post_true|]. intros q _.
  apply (post_bind resp_ok); [apply post_request|]. intros r Hr.
  destruct (status r =? 200); [|apply post_ret; reflexivity].
  apply (post_bind all_short); [apply post_json_of; exact Hr|]. intros data Hdata.
  apply (post_bind all_short); [apply post_get; exact Hdata|]. intros its Hits.
  apply (post_bind (fun _ => True)); [apply post_true|]. intros len _.
  destruct (_ && _); [|apply post_ret; reflexivity].
  apply (post_bind (Forall all_short)); [apply post_slice3; exact Hits|].
  intros items Hitems. apply items_loop_none; exact Hitems.
Qed.

Lemma fetchSummary_all_short t a i tr : exists tr', fetchSummary h t a i tr = (inr [], tr').
Proof.
  unfold fetchSummary, isbn_lookup, bind at 1.
  destruct (match isbn_ok i with Some s => isbn_stage h s | None => ret None end tr) as [o1 tr1] eqn:E1.
  assert (o1 = inr None) as ->.
  { destruct (isbn_ok i) as [s|].
    - destruct (isbn_stage_none s tr) as [tr1' E]. rewrite E in E1. congruence.
    - unfold ret in E1. congruence. }
  unfold bind at 1. destruct (search_stage_none t a tr1) as [tr2 E2]. rewrite E2.
  unfold bind. destruct (google_stage_none t a i tr2) as [tr3 E3]. rewrite E3.
  exists tr3. reflexivity.
Qed.

End AllShort.

Lemma stage_inr {A} (body : M (option A)) tr :
  exists o tr', try_ body (ret None) tr = (inr o, tr').
Proof. unfold try_, ret. destruct (body tr) as [[e|o] tr']; eauto. Qed.

Lemma isbn_stage_fail h s tr :
  fails h (isbn_url s) -> isbn_stage h s tr = (inr None, tr ++ [isbn_url s]).
Proof.
  intros [E|[r [E Hs]]]; unfold isbn_stage, try_, bind, request; rewrite E; [reflexivity|].
  apply Z.eqb_neq in Hs. rewrite Hs. reflexivity.
Qed.

Lemma search_stage_fail h t a et ea tr :
  encodeURIComponent h (cleanTitle t) = Some et ->
  encodeURIComponent h (cleanAuthor a) = Some ea ->
  fails h (search_url et ea) -> search_stage h t a tr = (inr None, tr ++ [search_url et ea]).
Proof.
  intros Et Ea [E|[r [E Hs]]]; unfold search_stage, try_, bind, opt_exn, request;
    rewrite Et, Ea; unfold ret; rewrite E; [reflexivity|].
  apply Z.eqb_neq in Hs. rewrite Hs. reflexivity.
Qed.

Lemma google_stage_fail h t a i q tr :
  encodeURIComponent h (match isbn_ok i with Some s => js "isbn:" ++ s
                        | None => cleanTitle t ++ [32] ++ cleanAuthor a end) = Some q ->
  fails h (google_url q) -> google_stage h t a i tr = (inr None, tr ++ [google_url q]).
Proof.
  intros Eq [E|[r [E Hs]]]; unfold google_stage, try_, bind, opt_exn, request;
    cbv zeta; rewrite Eq; unfold ret; rewrite E; [reflexivity|].
  apply Z.eqb_neq in Hs. rewrite Hs. reflexivity.
Qed.

Lemma isbn_stage_inr h s tr : exists o tr', isbn_stage h s tr = (inr o, tr').
Proof. apply stage_inr. Qed.

Lemma search_stage_inr h t a tr : exists o tr', search_stage h t a tr = (inr o, tr').
Proof. apply stage_inr. Qed.

Lemma google_stage_inr h t a i tr : exists o tr', google_stage h t a i tr = (inr o, tr').
Proof. apply stage_inr. Qed.

Lemma fetchSummary_never_throws h t a i tr : exists s tr', fetchSummary h t a i tr = (inr s, tr').
Proof.
  unfold fetchSummary, isbn_lookup, bind at 1.
  destruct (match isbn_ok i with Some s => isbn_stage h s | None => ret None end tr) as [o1 tr1] eqn:E1.
  assert (exists x, o1 = inr x) as [x1 ->].
  { destruct (isbn_ok i) as [s|].
    - destruct (isbn_stage_inr h s tr) as [o [tr' E]].
      rewrite E in E1. injection E1 as <- _. eauto.
    - unfold ret in E1. injection E1 as <- _. eauto. }
  destruct x1 as [d|]; [unfold ret; eauto|].
  unfold bind at 1.
  destruct (search_stage_inr h t a tr1) as [[d|] [tr2 E2]]; rewrite E2; [unfold ret; eauto|].
  unfold bind.
  destruct (google_stage_inr h t a i tr2) as [[d|] [tr3 E3]]; rewrite E3; unfold ret; eauto.
Qed.

Lemma keeps_ret {A} (a : A) : keeps (ret a).
Proof. intros tr; reflexivity. Qed.

Lemma keeps_throw {A} e : keeps (A := A) (throw e).
Proof. intros tr; reflexivity. Qed.

Lemma keeps_opt_exn {A} e (o : option A) : keeps (opt_exn e o).
Proof. destruct o; intros tr; reflexivity. Qed.

Lemma keeps_bind {A B} (m : M A) (k : A -> M B) :
  keeps m -> (forall a, keeps (k a)) -> keeps (bind m k).
Proof.
  intros Hm Hk tr. unfold bind. specialize (Hm tr).
  destruct (m tr) as [[e|a] tr'] eqn:E; simpl in *; [exact Hm|]. rewrite Hk. exact Hm.
Qed.

Lemma keeps_get v k : keeps (get v k).
Proof. destruct v; intros tr; reflexivity. Qed.

Lemma keeps_accept d : keeps (accept d).
Proof.
  unfold accept. destruct (truthy d); [|apply keeps_ret].
  apply keeps_bind; [destruct d; intros tr; reflexivity|]. intros s; apply keeps_ret.
Qed.

Lemma bind_request_snd {B} h u (k : response -> M B) tr :
  (forall r, keeps (k r)) -> snd (bind (request h u) k tr) = tr ++ [u].
Proof.
  intros Hk. unfold bind, request. destruct (net h u); [reflexivity|]. apply Hk.
Qed.

Lemma try_ret_snd {A} (m : M A) x tr : snd (try_ m (ret x) tr) = snd (m tr).
Proof. unfold try_, ret. destruct (m tr) as [[e|a] tr']; reflexivity. Qed.

Lemma isbn_stage_trace h s tr : snd (isbn_stage h s tr) = tr ++ [isbn_url s].
Proof.
  unfold isbn_stage. rewrite try_ret_snd. apply bind_request_snd. intros r.
  apply keeps_bind; [destruct (_ =? _); [apply keeps_opt_exn|apply keeps_ret]|]. intros j.
  destruct (_ && _); [|apply keeps_ret].
  apply keeps_bind; [apply keeps_opt_exn|]. intros data.
  apply keeps_bind; [apply keeps_get|]. intros d.
  apply keeps_bind; [|intros; apply keeps_accept].
  destruct (truthy d); [|apply keeps_ret]. destruct (is_str d); [apply keeps_ret|].
  apply keeps_bind; [apply keeps_get|]. intros; apply keeps_ret.
Qed.

Lemma post_accept_accepted d : post accepted (accept d).
Proof.
  unfold accept. destruct (truthy d); [|apply post_ret; exact I].
  apply (post_bind (fun _ => True)); [apply post_true|]. intros s _.
  apply post_ret. destruct (Nat.ltb 20 (List.length (clean s))) eqn:E; [|exact I].
  apply Nat.ltb_lt in E. exists s. split; [exact E|]. split; [reflexivity|].
  etransitivity; [apply length_trim|]. apply firstn_le_length.
Qed.

Lemma isbn_stage_accepted h s : post accepted (isbn_stage h s).
Proof.
  unfold isbn_stage. apply post_try; [|apply post_ret; exact I].
  apply (post_bind (fun _ => True)); [apply post_true|]. intros r _.
  apply (post_bind (fun _ => True)); [apply post_true|]. intros j _.
  destruct (_ && _); [|apply post_ret; exact I].
  apply (post_bind (fun _ => True)); [apply post_true|]. intros data _.
  apply (post_bind (fun _ => True)); [apply post_true|]. intros d _.
  apply (post_bind (fun _ => True)); [apply post_true|]. intros desc _.
  apply post_accept_accepted.
Qed.

Lemma isbn_ok_long isbn : (5 < List.length isbn)%nat -> isbn_ok (Some isbn) = Some isbn.
Proof.
  intros H. unfold isbn_ok. destruct isbn as [|c s]; simpl in H; [lia|].
  simpl nonempty. apply Nat.ltb_lt in H. simpl. simpl in H. rewrite H. reflexivity.
Qed.

Lemma fetchSummary_isbn_first h t a isbn d tr tr' :
  (5 < List.length isbn)%nat -> isbn_stage h isbn tr = (inr (Some d), tr') ->
  fetchSummary h t a (Some isbn) tr = (inr d, tr ++ [isbn_url isbn]) /\ accepted (Some d).
Proof.
  intros Hl E. pose proof (isbn_stage_trace h isbn tr) as Ht. rewrite E in Ht. simpl in Ht. subst tr'.
  split.
  - unfold fetchSummary, isbn_lookup, bind at 1. rewrite isbn_ok_long by exact Hl. rewrite E. reflexivity.
  - pose proof (isbn_stage_accepted h isbn tr) as Hp. rewrite E in Hp. exact Hp.
Qed.

Lemma isbn_stage_description h isbn r kvs desc tr :
  net h (isbn_url isbn) = NetResp r -> status r = 200 -> json r = Some (JObj kvs) ->
  obj_get kvs (js "description") = JStr desc -> (20 < List.length (clean desc))%nat ->
  isbn_stage h isbn tr = (inr (Some (trim (firstn 500 (clean desc)))), tr ++ [isbn_url isbn]).
Proof.
  intros En Es Ej Ed Hc.
  assert (Hne : nonempty desc = true).
  { pose proof (length_clean desc). destruct desc; [simpl in *; lia|reflexivity]. }
  apply Nat.ltb_lt in Hc.
  unfold isbn_stage, try_, bind, request. rewrite En, Es.
  unfold json_of, opt_exn. rewrite Ej.
  cbn -[clean trim firstn js obj_get Nat.ltb]. rewrite Ed.
  cbn -[clean trim firstn js obj_get Nat.ltb nonempty]. rewrite Hne.
  cbn -[clean trim firstn js obj_get Nat.ltb nonempty].
  unfold accept. cbv [truthy]. rewrite Hne. unfold bind, ret, as_string. unfold ret. cbv beta iota zeta. rewrite Hc. reflexivity.
Qed.

Lemma fetchSummary_sequence h t a i tr tr1 tr2 o tr3 :
  isbn_lookup h i tr = (inr None, tr1) -> search_stage h t a tr1 = (inr None, tr2) ->
  google_stage h t a i tr2 = (inr o, tr3) ->
  fetchSummary h t a i tr = (inr (match o with Some d => d | None => [] end), tr3).
Proof.
  intros E1 E2 E3. unfold fetchSummary, bind. rewrite E1, E2, E3. destruct o; reflexivity.
Qed.

(** C5: [fetchSummary] never throws; in each of its three stages a request
    that throws or answers with a status other than 200 makes the stage end
    normally with nothing found (having made that one request), and when all
    three stages find nothing the result is the empty string. *)
Theorem fetchSummary_no_exception :
  (forall h t a i tr, exists s tr', fetchSummary h t a i tr = (inr s, tr'))
  /\ (forall h s tr, fails h (isbn_url s) -> isbn_stage h s tr = (inr None, tr ++ [isbn_url s]))
  /\ (forall h t a et ea tr,
        encodeURIComponent h (cleanTitle t) = Some et ->
        encodeURIComponent h (cleanAuthor a) = Some ea ->
        fails h (search_url et ea) -> search_stage h t a tr = (inr None, tr ++ [search_url et ea]))
  /\ (forall h t a i q tr,
        encodeURIComponent h (match isbn_ok i with Some s => js "isbn:" ++ s
                              | None => cleanTitle t ++ [32] ++ cleanAuthor a end) = Some q ->
        fails h (google_url q) -> google_stage h t a i tr = (inr None, tr ++ [google_url q]))
  /\ (forall h t a i tr tr1 tr2 o tr3,
        isbn_lookup h i tr = (inr None, tr1) -> search_stage h t a tr1 = (inr None, tr2) ->
        google_stage h t a i tr2 = (inr o, tr3) ->
        fetchSummary h t a i tr = (inr (match o with Some d => d | None => [] end), tr3)).
Proof.
  split; [exact fetchSummary_never_throws|].
  split; [exact isbn_stage_fail|].
  split; [exact search_stage_fail|].
  split; [exact google_stage_fail|].
  exact fetchSummary_sequence.
Qed.

(* ------------------------------------------------------------------ *)
(** ** findBookDetails and findDescription (C3) *)

Lemma unvisited_mono vis vis' n :
  (forall x, In x vis -> In x vis') -> (unvisited vis' n <= unvisited vis n)%nat.
Proof.
  intros Hi. induction n as [|m IH]; simpl; [lia|].
  destruct (existsb (Nat.eqb m) vis) eqn:E.
  - apply existsb_exists in E as [x [Hx Hm]]. apply Nat.eqb_eq in Hm. subst x.
    assert (existsb (Nat.eqb m) vis' = true) as ->.
    { apply existsb_exists. exists m. split; [auto|apply Nat.eqb_refl]. }
    lia.
  - destruct (existsb (Nat.eqb m) vis'); lia.
Qed.

Lemma unvisited_cons_ge l vis n : (n <= l)%nat -> unvisited (l :: vis) n = unvisited vis n.
Proof.
  induction n as [|m IH]; intros Hl; [reflexivity|]. simpl.
  assert (Nat.eqb m l = false) as -> by (apply Nat.eqb_neq; lia). simpl.
  rewrite IH by lia. reflexivity.
Qed.

Lemma unvisited_cons l vis n :
  (l < n)%nat -> existsb (Nat.eqb l) vis = false -> (unvisited (l :: vis) n + 1 = unvisited vis n)%nat.
Proof.
  induction n as [|m IH]; intros Hl Hv; [lia|]. simpl.
  destruct (Nat.eq_dec m l) as [->|Hne].
  - rewrite Nat.eqb_refl, Hv. simpl. rewrite unvisited_cons_ge by lia. lia.
  - assert (Nat.eqb m l = false) as -> by (apply Nat.eqb_neq; exact Hne). simpl.
    rewrite <- IH by (try assumption; lia). lia.
Qed.

Section Graph.
Variable heap : list hnode.

Lemma enter_some v vis l n :
  enter heap v vis = Some (l, n) ->
  v = Ref l /\ (l < List.length heap)%nat /\ existsb (Nat.eqb l) vis = false /\ nth_error heap l = Some n.
Proof.
  destruct v as [p|l']; simpl; [discriminate|].
  destruct (existsb (Nat.eqb l') vis) eqn:Ev; [discriminate|].
  destruct (nth_error heap l') as [[]|] eqn:En; try discriminate; intros H; injection H as <- <-;
    (split; [reflexivity|split; [apply nth_error_Some; congruence|split; assumption]]).
Qed.

Lemma findBookDetails_total fuel v vis :
  (unvisited vis (List.length heap) < fuel)%nat ->
  exists r vis', findBookDetails heap fuel v vis = Some (r, vis') /\ grows vis vis'.
Proof.
  revert v vis. induction fuel as [|f IH]; intros v vis Hf; [lia|].
  simpl. destruct (enter heap v vis) as [[l n]|] eqn:E.
  2: { exists None, vis. split; [reflexivity|intros x Hx; exact Hx]. }
  apply enter_some in E as (-> & Hl & Hv & Hn).
  pose proof (unvisited_cons l vis (List.length heap) Hl Hv) as Hu.
  assert (G1 : grows vis (l :: vis)) by (intros x Hx; right; exact Hx).
  destruct (isBookDetails n).
  { exists (Some l), (l :: vis). split; [reflexivity|exact G1]. }
  assert (Hd : exists r vis2, (match hget n "details" with
            | Ref d => if is_object_ref heap d then findBookDetails heap f (Ref d) (l :: vis)
                       else Some (None, l :: vis)
            | _ => Some (None, l :: vis)
            end) = Some (r, vis2) /\ grows (l :: vis) vis2).
  { destruct (hget n "details") as [p|d];
      [|destruct (is_object_ref heap d); [apply IH; lia|]];
      exists None, (l :: vis); split; try reflexivity; intros x Hx; exact Hx. }
  destruct Hd as [r [vis2 [Ed G2]]]. rewrite Ed.
  destruct r as [r|].
  { exists (Some r), vis2. split; [reflexivity|intros x Hx; apply G2, G1, Hx]. }
  assert (G : grows vis vis2) by (intros x Hx; apply G2, G1, Hx).
  assert (Hu2 : (unvisited vis2 (List.length heap) < f)%nat).
  { pose proof (unvisited_mono _ _ (List.length heap) G2). lia. }
  clear Ed G2. revert vis2 G Hu2. generalize (hvalues n) as items.
  induction items as [|it rest IHi]; intros vis2 G Hu2; [exists None, vis2; split; [reflexivity|exact G]|].
  cbn beta iota. destruct (IH it vis2 Hu2) as [r3 [vis3 [E3 G3]]]. rewrite E3.
  destruct r3 as [r3|]; [exists (Some r3), vis3; split; [reflexivity|intros x Hx; apply G3, G, Hx]|].
  apply IHi; [intros x Hx; apply G3, G, Hx|].
  pose proof (unvisited_mono _ _ (List.length heap) G3). lia.
Qed.

Lemma findDescription_total fuel v vis :
  (unvisited vis (List.length heap) < fuel)%nat ->
  exists r vis', findDescription heap fuel v vis = Some (r, vis') /\ grows vis vis'.
Proof.
  revert v vis. induction fuel as [|f IH]; intros v vis Hf; [lia|].
  simpl. destruct (enter heap v vis) as [[l n]|] eqn:E.
  2: { exists None, vis. split; [reflexivity|intros x Hx; exact Hx]. }
  apply enter_some in E as (-> & Hl & Hv & Hn).
  pose proof (unvisited_cons l vis (List.length heap) Hl Hv) as Hu.
  assert (G1 : grows vis (l :: vis)) by (intros x Hx; right; exact Hx).
  destruct (match hget n "description" with
            | Prim (PStr s) => if Nat.ltb 50 (List.length s) then Some s else None
            | _ => None end) as [s|].
  { exists (Some s), (l :: vis). split; [reflexivity|exact G1]. }
  assert (Hu1 : (unvisited (l :: vis) (List.length heap) < f)%nat) by lia.
  revert G1 Hu1. generalize (l :: vis) as vis2. generalize (hvalues n) as items.
  induction items as [|it rest IHi]; intros vis2 G Hu2; [exists None, vis2; split; [reflexivity|exact G]|].
  cbn beta iota. destruct (IH it vis2 Hu2) as [r3 [vis3 [E3 G3]]]. rewrite E3.
  destruct r3 as [r3|]; [exists (Some r3), vis3; split; [reflexivity|intros x Hx; apply G3, G, Hx]|].
  apply IHi; [intros x Hx; apply G3, G, Hx|].
  pose proof (unvisited_mono _ _ (List.length heap) G3). lia.
Qed.

End Graph.

Lemma unvisited_nil n : unvisited [] n = n.
Proof. induction n as [|m IH]; simpl; [reflexivity|rewrite IH; lia]. Qed.

(** C3: both searches over an object graph of [n] cells finish within a
    recursion depth of [n + 1], whatever the sharing and cycles of the graph:
    every cell entered is added to [visited] and never entered again. *)
Theorem nextData_searches_terminate (heap : list hnode) (v : hval) :
  (exists r vis, findBookDetails heap (S (List.length heap)) v [] = Some (r, vis))
  /\ (exists r vis, findDescription heap (S (List.length heap)) v [] = Some (r, vis)).
Proof.
  split.
  - destruct (findBookDetails_total heap (S (List.length heap)) v []) as [r [vis [E _]]];
      [rewrite unvisited_nil; lia|eauto].
  - destruct (findDescription_total heap (S (List.length heap)) v []) as [r [vis [E _]]];
      [rewrite unvisited_nil; lia|eauto].
Qed.

(** A self-referencing object and a two-cell cycle. *)
Example cyclic_graph_search :
  findBookDetails [NObj [(js "self", Ref 0); (js "details", Ref 0)]] 2 (Ref 0) [] = Some (None, [0%nat])
  /\ findDescription [NArr [Ref 1]; NObj [(js "up", Ref 0); (js "description", Prim (PStr (js "short")))]] 3 (Ref 0) []
     = Some (None, [1%nat; 0%nat]).
Proof. split; vm_compute; reflexivity. Qed.

(* ------------------------------------------------------------------ *)
(** ** The records of fetchBookData (C1) *)

Lemma nullish_truthy x : truthy x = true -> nullish x = false.
Proof. destruct x; simpl; congruence. Qed.

Lemma nullish_or_empty x : nullish (or_ x (JStr [])) = false.
Proof. unfold or_. destruct (truthy x) eqn:E; [apply nullish_truthy; exact E|reflexivity]. Qed.

Lemma nullish_or a b : nullish b = false -> nullish (or_ a b) = false.
Proof. intros Hb. unfold or_. destruct (truthy a) eqn:E; [apply nullish_truthy; exact E|exact Hb]. Qed.

Lemma is_str_or_empty s : is_str (or_ (JStr s) (JStr [])) = true.
Proof. unfold or_. destruct (truthy (JStr s)); reflexivity. Qed.

Lemma nullish_text_or_empty o : nullish (text_or_empty o) = false.
Proof. apply nullish_or_empty. Qed.

Lemma is_str_text_or_empty o : is_str (text_or_empty o) = true.
Proof. unfold text_or_empty, or_. destruct o; simpl; [destruct (nonempty _)|]; reflexivity. Qed.

Lemma nullish_opt_or_empty o : nullish (opt_or_empty o) = false.
Proof. apply nullish_or_empty. Qed.

Lemma is_str_opt_or_empty o : is_str (opt_or_empty o) = true.
Proof. unfold opt_or_empty, or_. destruct o; simpl; [destruct (nonempty _)|]; reflexivity. Qed.

Ltac rec_ok_tac :=
  split; [reflexivity|split];
  repeat constructor; simpl;
  repeat match goal with
         | |- context [nullish (or_ _ (JStr []))] => rewrite nullish_or_empty
         | |- context [is_str (or_ (JStr _) (JStr []))] => rewrite is_str_or_empty
         | |- context [nullish (text_or_empty _)] => rewrite nullish_text_or_empty
         | |- context [is_str (text_or_empty _)] => rewrite is_str_text_or_empty
         | |- context [nullish (opt_or_empty _)] => rewrite nullish_opt_or_empty
         | |- context [is_str (opt_or_empty _)] => rewrite is_str_opt_or_empty
         | |- context [if ?b then _ else _] => destruct b eqn:?
         end;
  try reflexivity; try (intros; reflexivity);
  try (intros H; repeat destruct H as [H|H]; (discriminate || contradiction));
  try (apply nullish_truthy; assumption);
  try (repeat apply nullish_or; reflexivity).

Lemma fidibo_ok p url : rec_ok book_fields book_fields (fidibo_record p url).
Proof. unfold fidibo_record. rec_ok_tac. Qed.

Section Records.
Variable to_String : jsval -> jstr.

Lemma taaghche_ok p url kvs : post (rec_ok book_fields str_fields) (taaghche_record to_String p url kvs).
Proof.
  unfold taaghche_record.
  apply (post_bind (fun _ => True)); [apply post_true|]. intros author _.
  apply (post_bind (fun _ => True)); [apply post_true|]. intros wt _.
  apply (post_bind (fun _ => True)); [apply post_true|]. intros translator _. cbv zeta.
  apply (post_bind (fun _ => True)); [apply post_true|]. intros nop _.
  apply (post_bind (fun _ => True)); [apply post_true|]. intros pub _.
  apply (post_bind (fun _ => True)); [apply post_true|]. intros pubname _.
  apply (post_bind (fun _ => True)); [apply post_true|]. intros dp _.
  apply (post_bind (fun _ => True)); [apply post_true|]. intros lang _.
  apply post_ret. rec_ok_tac.
Qed.

Lemma goodreads_ok p url kvs : post (rec_ok all_fields str_fields) (goodreads_record to_String p url kvs).
Proof.
  unfold goodreads_record.
  apply (post_bind (fun _ => True)); [apply post_true|]. intros author _. cbv zeta.
  apply post_ret. rec_ok_tac.
Qed.

Lemma amazon_ok p url : post (rec_ok amazon_fields all_fields) (amazon_record p url).
Proof.
  unfold amazon_record. cbv zeta.
  apply (post_bind (fun t => is_str t = true)).
  { destruct (truthy _) eqn:Et.
    - apply (post_bind (fun _ => True)); [apply post_true|]. intros s _. apply post_ret. reflexivity.
    - destruct (negb _ && _) eqn:E; [|apply post_ret; reflexivity].
      apply andb_true_iff in E as [_ E]. congruence. }
  intros title Ht. apply post_ret.
  split; [reflexivity|split].
  - repeat constructor. apply nullish_or_empty.
  - repeat constructor. intros _. simpl. unfold or_. destruct (truthy title); [exact Ht|reflexivity].
Qed.

End Records.

Lemma body_result {A} (m : M A) (k : A -> option BookObj) o P :
  post P m -> match fst ((r <- m ;; ret (k r)) []) with inr x => x | inl _ => None end = Some o ->
  exists r, P r /\ k r = Some o.
Proof.
  intros Hp H. specialize (Hp []). unfold bind, ret in H.
  destruct (m []) as [[e|r] tr'] eqn:E; simpl in *; [discriminate|]. eauto.
Qed.

Lemma fetchBookData_cases to_String url source p o :
  fetchBookData to_String url source p = Some o ->
  (source = "taaghche"%string /\ rec_ok book_fields str_fields o)
  \/ (source = "fidibo"%string /\ rec_ok book_fields book_fields o)
  \/ (source = "goodreads"%string /\ rec_ok all_fields str_fields o)
  \/ (source = "amazon"%string /\ rec_ok amazon_fields all_fields o).
Proof.
  unfold fetchBookData. cbv zeta.
  destruct (String.eqb source "taaghche") eqn:E1; [apply String.eqb_eq in E1; subst|].
  { destruct (jsonLd p) as [kvs|]; [|discriminate].
    intros H. apply body_result with (P := rec_ok book_fields str_fields) in H
      as [r [Hr Ho]]; [|apply taaghche_ok]. injection Ho as <-. left; auto. }
  destruct (String.eqb source "fidibo") eqn:E2; [apply String.eqb_eq in E2; subst|].
  { intros H. injection H as <-. right; left. split; [reflexivity|apply fidibo_ok]. }
  destruct (String.eqb source "goodreads") eqn:E3; [apply String.eqb_eq in E3; subst|].
  { destruct (jsonLd p) as [kvs|]; [|discriminate].
    intros H. apply body_result with (P := rec_ok all_fields str_fields) in H
      as [r [Hr Ho]]; [|apply goodreads_ok]. injection Ho as <-. right; right; left; auto. }
  destruct (String.eqb source "amazon") eqn:E4; [apply String.eqb_eq in E4; subst|discriminate].
  intros H. apply body_result with (P := rec_ok amazon_fields all_fields) in H
    as [r [Hr Ho]]; [|apply amazon_ok]. injection Ho as <-. right; right; right; auto.
Qed.

Lemma rec_ok_facts keys strs o :
  rec_ok keys strs o ->
  (forall k, In k (map fst o) <-> In k keys)
  /\ (forall k v, In (k, v) o -> nullish v = false)
  /\ (forall k v, In (k, v) o -> In k strs -> is_str v = true).
Proof.
  intros (Hk & Hn & Hs). split; [rewrite Hk; tauto|split].
  - intros k v Hin. rewrite Forall_forall in Hn. exact (Hn (k, v) Hin).
  - intros k v Hin. rewrite Forall_forall in Hs. exact (Hs (k, v) Hin).
Qed.

(** C1: a record returned by [fetchBookData] has the properties title,
    author, pages, cover, publisher, translator, datepublished, language, url
    and description; it has [isbn] exactly when it comes from Goodreads or
    Amazon; no property is [null] or [undefined]; author, pages, translator and
    url are strings; every property of a Fidibo or Amazon record is a string. *)
Theorem fetchBookData_fields to_String url source p o :
  fetchBookData to_String url source p = Some o ->
  (forall k, In k book_fields -> In k (map fst o))
  /\ (In "isbn"%string (map fst o) <-> source = "goodreads"%string \/ source = "amazon"%string)
  /\ (forall k v, In (k, v) o -> nullish v = false)
  /\ (forall k v, In (k, v) o -> In k str_fields -> is_str v = true)
  /\ (source = "fidibo"%string \/ source = "amazon"%string -> forall k v, In (k, v) o -> is_str v = true).
Proof.
  intros H. apply fetchBookData_cases in H.
  destruct H as [[-> H]|[[-> H]|[[-> H]|[-> H]]]]; apply rec_ok_facts in H as (Hk & Hn & Hs);
    (split; [intros k Hin; apply Hk; simpl in *; tauto|]);
    (split; [rewrite Hk; simpl; split; intros Hi;
             repeat destruct Hi as [Hi|Hi]; try discriminate; try contradiction; auto;
             simpl; tauto|]);
    (split; [exact Hn|]).
  - split; [exact Hs|]. intros [Hf|Hf]; discriminate.
  - split; [intros k v Hin _; apply (Hs k v Hin); apply Hk; apply in_map_iff; exists (k, v); auto|].
    intros _ k v Hin. apply (Hs k v Hin). apply Hk. apply in_map_iff. exists (k, v); auto.
  - split; [exact Hs|]. intros [Hf|Hf]; discriminate.
  - assert (Ha : forall k v, In (k, v) o -> is_str v = true).
    { intros k v Hin. apply (Hs k v Hin).
      assert (Hin' : In k amazon_fields) by (apply Hk, in_map_iff; exists (k, v); auto).
      simpl in *; tauto. }
    split; [intros k v Hin _; exact (Ha k v Hin)|intros _; exact Ha].
Qed.

(** [escapeYamlString(bookData.title)] in [addBook] on a property value of
    the record: [if (!str) return ''; return str.replace(...)...], where
    [replace] is a method of strings only. *)
Definition escapeYamlString_val (v : jsval) : M jstr :=
  if truthy v then (s <- as_string v ;; ret (escapeYamlString s)) else ret [].

(** C1, counterexample: on a Taaghche or Goodreads page whose JSON-LD [name]
    is a number, [fetchBookData] returns a record whose title is that number,
    not a string, and escaping that title in [addBook] throws a TypeError. *)
Lemma fetchBookData_counterexample :
  (exists o, fetchBookData (fun _ => []) (js "https://taaghche.com/book/1") "taaghche"
               (blank_page (Some numeric_name_ld)) = Some o
             /\ In ("title"%string, JNum 1984 1) o)
  /\ (exists o, fetchBookData (fun _ => []) (js "https://www.goodreads.com/book/show/1") "goodreads"
               (blank_page (Some numeric_name_ld)) = Some o
             /\ In ("title"%string, JNum 1984 1) o)
  /\ fst (escapeYamlString_val (JNum 1984 1) []) = inl TypeError.
Proof.
  split; [|split]; [eexists; split; [reflexivity|simpl; auto]..|reflexivity].
Qed.

(** C1: the hypothesis of [fetchBookData_fields] holds for a Goodreads page. *)
Lemma fetchBookData_fields_witness :
  exists o, fetchBookData (fun _ => js "1984") (js "https://www.goodreads.com/book/show/1") "goodreads"
              (blank_page (Some numeric_name_ld)) = Some o
  /\ ((forall k, In k book_fields -> In k (map fst o))
  /\ (In "isbn"%string (map fst o) <-> "goodreads"%string = "goodreads"%string \/ "goodreads"%string = "amazon"%string)
  /\ (forall k v, In (k, v) o -> nullish v = false)
  /\ (forall k v, In (k, v) o -> In k str_fields -> is_str v = true)
  /\ ("goodreads"%string = "fidibo"%string \/ "goodreads"%string = "amazon"%string -> forall k v, In (k, v) o -> is_str v = true)).
Proof.
  eexists. split; [reflexivity|].
  apply (fetchBookData_fields (fun _ => js "1984") (js "https://www.goodreads.com/book/show/1") "goodreads"
           (blank_page (Some numeric_name_ld))).
  reflexivity.
Defined.

(* ========================================================================= *)
(** * Further properties of the plugin *)

Definition single_spaced (s : jstr) : Prop :=
  forall a x y b, s = a ++ x :: y :: b -> is_ws x = false \/ is_ws y = false.

Definition no_tag (s : jstr) : Prop := forall a b, s = a ++ 60 :: b -> ~ In 62 b.

Definition infix (u s : jstr) : Prop := exists p q, s = p ++ u ++ q.

Definition summary_shape (d : jstr) : Prop :=
  d = [] \/ ((21 <= List.length d <= 500)%nat /\ trim d = d /\ single_spaced d /\ no_tag d).

Definition within {A} (n : nat) (m : M A) : Prop :=
  forall tr, exists new, snd (m tr) = tr ++ new /\ (List.length new <= n)%nat.

Lemma infix_refl s : infix s s.
Proof. exists [], []. rewrite app_nil_r. reflexivity. Qed.

Lemma infix_trans u v s : infix u v -> infix v s -> infix u s.
Proof.
  intros [p [q ->]] [p' [q' ->]]. exists (p' ++ p), (q ++ q').
  rewrite <- !app_assoc. reflexivity.
Qed.

Lemma trim_infix s : infix (trim s) s.
Proof.
  destruct (trim_start_split s) as [a [Ea _]].
  destruct (trim_start_split (rev (trim_start s))) as [b [Eb _]].
  exists a, (rev b). unfold trim. rewrite Ea at 1. f_equal.
  rewrite <- rev_app_distr, <- Eb, rev_involutive. reflexivity.
Qed.

Lemma firstn_infix n s : infix (firstn n s) s.
Proof. exists [], (skipn n s). simpl. symmetry. apply firstn_skipn. Qed.

Lemma single_spaced_infix u s : infix u s -> single_spaced s -> single_spaced u.
Proof.
  intros [p [q ->]] H a x y b E. apply (H (p ++ a) x y (b ++ q)).
  subst u. rewrite <- !app_assoc. reflexivity.
Qed.

Lemma no_tag_infix u s : infix u s -> no_tag s -> no_tag u.
Proof.
  intros [p [q ->]] H a b E Hin. apply (H (p ++ a) (b ++ q)).
  - subst u. rewrite <- !app_assoc. reflexivity.
  - apply in_or_app. left. exact Hin.
Qed.

Lemma single_spaced_cons x t :
  single_spaced t -> (is_ws x = true -> forall y t', t = y :: t' -> is_ws y = false) ->
  single_spaced (x :: t).
Proof.
  intros Ht Hx [|a0 a] y z b E; simpl in E; injection E as E1 E2.
  - subst. destruct (is_ws y) eqn:Ey; [right; eapply Hx; eauto|left; reflexivity].
  - exact (Ht a y z b E2).
Qed.

Lemma collapse_single b s :
  single_spaced (collapse_ws_aux b s) /\
  (b = true -> forall x t, collapse_ws_aux b s = x :: t -> is_ws x = false).
Proof.
  revert b. induction s as [|c s IH]; intros b; simpl.
  - split; [intros [|? ?] ? ? ? E; simpl in E; discriminate|intros _ x t E; discriminate].
  - destruct (IH true) as [H1 H2]. destruct (IH false) as [H3 _].
    destruct (is_ws c) eqn:Ec; [destruct b|].
    + split; [exact H1|]. intros _. apply H2. reflexivity.
    + split; [|discriminate]. apply single_spaced_cons; [exact H1|]. intros _. apply H2. reflexivity.
    + split.
      * apply single_spaced_cons; [exact H3|]. congruence.
      * intros _ x t E. injection E as <- _. exact Ec.
Qed.

Lemma single_spaced_rev v : single_spaced v -> single_spaced (rev v).
Proof.
  intros H a x y b E.
  assert (Ev : v = rev b ++ y :: x :: rev a).
  { rewrite <- (rev_involutive v), E, rev_app_distr. simpl. rewrite <- !app_assoc. reflexivity. }
  destruct (H _ _ _ _ Ev); auto.
Qed.

Lemma no_tag_cons x t : no_tag t -> (x = 60 -> ~ In 62 t) -> no_tag (x :: t).
Proof.
  intros Ht Hx [|a0 a] b E; simpl in E; injection E as E1 E2.
  - subst. apply Hx. reflexivity.
  - exact (Ht a b E2).
Qed.

Lemma no_tag_tail x t : no_tag (x :: t) -> no_tag t.
Proof. intros H a b E. apply (H (x :: a) b). rewrite E. reflexivity. Qed.

Lemma In_strip b s x : In x (strip_tags_aux b s) -> In x s \/ x = 32.
Proof.
  revert b. induction s as [|c s IH]; intros b; simpl; [tauto|]. intros H.
  destruct b; [destruct (c =? 62)|destruct ((c =? 60) && existsb (Z.eqb 62) s)];
    try (destruct (IH _ H); tauto).
  - destruct H as [<-|H]; [tauto|]. destruct (IH _ H); tauto.
  - destruct H as [<-|H]; [tauto|]. destruct (IH _ H); tauto.
Qed.

Lemma strip_no_tag b s : no_tag (strip_tags_aux b s).
Proof.
  revert b. induction s as [|c s IH]; intros b; simpl.
  - intros [|? ?] ? E; discriminate.
  - destruct b; [destruct (c =? 62); apply IH|].
    destruct ((c =? 60) && existsb (Z.eqb 62) s) eqn:E.
    + apply no_tag_cons; [apply IH|]. lia.
    + apply no_tag_cons; [apply IH|]. intros -> Hin.
      apply In_strip in Hin as [Hin|Hin]; [|lia].
      assert (existsb (Z.eqb 62) s = true) by (apply existsb_exists; exists 62; split; [exact Hin|apply Z.eqb_refl]).
      rewrite Z.eqb_refl in E. simpl in E. congruence.
Qed.

Lemma In_collapse b s x : In x (collapse_ws_aux b s) -> In x s \/ x = 32.
Proof.
  revert b. induction s as [|c s IH]; intros b; simpl; [tauto|]. intros H.
  destruct (is_ws c); [destruct b|].
  - destruct (IH _ H); tauto.
  - destruct H as [<-|H]; [tauto|]. destruct (IH _ H); tauto.
  - destruct H as [<-|H]; [tauto|]. destruct (IH _ H); tauto.
Qed.

Lemma collapse_no_tag b s : no_tag s -> no_tag (collapse_ws_aux b s).
Proof.
  revert b. induction s as [|c s IH]; intros b H; simpl; [exact H|].
  pose proof (no_tag_tail _ _ H) as Ht.
  destruct (is_ws c); [destruct b|].
  - apply IH, Ht.
  - apply no_tag_cons; [apply IH, Ht|]. lia.
  - apply no_tag_cons; [apply IH, Ht|]. intros -> Hin.
    apply In_collapse in Hin as [Hin|Hin]; [|lia]. exact (H [] s eq_refl Hin).
Qed.

Lemma trim_start_trim x : trim_start (trim x) = trim x.
Proof. unfold trim. apply trim_start_rev_fixed, trim_start_idem. Qed.

Lemma trim_start_fixed_head x t : trim_start (x :: t) = x :: t -> is_ws x = false.
Proof.
  simpl. destruct (is_ws x) eqn:E; [|reflexivity]. intros Ht.
  pose proof (length_trim_start t) as L. rewrite Ht in L. simpl in L. lia.
Qed.

Lemma trim_start_single v : single_spaced v -> (List.length v <= S (List.length (trim_start v)))%nat.
Proof.
  intros H. destruct v as [|x [|y r]]; simpl; [lia|destruct (is_ws x); simpl; lia|].
  destruct (is_ws x) eqn:Ex; [|simpl; lia].
  destruct (H [] x y r eq_refl) as [E|E]; [congruence|]. simpl. rewrite E. simpl. lia.
Qed.

Lemma clean_single c : single_spaced (clean c).
Proof.
  unfold clean. apply (single_spaced_infix _ _ (trim_infix _)). apply collapse_single.
Qed.

Lemma clean_no_tag c : no_tag (clean c).
Proof.
  unfold clean. apply (no_tag_infix _ _ (trim_infix _)). apply collapse_no_tag, strip_no_tag.
Qed.

Lemma accepted_summary d :
  accepted (Some d) ->
  (21 <= List.length d <= 500)%nat /\ trim d = d /\ single_spaced d /\ no_tag d.
Proof.
  intros [c [Hc [-> Hl]]].
  assert (Ht : trim (clean c) = clean c) by (unfold clean; apply trim_idem).
  assert (Hs : trim_start (clean c) = clean c) by (unfold clean; apply trim_start_trim).
  split; [split; [|exact Hl]|split; [apply trim_idem|split]].
  - destruct (Nat.le_gt_cases (List.length (clean c)) 500) as [Le|Gt].
    + rewrite firstn_all2 by exact Le. rewrite Ht. lia.
    + set (v := firstn 500 (clean c)).
      assert (Lv : List.length v = 500%nat) by (apply firstn_length_le; lia).
      assert (Hv : trim_start v = v).
      { unfold v. destruct (clean c) as [|x t] eqn:E; [reflexivity|].
        simpl. rewrite (trim_start_fixed_head x t Hs). reflexivity. }
      unfold trim. rewrite Hv, length_rev.
      pose proof (trim_start_single (rev v)) as L. rewrite length_rev in L.
      assert (single_spaced (rev v)).
      { apply single_spaced_rev. apply (single_spaced_infix _ _ (firstn_infix _ _)), clean_single. }
      specialize (L H). lia.
  - apply (single_spaced_infix _ _ (trim_infix _)).
    apply (single_spaced_infix _ _ (firstn_infix _ _)), clean_single.
  - apply (no_tag_infix _ _ (trim_infix _)).
    apply (no_tag_infix _ _ (firstn_infix _ _)), clean_no_tag.
Qed.

Lemma accepted_shape d : accepted (Some d) -> summary_shape d.
Proof. intros H. right. exact (accepted_summary d H). Qed.

Ltac acc_chain :=
  repeat match goal with
  | |- post accepted (try_ _ _) => apply post_try
  | |- post accepted (ret None) => apply post_ret; exact I
  | |- post accepted (accept _) => apply post_accept_accepted
  | |- post accepted (bind (accept _) _) => apply (post_bind accepted); [apply post_accept_accepted|]
  | |- post accepted (bind _ _) => apply (post_bind (fun _ => True)); [apply post_true|intros ? _]
  | |- post accepted (if ?b then _ else _) => destruct b
  end.

Lemma docs_loop_accepted h l : post accepted (docs_loop h l).
Proof.
  induction l as [|x l IH]; simpl; [apply post_ret; exact I|]. acc_chain.
  intros [s|] Hs; [apply post_ret; exact Hs|exact IH].
Qed.

Lemma items_loop_accepted l : post accepted (items_loop l).
Proof.
  induction l as [|x l IH]; simpl; [apply post_ret; exact I|]. acc_chain.
  intros [s|] Hs; [apply post_ret; exact Hs|exact IH].
Qed.

Lemma search_stage_accepted h t a : post accepted (search_stage h t a).
Proof. unfold search_stage. acc_chain. apply docs_loop_accepted. Qed.

Lemma google_stage_accepted h t a i : post accepted (google_stage h t a i).
Proof. unfold google_stage. cbv zeta. acc_chain. apply items_loop_accepted. Qed.

Lemma fetchSummary_no_isbn_empty h t a i tr tr' :
  isbn_ok i = None ->
  (fetchSummary h t a i tr = (inr [], tr') <->
   exists tr1, search_stage h t a tr = (inr None, tr1) /\ google_stage h t a i tr1 = (inr None, tr')).
Proof.
  intros Hi. unfold fetchSummary, isbn_lookup. rewrite Hi. unfold bind at 1, ret at 1.
  split.
  - unfold bind at 1. destruct (search_stage h t a tr) as [[e|[d|]] tr1] eqn:E1.
    + discriminate.
    + intros H. injection H as Hd _. subst d. exfalso.
      pose proof (search_stage_accepted h t a tr) as P. rewrite E1 in P.
      destruct (accepted_summary [] P) as [L _]. simpl in L. lia.
    + intros H. exists tr1. split; [reflexivity|].
      unfold bind in H. destruct (google_stage h t a i tr1) as [[e|[d|]] tr2] eqn:E2.
      * discriminate.
      * injection H as Hd _. subst d. exfalso.
        pose proof (google_stage_accepted h t a i tr1) as P. rewrite E2 in P.
        destruct (accepted_summary [] P) as [L _]. simpl in L. lia.
      * unfold ret in H. injection H as ->. reflexivity.
  - intros [tr1 [E1 E2]]. unfold bind. rewrite E1, E2. reflexivity.
Qed.

(** C4: when an ISBN longer than 5 code units is given and the by-ISBN
    lookup yields a description, [fetchSummary] returns it having requested
    only the by-ISBN URL (the search and Google Books stages are never run);
    the description is a cleaned text longer than 20 code units cut to at most
    500. When no ISBN (or one of at most 5 code units) is given, the result is
    exactly the empty string if and only if the Open Library search stage and
    then the Google Books stage both end without an acceptable description,
    whether their requests fail, throw, or answer with no usable text. *)
Theorem fetchSummary_spec :
  (forall h t a isbn d tr tr',
     (5 < List.length isbn)%nat -> isbn_stage h isbn tr = (inr (Some d), tr') ->
     fetchSummary h t a (Some isbn) tr = (inr d, tr ++ [isbn_url isbn]) /\ accepted (Some d))
  /\ (forall h t a i tr tr',
     isbn_ok i = None ->
     (fetchSummary h t a i tr = (inr [], tr') <->
      exists tr1, search_stage h t a tr = (inr None, tr1) /\ google_stage h t a i tr1 = (inr None, tr'))).
Proof.
  split.
  - intros h t a isbn d tr tr'. apply fetchSummary_isbn_first.
  - intros h t a i tr tr'. apply fetchSummary_no_isbn_empty.
Qed.

(** A host on which every request throws. *)
Definition offline_host : host :=
  {| net := fun _ => NetThrow; encodeURIComponent := fun s => Some s;
     template_str := fun _ => None; gt0 := fun _ => false |}.

Lemma fetchSummary_spec_witness :
  fetchSummary offline_host (js "Dune") (js "Frank Herbert") None [] =
    (inr [], [search_url (js "Dune") (js "Frank Herbert"); google_url (js "Dune Frank Herbert")]) /\
  exists tr1, search_stage offline_host (js "Dune") (js "Frank Herbert") [] = (inr None, tr1) /\
    google_stage offline_host (js "Dune") (js "Frank Herbert") None tr1 =
      (inr None, [search_url (js "Dune") (js "Frank Herbert"); google_url (js "Dune Frank Herbert")]).
Proof.
  assert (E : fetchSummary offline_host (js "Dune") (js "Frank Herbert") None [] =
    (inr [], [search_url (js "Dune") (js "Frank Herbert"); google_url (js "Dune Frank Herbert")]))
    by (vm_compute; reflexivity).
  split; [exact E|].
  exact (proj1 (proj2 fetchSummary_spec offline_host (js "Dune") (js "Frank Herbert") None []
                  [search_url (js "Dune") (js "Frank Herbert"); google_url (js "Dune Frank Herbert")]
                  eq_refl) E).
Defined.

Lemma fetchSummary_shape_post h t a i : post summary_shape (fetchSummary h t a i).
Proof.
  unfold fetchSummary. apply (post_bind accepted).
  { unfold isbn_lookup. destruct (isbn_ok i); [apply isbn_stage_accepted|apply post_ret; exact I]. }
  intros [d|] Hd; [apply post_ret, accepted_shape, Hd|].
  apply (post_bind accepted); [apply search_stage_accepted|].
  intros [d|] Hd'; [apply post_ret, accepted_shape, Hd'|].
  apply (post_bind accepted); [apply google_stage_accepted|].
  intros [d|] Hd''; [apply post_ret, accepted_shape, Hd''|]. apply post_ret. left. reflexivity.
Qed.

(** fetchSummary always resolves, and the summary it returns is either empty or a trimmed
    text of 21 to 500 code units with no two adjacent whitespace characters and no
    [<] followed later by [>]. *)
Theorem fetchSummary_shape h t a i tr :
  exists d tr', fetchSummary h t a i tr = (inr d, tr') /\ summary_shape d.
Proof.
  destruct (fetchSummary_never_throws h t a i tr) as [d [tr' E]].
  exists d, tr'. split; [exact E|]. pose proof (fetchSummary_shape_post h t a i tr) as P.
  rewrite E in P. exact P.
Qed.

(** request bound *)
Lemma within_keeps {A} (m : M A) : keeps m -> within 0 m.
Proof. intros H tr. exists []. rewrite H, app_nil_r. split; [reflexivity|simpl; lia]. Qed.

Lemma within_mono {A} n n' (m : M A) : (n <= n')%nat -> within n m -> within n' m.
Proof. intros Le H tr. destruct (H tr) as [new [E L]]. exists new. split; [exact E|lia]. Qed.

Lemma within_bind {A B} (P : A -> Prop) n1 n2 (m : M A) (k : A -> M B) :
  post P m -> within n1 m -> (forall a, P a -> within n2 (k a)) -> within (n1 + n2) (bind m k).
Proof.
  intros Hp Hw Hk tr. specialize (Hp tr). destruct (Hw tr) as [new1 [E1 L1]].
  unfold bind. destruct (m tr) as [[e|a] tr1] eqn:E; simpl in *.
  - exists new1. split; [exact E1|lia].
  - destruct (Hk a Hp tr1) as [new2 [E2 L2]]. exists (new1 ++ new2).
    rewrite E2, E1, app_assoc, length_app. split; [reflexivity|lia].
Qed.

Lemma within_bind_keeps {A B} n (m : M A) (k : A -> M B) :
  keeps m -> (forall a, within n (k a)) -> within n (bind m k).
Proof.
  intros Hm Hk. apply (within_bind (fun _ => True) 0 n); [apply post_true|apply within_keeps, Hm|auto].
Qed.

Lemma within_bind_request {B} h u n (k : response -> M B) :
  (forall r, within n (k r)) -> within (S n) (bind (request h u) k).
Proof.
  intros Hk. apply (within_bind (fun _ => True) 1 n); [apply post_true| |auto].
  intros tr. exists [u]. split; [reflexivity|simpl; lia].
Qed.

Lemma within_try {A} n (m : M A) x : within n m -> within n (try_ m (ret x)).
Proof. intros H tr. rewrite try_ret_snd. apply H. Qed.

Lemma post_slice3_len v : post (fun l => (List.length l <= 3)%nat) (slice3 v).
Proof.
  destruct v; cbv [slice3]; try apply post_throw; apply post_ret;
    rewrite ?length_map, length_firstn; lia.
Qed.

Lemma keeps_if_json (b : bool) (r : response) : keeps (if b then json_of r else ret JUndef).
Proof. destruct b; [apply keeps_opt_exn|apply keeps_ret]. Qed.

Lemma work_fetch_within h key d : within 1 (work_fetch h key d).
Proof.
  unfold work_fetch. apply within_try. apply within_bind_keeps; [apply keeps_opt_exn|]. intros k.
  apply within_bind_request. intros r. apply within_keeps.
  apply keeps_bind; [apply keeps_if_json|]. intros j. destruct (_ && _); [|apply keeps_ret].
  apply keeps_bind; [apply keeps_opt_exn|]. intros w.
  apply keeps_bind; [apply keeps_get|]. intros wd.
  apply keeps_bind; [destruct (nullish wd); [apply keeps_ret|apply keeps_get]|]. intros v.
  apply keeps_ret.
Qed.

Lemma docs_loop_within h l : within (List.length l) (docs_loop h l).
Proof.
  induction l as [|x l IH]; simpl; [apply within_keeps, keeps_ret|].
  apply within_bind_keeps; [apply keeps_get|]. intros fs.
  apply within_bind_keeps.
  { destruct (truthy fs); [apply keeps_ret|apply keeps_bind; [apply keeps_get|intros; apply keeps_ret]]. }
  intros d0.
  apply (within_bind (fun _ => True) 1 (List.length l)); [apply post_true| |].
  { destruct (truthy _); [apply within_mono with 0%nat; [lia|apply within_keeps, keeps_ret]|].
    apply within_bind_keeps; [apply keeps_get|]. intros key.
    destruct (truthy key); [apply work_fetch_within|apply within_mono with 0%nat; [lia|apply within_keeps, keeps_ret]]. }
  intros d _. apply within_bind_keeps; [apply keeps_accept|]. intros [s|];
    [apply within_mono with 0%nat; [lia|apply within_keeps, keeps_ret]|exact IH].
Qed.

Lemma items_loop_keeps l : keeps (items_loop l).
Proof.
  induction l as [|x l IH]; simpl; [apply keeps_ret|].
  apply keeps_bind; [apply keeps_get|]. intros vi.
  apply keeps_bind; [apply keeps_get|]. intros d1.
  apply keeps_bind.
  { destruct (truthy d1); [apply keeps_ret|]. apply keeps_bind; [apply keeps_get|]. intros d2.
    destruct (truthy d2); [apply keeps_ret|]. apply keeps_bind; [apply keeps_get|intros; apply keeps_ret]. }
  intros d. apply keeps_bind; [apply keeps_accept|]. intros [s|]; [apply keeps_ret|exact IH].
Qed.

Lemma isbn_lookup_within h i : within 1 (isbn_lookup h i).
Proof.
  unfold isbn_lookup. destruct (isbn_ok i) as [s|]; [|apply within_mono with 0%nat; [lia|apply within_keeps, keeps_ret]].
  intros tr. exists [isbn_url s]. rewrite isbn_stage_trace. split; [reflexivity|simpl; lia].
Qed.

Lemma search_stage_within h t a : within 4 (search_stage h t a).
Proof.
  unfold search_stage. apply within_try.
  apply within_bind_keeps; [apply keeps_opt_exn|]. intros et.
  apply within_bind_keeps; [apply keeps_opt_exn|]. intros ea.
  apply within_bind_request. intros r.
  apply within_bind_keeps; [apply keeps_if_json|]. intros j.
  destruct (_ && _); [|apply within_mono with 0%nat; [lia|apply within_keeps, keeps_ret]].
  apply within_bind_keeps; [apply keeps_opt_exn|]. intros data.
  apply within_bind_keeps; [apply keeps_get|]. intros docs.
  apply within_bind_keeps; [destruct (truthy docs); [apply keeps_get|apply keeps_ret]|]. intros len.
  destruct (_ && _); [|apply within_mono with 0%nat; [lia|apply within_keeps, keeps_ret]].
  apply (within_bind _ 0 3 _ _ (post_slice3_len docs)).
  - apply within_keeps. destruct docs; intros tr; reflexivity.
  - intros l Hl. apply within_mono with (List.length l); [exact Hl|apply docs_loop_within].
Qed.

Lemma google_stage_within h t a i : within 1 (google_stage h t a i).
Proof.
  unfold google_stage. cbv zeta. apply within_try.
  apply within_bind_keeps; [apply keeps_opt_exn|]. intros q.
  apply within_bind_request. intros r. apply within_keeps.
  destruct (_ =? _); [|apply keeps_ret].
  apply keeps_bind; [apply keeps_opt_exn|]. intros data.
  apply keeps_bind; [apply keeps_get|]. intros its.
  apply keeps_bind; [destruct (truthy its); [apply keeps_get|apply keeps_ret]|]. intros len.
  destruct (_ && _); [|apply keeps_ret].
  apply keeps_bind; [destruct its; intros tr; reflexivity|]. intros. apply items_loop_keeps.
Qed.

(** fetchSummary issues at most six requests: one work fetch and up to five Open Library
    search, ISBN and Google Books requests. *)
Theorem fetchSummary_requests h t a i tr :
  exists new, snd (fetchSummary h t a i tr) = tr ++ new /\ (List.length new <= 6)%nat.
Proof.
  revert tr. change (within 6 (fetchSummary h t a i)). unfold fetchSummary.
  apply (within_bind (fun _ => True) 1 5); [apply post_true|apply isbn_lookup_within|].
  intros [d|] _; [apply within_mono with 0%nat; [lia|apply within_keeps, keeps_ret]|].
  apply (within_bind (fun _ => True) 4 1); [apply post_true|apply search_stage_within|].
  intros [d|] _; [apply within_mono with 0%nat; [lia|apply within_keeps, keeps_ret]|].
  apply (within_bind (fun _ => True) 1 0); [apply post_true|apply google_stage_within|].
  intros [d|] _; apply within_keeps, keeps_ret.
Qed.

(** ** getUniqueFilename *)
Record TFile : Type := { basename : jstr; parent_path : option jstr }.

Definition trailing_slash_re : re := seqs [ch 47; REnd].

Section UniqueFilename.
Variable normalizePath : jstr -> jstr.
Variable root_path : jstr.

Definition folder_files (folder : jstr) (all : list TFile) : list TFile :=
  let normalizedFolder :=
    if nonempty folder then normalizePath (re_replace_first trailing_slash_re folder []) else [] in
  filter (fun f =>
    if negb (nonempty normalizedFolder)
    then match parent_path f with Some p => jstr_eqb p root_path | None => false end
    else match parent_path f with Some p => jstr_eqb p normalizedFolder | None => false end) all.

Fixpoint unique_loop (fuel : nat) (files : list TFile) (baseName newName : jstr) (counter : Z)
  : option jstr :=
  match fuel with
  | O => None
  | S f =>
      if existsb (fun file => jstr_eqb (basename file) newName) files
      then unique_loop f files baseName (baseName ++ [32] ++ number_to_string counter) (counter + 1)
      else Some newName
  end.

Definition getUniqueFilename (fuel : nat) (baseName folder : jstr) (all : list TFile) : option jstr :=
  unique_loop fuel (folder_files folder all) baseName baseName 1.

End UniqueFilename.

Definition candidate (baseName : jstr) (k : Z) : jstr :=
  if k =? 0 then baseName else baseName ++ [32] ++ number_to_string k.

Fixpoint digits_value (s : jstr) (v : Z) : Z :=
  match s with [] => v | c :: r => digits_value r (v * 10 + (c - 48)) end.

Lemma digits_of_value f n acc :
  0 <= n < 10 ^ Z.of_nat f -> digits_value (digits_of f n acc) 0 = digits_value acc n.
Proof.
  revert n acc. induction f as [|f IH]; intros n acc Hn; cbn [digits_of].
  - simpl in Hn. replace n with 0 by lia. reflexivity.
  - destruct (n <? 10) eqn:E.
    + apply Z.ltb_lt in E. cbn [digits_value]. rewrite Z.mod_small by lia. f_equal. lia.
    + apply Z.ltb_ge in E. rewrite IH.
      * cbn [digits_value]. f_equal. pose proof (Z.div_mod n 10). lia.
      * rewrite Nat2Z.inj_succ, Z.pow_succ_r in Hn by lia.
        split; [apply Z.div_pos; lia|]. apply Z.div_lt_upper_bound; lia.
Qed.

Lemma number_to_string_value k : 0 <= k < 10 ^ 80 -> digits_value (number_to_string k) 0 = k.
Proof.
  intros Hk. unfold number_to_string. replace (k <? 0) with false by (symmetry; apply Z.ltb_ge; lia).
  rewrite digits_of_value; [reflexivity|]. exact Hk.
Qed.

Lemma candidate_inj base j j' :
  0 <= j < 10 ^ 80 -> 0 <= j' < 10 ^ 80 -> candidate base j = candidate base j' -> j = j'.
Proof.
  intros Hj Hj' E. unfold candidate in E.
  destruct (j =? 0) eqn:E1, (j' =? 0) eqn:E2; apply Z.eqb_eq in E1 || apply Z.eqb_neq in E1;
    apply Z.eqb_eq in E2 || apply Z.eqb_neq in E2; try lia.
  - apply (f_equal (@List.length Z)) in E. rewrite !length_app in E. simpl in E. lia.
  - apply (f_equal (@List.length Z)) in E. rewrite !length_app in E. simpl in E. lia.
  - apply app_inv_head in E. injection E as E.
    rewrite <- (number_to_string_value j Hj), <- (number_to_string_value j' Hj'), E. reflexivity.
Qed.

Definition taken (files : list TFile) (x : jstr) : Prop := In x (map basename files).

Lemma taken_existsb files x :
  existsb (fun file => jstr_eqb (basename file) x) files = true <-> taken files x.
Proof.
  unfold taken. rewrite existsb_exists, in_map_iff. split.
  - intros [f [Hf E]]. exists f. split; [|exact Hf]. unfold jstr_eqb in E.
    destruct (list_eq_dec Z.eq_dec (basename f) x); [exact e|discriminate].
  - intros [f [E Hf]]. exists f. split; [exact Hf|]. unfold jstr_eqb.
    destruct (list_eq_dec Z.eq_dec (basename f) x); [reflexivity|contradiction].
Qed.

Lemma candidates_pigeonhole files base (K : nat) :
  Z.of_nat K <= 10 ^ 21 -> (forall j, (j < K)%nat -> taken files (candidate base (Z.of_nat j))) ->
  (K <= List.length files)%nat.
Proof.
  intros HK Ht. rewrite <- (length_map basename files), <- (length_seq K 0).
  rewrite <- (length_map (fun j => candidate base (Z.of_nat j)) (seq 0 K)).
  apply NoDup_incl_length.
  - apply NoDup_map_NoDup_ForallPairs; [|apply seq_NoDup].
    intros x y Hx Hy E. apply in_seq in Hx, Hy.
    apply candidate_inj in E; lia.
  - intros x Hx. apply in_map_iff in Hx as [j [<- Hj]]. apply in_seq in Hj. apply Ht. lia.
Qed.

Lemma unique_loop_spec files base fuel k :
  Z.of_nat (List.length files) < 10 ^ 21 -> 0 <= k <= Z.of_nat (List.length files) ->
  (forall j, 0 <= j < k -> taken files (candidate base j)) ->
  (List.length files < Z.to_nat k + fuel)%nat ->
  exists n, unique_loop fuel files base (candidate base k) (k + 1) = Some n /\
    exists m, k <= m <= Z.of_nat (List.length files) /\ n = candidate base m /\
      ~ taken files n /\ forall j, 0 <= j < m -> taken files (candidate base j).
Proof.
  intros Hlen. revert k. induction fuel as [|f IH]; intros k Hk Hall Hf; [lia|].
  simpl. destruct (existsb _ files) eqn:E.
  - apply taken_existsb in E.
    assert (Hall' : forall j, 0 <= j < k + 1 -> taken files (candidate base j)).
    { intros j Hj. destruct (Z.eq_dec j k) as [->|]; [exact E|]. apply Hall. lia. }
    assert (Z.to_nat (k + 1) <= List.length files)%nat.
    { apply (candidates_pigeonhole files base); [lia|]. intros j Hj. apply Hall'. lia. }
    replace (base ++ 32 :: number_to_string (k + 1)) with (candidate base (k + 1))
      by (unfold candidate; replace (k + 1 =? 0) with false by (symmetry; apply Z.eqb_neq; lia); reflexivity).
    destruct (IH (k + 1)) as [n [En [m [Hm Hn]]]]; [lia|exact Hall'|lia|].
    exists n. split; [exact En|]. exists m. split; [lia|exact Hn].
  - exists (candidate base k). split; [reflexivity|]. exists k.
    split; [lia|]. split; [reflexivity|]. split; [|exact Hall].
    intros Ht. apply taken_existsb in Ht. congruence.
Qed.

(** getUniqueFilename, given more iterations than there are files, returns the first name of
    the sequence [base], [base 1], [base 2], ... that no file of the target folder has. *)
Theorem getUniqueFilename_fresh normalizePath root_path fuel baseName folder all :
  Z.of_nat (List.length all) < 10 ^ 21 -> (List.length all < fuel)%nat ->
  let files := folder_files normalizePath root_path folder all in
  exists n, getUniqueFilename normalizePath root_path fuel baseName folder all = Some n /\
    exists m, 0 <= m <= Z.of_nat (List.length files) /\ n = candidate baseName m /\
      ~ taken files n /\ forall j, 0 <= j < m -> taken files (candidate baseName j).
Proof.
  intros Hall Hf files.
  assert (Hl : (List.length files <= List.length all)%nat) by apply filter_length_le.
  destruct (unique_loop_spec files baseName fuel 0) as [n [En Hn]]; [lia|lia|intros; lia|simpl; lia|].
  exists n. split; [exact En|exact Hn].
Qed.

(** ** addBook file name *)
Definition is_invalid_filename_char (c : Z) : bool :=
  (c =? 92) || (c =? 47) || (c =? 42) || (c =? 63) || (c =? 34) || (c =? 60) || (c =? 62) || (c =? 124).

Definition addBook_cleanTitle (title : jstr) : jstr :=
  let s1 := replace_all (js "&amp;") (js "&") title in
  let s2 := replace_all (js "&lt;") (js "<") s1 in
  let s3 := replace_all (js "&gt;") (js ">") s2 in
  let s4 := replace_all (js "&quot;") [34] s3 in
  let s5 := replace_all (js "&#39;") (js "'") s4 in
  let s6 := filter (fun c => negb (is_invalid_filename_char c)) s5 in
  let s7 := replace_all (js ":") (js " -") s6 in
  trim (collapse_ws s7).

Lemma In_collapse_ws b s x : In x (collapse_ws_aux b s) -> (In x s /\ is_ws x = false) \/ x = 32.
Proof.
  revert b. induction s as [|c s IH]; intros b; simpl; [tauto|]. intros H.
  destruct (is_ws c) eqn:Ec; [destruct b|].
  - destruct (IH _ H); tauto.
  - destruct H as [<-|H]; [tauto|]. destruct (IH _ H); tauto.
  - destruct H as [<-|H]; [tauto|]. destruct (IH _ H); tauto.
Qed.

(** The file name addBook derives from a title contains none of the characters
    backslash, slash, star, question mark,
    double quote, angle brackets, bar or colon, its only whitespace is single spaces, and it is trimmed. *)
Theorem addBook_cleanTitle_safe title :
  let r := addBook_cleanTitle title in
  (forall c, In c r -> is_invalid_filename_char c = false /\ c <> 58 /\ (is_ws c = true -> c = 32))
  /\ trim r = r /\ single_spaced r.
Proof.
  intros r. unfold r, addBook_cleanTitle. cbv zeta.
  set (s6 := filter _ _). split; [|split].
  - intros c Hc. apply In_trim in Hc. unfold collapse_ws in Hc.
    apply In_collapse_ws in Hc as [[Hc Hw]| ->]; [|split; [reflexivity|split; [lia|auto]]].
    unfold replace_all in Hc. change (js ":") with [58] in Hc. change (js " -") with [32; 45] in Hc.
    rewrite replace_all_go_single in Hc by (simpl; lia).
    apply in_flat_map in Hc as [x [Hx Hc]].
    destruct (Z.eqb_spec x 58) as [->|Hx58].
    + simpl in Hc. destruct Hc as [<-|[<-|[]]]; [cbv in Hw; discriminate|].
      split; [reflexivity|split; [lia|intros H; cbv in H; discriminate]].
    + simpl in Hc. destruct Hc as [<-|[]]. unfold s6 in Hx. apply filter_In in Hx as [_ Hx].
      apply negb_true_iff in Hx. rewrite Hx, Hw. repeat split; auto. discriminate.
  - apply trim_idem.
  - apply (single_spaced_infix _ _ (trim_infix _)). apply collapse_single.
Qed.

(** ** cleanTitle *)
Definition title_sep (c : Z) : bool := (c =? 58) || (c =? 8211) || (c =? 8212) || (c =? 45).

Lemma mr_cut_inv s rest :
  mr title_cut_re s rest -> exists c w, s = c :: w /\ title_sep c = true /\ forallb c_dot w = true /\ rest = [].
Proof.
  unfold title_cut_re. simpl. intros H.
  apply mr_seq_inv in H as [s1 [H1 H2]]. apply mr_cls_inv in H1 as [c [-> Hc]].
  apply mr_seq_inv in H2 as [s2 [H2 H3]]. apply mr_end_inv in H3 as [-> ->].
  inversion H2; subst. rewrite app_nil_r. exists c, w. auto.
Qed.

Lemma mr_cut_intro c w : title_sep c = true -> forallb c_dot w = true -> mr title_cut_re (c :: w) [].
Proof.
  intros Hc Hw. unfold title_cut_re. simpl. econstructor; [constructor; exact Hc|].
  econstructor; [|constructor]. apply (mr_rep' 0 None c_dot w w []); simpl; auto; [lia|].
  rewrite app_nil_r. reflexivity.
Qed.

Lemma exec_from_cut_skip pre s i :
  (forall p1 c1 s1, pre = p1 ++ c1 :: s1 -> forall rest, ~ mr title_cut_re (c1 :: s1 ++ s) rest) ->
  exec_from title_cut_re (pre ++ s) i = exec_from title_cut_re s (i + List.length pre).
Proof.
  revert i. induction pre as [|x pre IH]; intros i H; [simpl; rewrite Nat.add_0_r; reflexivity|].
  rewrite exec_from_eq. simpl app.
  destruct (mt title_cut_re (x :: pre ++ s) None _) as [[rest cap]|] eqn:E.
  - exfalso. destruct (mt_sound _ _ _ _ _ E) as [s' [c' [Hm _]]]. exact (H [] x pre eq_refl s' Hm).
  - rewrite IH; [f_equal; simpl; lia|]. intros p1 c1 s1 Ep rest.
    apply (H (x :: p1)). rewrite Ep. reflexivity.
Qed.

(** The search title is cut at the first separator ([:], en dash, em dash or [-]) whose
    remainder has no line terminator, and the part before it is trimmed. *)
Theorem cleanTitle_cut pre c post :
  title_sep c = true -> forallb c_dot post = true ->
  (forall p1 c1 s1, pre = p1 ++ c1 :: s1 -> title_sep c1 = true -> forallb c_dot s1 = false) ->
  cleanTitle (pre ++ c :: post) = trim pre.
Proof.
  intros Hc Hp Hpre. unfold cleanTitle, re_replace_first, exec.
  rewrite exec_from_cut_skip.
  - rewrite exec_from_eq.
    destruct (mt title_cut_re (c :: post) None _) as [[rest cap]|] eqn:E.
    + destruct (mt_sound _ _ _ _ _ E) as [s' [c' [Hm Hk]]]. injection Hk as -> _.
      apply mr_cut_inv in Hm as [_ [_ [_ [_ [_ ->]]]]]. simpl.
      rewrite firstn_length_app, !app_nil_r. reflexivity.
    + exfalso. refine (mt_complete _ _ _ (mr_cut_intro c post Hc Hp) None _ _ E). discriminate.
  - intros p1 c1 s1 Ep rest Hm. apply mr_cut_inv in Hm as [c2 [w [Ew [Hc2 [Hw _]]]]].
    injection Ew as <- <-. rewrite forallb_app in Hw. apply andb_true_iff in Hw as [Hw _].
    rewrite (Hpre p1 c1 s1 Ep Hc2) in Hw. discriminate.
Qed.

(** When no separator is followed by a remainder free of line terminators, the search title
    is the whole title, trimmed. *)
Theorem cleanTitle_uncut t :
  (forall p1 c1 s1, t = p1 ++ c1 :: s1 -> title_sep c1 = true -> forallb c_dot s1 = false) ->
  cleanTitle t = trim t.
Proof.
  intros Ht. unfold cleanTitle, re_replace_first, exec.
  rewrite <- (app_nil_r t) at 1. rewrite exec_from_cut_skip.
  - rewrite exec_from_eq.
    destruct (mt title_cut_re [] None _) as [[rest cap]|] eqn:E; [|reflexivity].
    exfalso. destruct (mt_sound _ _ _ _ _ E) as [s' [c' [Hm _]]].
    apply mr_cut_inv in Hm as [? [? [? _]]]. discriminate.
  - intros p1 c1 s1 Ep rest Hm. rewrite app_nil_r in Hm.
    apply mr_cut_inv in Hm as [c2 [w [Ew [Hc2 [Hw _]]]]]. injection Ew as <- <-.
    rewrite (Ht p1 c1 s1 Ep Hc2) in Hw. discriminate.
Qed.

(** ** concatenateAuthors *)
Definition bad_author (a : jsval) : bool :=
  match a with
  | JObj kvs => truthy (obj_get kvs (js "name")) && negb (is_str (obj_get kvs (js "name")))
  | _ => false
  end.

Definition author_text (a : jsval) : jstr :=
  match author_name a with JStr s => s | _ => [] end.

Lemma as_string_author_name a tr :
  as_string (author_name a) tr = if bad_author a then (inl TypeError, tr) else (inr (author_text a), tr).
Proof.
  unfold author_text. destruct a as [| |b|n d|s|xs|kvs]; try reflexivity.
  unfold author_name, bad_author.
  destruct (obj_get kvs (js "name")) as [| |b|n d|s|xs|kvs']; try reflexivity;
    simpl; try (destruct b; reflexivity); try (destruct s; reflexivity);
    destruct (n =? 0); reflexivity.
Qed.

Lemma filter_names_map l tr :
  filter_names (map author_name l) tr =
  if existsb bad_author l then (inl TypeError, tr)
  else (inr (filter (fun s => nonempty (trim s)) (map author_text l)), tr).
Proof.
  induction l as [|a l IH]; [reflexivity|]. cbn [map filter_names existsb].
  unfold bind at 1. rewrite as_string_author_name.
  destruct (bad_author a); [reflexivity|]. simpl orb.
  unfold bind. rewrite IH. destruct (existsb bad_author l); reflexivity.
Qed.

(** concatenateAuthors joins the string names of an author array with [, ], dropping blank
    ones; a truthy non-string name makes it throw a TypeError; a non-array gives the empty
    string. *)
Theorem concatenateAuthors_result authors tr :
  concatenateAuthors authors tr =
  match authors with
  | JArr l =>
      if existsb bad_author l then (inl TypeError, tr)
      else (inr (join (js ", ") (filter (fun s => nonempty (trim s)) (map author_text l))), tr)
  | _ => (inr [], tr)
  end.
Proof.
  destruct authors; try reflexivity. destruct l as [|a l]; [reflexivity|].
  change (concatenateAuthors (JArr (a :: l))) with
    (bind (filter_names (map author_name (a :: l))) (fun names => ret (join (js ", ") names))).
  unfold bind. rewrite filter_names_map. destruct (existsb bad_author (a :: l)); reflexivity.
Qed.



(** ** find soundness *)
Lemma existsb_nat_notin l vis : existsb (Nat.eqb l) vis = false -> ~ In l vis.
Proof.
  intros E Hin. assert (existsb (Nat.eqb l) vis = true) by (apply existsb_exists; exists l; split; [exact Hin|apply Nat.eqb_refl]).
  congruence.
Qed.

(** findBookDetails only reports a heap location that it had not visited before and that holds
    a BookDetails object, and the visited set only grows. *)
Theorem findBookDetails_sound heap fuel :
  forall v vis r vis', findBookDetails heap fuel v vis = Some (r, vis') ->
  grows vis vis' /\
  (forall l, r = Some l -> ~ In l vis /\ exists n, nth_error heap l = Some n /\ isBookDetails n = true).
Proof.
  induction fuel as [|f IH]; intros v vis r vis' H; [discriminate|]. simpl in H.
  destruct (enter heap v vis) as [[l n]|] eqn:E;
    [|injection H as <- <-; split; [intros x Hx; exact Hx|discriminate]].
  apply enter_some in E as (-> & Hl & Hv & Hn). apply existsb_nat_notin in Hv.
  assert (G1 : grows vis (l :: vis)) by (intros x Hx; right; exact Hx).
  destruct (isBookDetails n) eqn:Eb.
  { injection H as <- <-. split; [exact G1|]. intros l' E'. injection E' as <-. eauto. }
  remember (match hget n "details" with
            | Ref d => if is_object_ref heap d then findBookDetails heap f (Ref d) (l :: vis)
                       else Some (None, l :: vis)
            | _ => Some (None, l :: vis)
            end) as D eqn:ED.
  destruct D as [[r2 vis2]|]; [|discriminate].
  assert (Fd : grows (l :: vis) vis2 /\
     (forall l', r2 = Some l' -> ~ In l' (l :: vis) /\ exists n, nth_error heap l' = Some n /\ isBookDetails n = true)).
  { destruct (hget n "details") as [p|d];
      [|destruct (is_object_ref heap d); [exact (IH _ _ _ _ (eq_sym ED))|]];
      injection ED as -> ->; (split; [intros x Hx; exact Hx|discriminate]). }
  destruct Fd as [G2 S2]. clear ED.
  destruct r2 as [r2|].
  { injection H as <- <-. split; [intros x Hx; apply G2, G1, Hx|].
    intros l' E'. injection E' as <-. destruct (S2 r2 eq_refl) as [Hni Hx].
    split; [intros Hin; apply Hni; right; exact Hin|exact Hx]. }
  assert (G : grows vis vis2) by (intros x Hx; apply G2, G1, Hx).
  clear S2 G2. revert vis2 G H. generalize (hvalues n) as items.
  induction items as [|it rest IHi]; intros vis2 G H.
  - injection H as <- <-. split; [exact G|discriminate].
  - cbn beta iota in H. destruct (findBookDetails heap f it vis2) as [[r3 vis3]|] eqn:E3; [|discriminate].
    destruct (IH _ _ _ _ E3) as [G3 S3].
    destruct r3 as [r3|].
    + injection H as <- <-. split; [intros x Hx; apply G3, G, Hx|].
      intros l' E'. injection E' as <-. destruct (S3 r3 eq_refl) as [Hni Hx].
      split; [intros Hin; apply Hni, G, Hin|exact Hx].
    + apply (IHi vis3); [intros x Hx; apply G3, G, Hx|exact H].
Qed.

(** findDescription only reports a string longer than 50 code units found under a
    [description] key of a heap object it had not visited before, and the visited set only grows. *)
Theorem findDescription_sound heap fuel :
  forall v vis r vis', findDescription heap fuel v vis = Some (r, vis') ->
  grows vis vis' /\
  (forall s, r = Some s -> (50 < List.length s)%nat /\
     exists l n, ~ In l vis /\ nth_error heap l = Some n /\ hget n "description" = Prim (PStr s)).
Proof.
  induction fuel as [|f IH]; intros v vis r vis' H; [discriminate|]. simpl in H.
  destruct (enter heap v vis) as [[l n]|] eqn:E;
    [|injection H as <- <-; split; [intros x Hx; exact Hx|discriminate]].
  apply enter_some in E as (-> & Hl & Hv & Hn). apply existsb_nat_notin in Hv.
  assert (G1 : grows vis (l :: vis)) by (intros x Hx; right; exact Hx).
  destruct (hget n "description") as [[| | | |s]|d] eqn:Ed;
    try (destruct (Nat.ltb 50 (List.length s)) eqn:Es);
    try (injection H as <- <-; split; [exact G1|]; intros s' E'; injection E' as <-;
         apply Nat.ltb_lt in Es; split; [exact Es|exists l, n; auto]);
  (assert (G : grows vis (l :: vis)) by exact G1; clear G1;
   revert H G; generalize (l :: vis) as vis2; generalize (hvalues n) as items;
   induction items as [|it rest IHi]; intros vis2 H G;
   [injection H as <- <-; split; [exact G|discriminate]|];
   cbn beta iota in H; destruct (findDescription heap f it vis2) as [[r3 vis3]|] eqn:E3; [|discriminate];
   destruct (IH _ _ _ _ E3) as [G3 S3];
   destruct r3 as [r3|];
   [injection H as <- <-; split; [intros x Hx; apply G3, G, Hx|];
    intros s' E'; injection E' as <-; destruct (S3 r3 eq_refl) as [Hlen [l' [n' [Hni Hx]]]];
    split; [exact Hlen|exists l', n'; split; [intros Hin; apply Hni, G, Hin|exact Hx]]
   |apply (IHi vis3); [exact H|intros x Hx; apply G3, G, Hx]]).
Qed.

(** ** extractJsonLd *)
Definition type_is (v : jsval) (name : string) : bool :=
  match v with JStr s => jstr_eqb s (js name) | _ => false end.

Fixpoint graph_loop (items : list jsval) : M (option jsval) :=
  match items with
  | [] => ret None
  | item :: rest =>
      t <- get item "@type" ;;
      if type_is t "Book" || type_is t "Product" then ret (Some item) else graph_loop rest
  end.

Definition ld_script (parsed : option jsval) : M (option jsval) :=
  jsonData <- opt_exn SyntaxError parsed ;;
  t <- get jsonData "@type" ;;
  if type_is t "Book" ||
     (is_arr t && match t with
                  | JArr l => existsb (fun x => type_is x "Book") l || existsb (fun x => type_is x "Product") l
                  | _ => false
                  end)
  then ret (Some jsonData)
  else
    g <- get jsonData "@graph" ;;
    if truthy g && is_arr g then
      match g with JArr items => graph_loop items | _ => ret None end
    else ret None.

Fixpoint ld_scripts (scripts : list (option jsval)) : M (option jsval) :=
  match scripts with
  | [] => ret None
  | s :: rest =>
      r <- try_ (ld_script s) (ret None) ;;
      match r with Some v => ret (Some v) | None => ld_scripts rest end
  end.

Definition extractJsonLd (scripts : list (option jsval)) : M (option jsval) :=
  try_ (ld_scripts scripts) (ret None).

Definition ld_typed (t : jsval) : bool :=
  type_is t "Book" || type_is t "Product" ||
  match t with
  | JArr l => existsb (fun x => type_is x "Book") l || existsb (fun x => type_is x "Product") l
  | _ => false
  end.

Definition ld_book (v : jsval) : Prop :=
  exists kvs, v = JObj kvs /\ ld_typed (obj_get kvs (js "@type")) = true.

Lemma post_get_type v :
  post (fun t => ld_typed t = true -> exists kvs, v = JObj kvs /\ t = obj_get kvs (js "@type"))
       (get v "@type").
Proof.
  destruct v; simpl; try apply post_throw; apply post_ret; try discriminate. eauto.
Qed.

Lemma graph_loop_book items : post (fun o => forall v, o = Some v -> ld_book v) (graph_loop items).
Proof.
  induction items as [|it rest IH]; simpl; [apply post_ret; discriminate|].
  apply (post_bind _ _ _ _ (post_get_type it)). intros t Ht.
  destruct (type_is t "Book" || type_is t "Product") eqn:E; [|exact IH].
  apply post_ret. intros v Ev. injection Ev as <-.
  assert (Hl : ld_typed t = true) by (unfold ld_typed; rewrite E; reflexivity).
  destruct (Ht Hl) as [kvs [-> ->]]. exists kvs. auto.
Qed.

Lemma ld_script_book p : post (fun o => forall v, o = Some v -> ld_book v) (ld_script p).
Proof.
  unfold ld_script. apply (post_bind (fun _ => True)); [apply post_true|]. intros jd _.
  apply (post_bind _ _ _ _ (post_get_type jd)). intros t Ht.
  destruct (type_is t "Book" || _) eqn:E.
  - apply post_ret. intros v Ev. injection Ev as <-.
    assert (Hl : ld_typed t = true).
    { unfold ld_typed. apply orb_true_iff in E as [E|E]; [rewrite E; reflexivity|].
      apply andb_true_iff in E as [_ E]. destruct t; try discriminate. rewrite E, !orb_true_r. reflexivity. }
    destruct (Ht Hl) as [kvs [-> ->]]. exists kvs. auto.
  - apply (post_bind (fun _ => True)); [apply post_true|]. intros g _.
    destruct (truthy g && is_arr g); [|apply post_ret; discriminate].
    destruct g; try (apply post_ret; discriminate). apply graph_loop_book.
Qed.

Lemma ld_scripts_book scripts : post (fun o => forall v, o = Some v -> ld_book v) (ld_scripts scripts).
Proof.
  induction scripts as [|s rest IH]; simpl; [apply post_ret; discriminate|].
  apply (post_bind (fun o => forall v, o = Some v -> ld_book v)).
  - apply post_try; [apply ld_script_book|apply post_ret; discriminate].
  - intros [v|] Hv; [apply post_ret; exact Hv|exact IH].
Qed.

Lemma keeps_graph_loop items : keeps (graph_loop items).
Proof.
  induction items; simpl; [apply keeps_ret|]. apply keeps_bind; [apply keeps_get|]. intros t.
  destruct (_ || _); [apply keeps_ret|assumption].
Qed.

Lemma keeps_ld_script p : keeps (ld_script p).
Proof.
  unfold ld_script. apply keeps_bind; [apply keeps_opt_exn|]. intros jd.
  apply keeps_bind; [apply keeps_get|]. intros t.
  destruct (_ || _); [apply keeps_ret|].
  apply keeps_bind; [apply keeps_get|]. intros g.
  destruct (_ && _); [|apply keeps_ret]. destruct g; try apply keeps_ret. apply keeps_graph_loop.
Qed.

Lemma keeps_ld_scripts scripts : keeps (ld_scripts scripts).
Proof.
  induction scripts as [|s rest IH]; simpl; [apply keeps_ret|].
  apply keeps_bind; [intros tr; rewrite try_ret_snd; apply keeps_ld_script|].
  intros [v|]; [apply keeps_ret|exact IH].
Qed.

(** extractJsonLd never throws and never fetches; what it returns is an object whose [@type]
    is Book or Product, or an array mentioning one of them. *)
Theorem extractJsonLd_book scripts tr :
  exists o, extractJsonLd scripts tr = (inr o, tr) /\ forall v, o = Some v -> ld_book v.
Proof.
  destruct (try_post_ret (fun o => forall v, o = Some v -> ld_book v) (ld_scripts scripts) None tr
              (ld_scripts_book scripts) ltac:(discriminate)) as [o [tr' [E Ho]]].
  assert (Et : tr' = tr).
  { pose proof (try_ret_snd (ld_scripts scripts) None tr) as T. rewrite E, keeps_ld_scripts in T.
    exact T. }
  subst tr'. exists o. split; [exact E|exact Ho].
Qed.

(** A top-level JSON-LD object typed Product without an [@graph] array is skipped: the result
    is that of the remaining scripts. *)
Theorem extractJsonLd_skips_top_product kvs rest tr :
  obj_get kvs (js "@type") = JStr (js "Product") -> is_arr (obj_get kvs (js "@graph")) = false ->
  extractJsonLd (Some (JObj kvs) :: rest) tr = extractJsonLd rest tr.
Proof.
  intros Ht Hg. unfold extractJsonLd.
  assert (E : forall tr, ld_script (Some (JObj kvs)) tr = (inr None, tr)).
  { intros tr0. unfold ld_script, bind, opt_exn, ret. cbn [get]. unfold ret. rewrite Ht.
    replace (type_is (JStr (js "Product")) "Book") with false by reflexivity.
    cbn -[obj_get js]. rewrite Hg, andb_false_r. reflexivity. }
  assert (E2 : forall tr, ld_scripts (Some (JObj kvs) :: rest) tr = ld_scripts rest tr).
  { intros tr0. cbn [ld_scripts]. unfold bind, try_. rewrite E. reflexivity. }
  unfold try_. rewrite E2. reflexivity.
Qed.

(** ** UrlInputModal *)
Record modal_state : Type := { resolve_set : bool; settled : option jstr; is_open : bool }.

Inductive modal_event : Type :=
| Click (value : jstr)
| KeyDown (key : jstr) (value : jstr)
| CloseModal.

Definition modal_opened : modal_state := {| resolve_set := true; settled := None; is_open := true |}.

Definition call_resolve (v : jstr) (st : modal_state) : modal_state :=
  if resolve_set st then
    {| resolve_set := false;
       settled := match settled st with None => Some v | s => s end;
       is_open := is_open st |}
  else st.

Definition onClose (st : modal_state) : modal_state :=
  call_resolve [] st.

Definition close (st : modal_state) : modal_state :=
  if is_open st then onClose {| resolve_set := resolve_set st; settled := settled st; is_open := false |}
  else st.

Definition modal_step (st : modal_state) (e : modal_event) : modal_state :=
  match e with
  | Click v => if is_open st then close (call_resolve v st) else st
  | KeyDown k v => if is_open st && jstr_eqb k (js "Enter") then close (call_resolve v st) else st
  | CloseModal => close st
  end.

Definition modal_run (evs : list modal_event) : modal_state := fold_left modal_step evs modal_opened.

Fixpoint first_outcome (evs : list modal_event) : option jstr :=
  match evs with
  | [] => None
  | Click v :: _ => Some v
  | KeyDown k v :: rest => if jstr_eqb k (js "Enter") then Some v else first_outcome rest
  | CloseModal :: _ => Some []
  end.

Lemma modal_closed_fixed evs st : is_open st = false -> fold_left modal_step evs st = st.
Proof.
  revert st. induction evs as [|e evs IH]; intros st H; [reflexivity|]. simpl.
  assert (modal_step st e = st) as ->.
  { destruct e; simpl; rewrite ?H; try reflexivity. unfold close. rewrite H. reflexivity. }
  apply IH, H.
Qed.

(** The URL modal's promise is settled by the first click, Enter key or close, with the input
    value or the empty string, and the modal is open exactly while nothing has settled it. *)
Theorem UrlInputModal_settles evs :
  settled (modal_run evs) = first_outcome evs /\
  is_open (modal_run evs) = match first_outcome evs with Some _ => false | None => true end.
Proof.
  unfold modal_run. induction evs as [|e evs IH]; [split; reflexivity|]. simpl.
  destruct e as [v|k v|]; simpl.
  - rewrite modal_closed_fixed by reflexivity. split; reflexivity.
  - destruct (jstr_eqb k (js "Enter")); simpl; [|exact IH].
    rewrite modal_closed_fixed by reflexivity. split; reflexivity.
  - rewrite modal_closed_fixed by reflexivity. split; reflexivity.
Qed.

(** ** Instances of the properties above *)

Definition sample_files : list TFile :=
  [{| basename := js "Dune"; parent_path := Some (js "/") |};
   {| basename := js "Dune 1"; parent_path := Some (js "/") |};
   {| basename := js "Dune 2"; parent_path := Some (js "Books") |}].

Lemma getUniqueFilename_fresh_witness :
  Z.of_nat (List.length sample_files) < 10 ^ 21 /\ (List.length sample_files < 4)%nat /\
  exists n, getUniqueFilename (fun p => p) (js "/") 4 (js "Dune") [] sample_files = Some n.
Proof.
  assert (H1 : Z.of_nat (List.length sample_files) < 10 ^ 21) by (simpl; lia).
  assert (H2 : (List.length sample_files < 4)%nat) by (simpl; lia).
  split; [exact H1|]. split; [exact H2|].
  destruct (getUniqueFilename_fresh (fun p => p) (js "/") 4 (js "Dune") [] sample_files H1 H2)
    as [n [E _]].
  exists n. exact E.
Defined.

Lemma no_title_sep_split (t : jstr) :
  forallb (fun x => negb (title_sep x)) t = true ->
  forall p1 c1 s1, t = p1 ++ c1 :: s1 -> title_sep c1 = true -> forallb c_dot s1 = false.
Proof.
  intros Ht p1 c1 s1 -> Hc. rewrite forallb_app in Ht. simpl in Ht. rewrite Hc in Ht.
  rewrite andb_false_r in Ht. discriminate.
Qed.

Lemma Z_notin_existsb (x : Z) (l : jstr) : existsb (Z.eqb x) l = false -> ~ In x l.
Proof.
  intros E Hin. assert (existsb (Z.eqb x) l = true) as E'.
  { apply existsb_exists. exists x. split; [exact Hin|apply Z.eqb_refl]. }
  congruence.
Qed.

Lemma cleanTitle_cut_witness :
  cleanTitle (js "Dune " ++ 58 :: js " Part One") = trim (js "Dune ").
Proof.
  apply cleanTitle_cut; [reflexivity|reflexivity|].
  apply no_title_sep_split. reflexivity.
Defined.

Lemma cleanTitle_uncut_witness :
  cleanTitle (js "Dune " ++ 45 :: js " Part" ++ 10 :: js "Two") =
  trim (js "Dune " ++ 45 :: js " Part" ++ 10 :: js "Two").
Proof.
  apply cleanTitle_uncut. intros p1 c1 s1 E Hc.
  assert (Hin : In c1 (js "Dune " ++ 45 :: js " Part" ++ 10 :: js "Two")).
  { rewrite E. apply in_or_app. right. left. reflexivity. }
  assert (c1 = 45) as ->.
  { simpl in Hin. unfold title_sep in Hc.
    repeat (destruct Hin as [<-|Hin]; [try discriminate Hc; try reflexivity|]); contradiction. }
  symmetry in E. apply app_cons_unique in E as [_ ->]; [reflexivity| |]; apply Z_notin_existsb; reflexivity.
Defined.

Lemma extractJsonLd_skips_top_product_witness :
  extractJsonLd (Some (JObj [(js "@type", JStr (js "Product")); (js "name", JStr (js "Dune"))])
                 :: [Some (JObj [(js "@type", JStr (js "Book"))])]) [] =
  extractJsonLd [Some (JObj [(js "@type", JStr (js "Book"))])] [].
Proof.
  apply extractJsonLd_skips_top_product; reflexivity.
Defined.

Definition sample_heap : list hnode :=
  [NObj [(js "details", Ref 1); (js "title", Prim (PStr (js "Dune")))];
   NObj [(js "__typename", Prim (PStr (js "BookDetails")))]].

Lemma findBookDetails_sound_witness :
  findBookDetails sample_heap 3 (Ref 0) [] = Some (Some 1%nat, [1%nat; 0%nat]) /\
  grows [] [1%nat; 0%nat] /\
  (forall l, Some 1%nat = Some l -> ~ In l [] /\
     exists n, nth_error sample_heap l = Some n /\ isBookDetails n = true).
Proof.
  assert (E : findBookDetails sample_heap 3 (Ref 0) [] = Some (Some 1%nat, [1%nat; 0%nat]))
    by reflexivity.
  split; [exact E|]. exact (findBookDetails_sound sample_heap 3 (Ref 0) [] _ _ E).
Defined.

Definition sample_description : jstr :=
  js "A long description of the book that runs past fifty code units.".

Definition sample_heap2 : list hnode :=
  [NObj [(js "description", Prim (PStr (js "short"))); (js "work", Ref 1)];
   NObj [(js "description", Prim (PStr sample_description))]].

Lemma findDescription_sound_witness :
  findDescription sample_heap2 3 (Ref 0) [] = Some (Some sample_description, [1%nat; 0%nat]) /\
  grows [] [1%nat; 0%nat] /\
  (50 < List.length sample_description)%nat.
Proof.
  assert (E : findDescription sample_heap2 3 (Ref 0) [] =
              Some (Some sample_description, [1%nat; 0%nat])) by reflexivity.
  destruct (findDescription_sound sample_heap2 3 (Ref 0) [] _ _ E) as [G S].
  split; [exact E|]. split; [exact G|]. exact (proj1 (S sample_description eq_refl)).
Defined.
